(** * Architex AI: the live assistant session (LiveAssistant component)

    A shallow embedding of the audio helpers ([decode], [encode],
    [decodeAudioData], [createBlob]) and of the event handlers of the
    [LiveAssistant] React component, followed by the properties of its
    design document that the code settles. The handlers of the
    [InspirationAnalyzer] component of the same file and the [redesignImage]
    function they call are embedded after them.

    Conventions.
    - A JavaScript string is the list of its UTF-16 code units.
    - A [Uint8Array] is a list of [Byte.byte].
    - Times on the playback clock (the schedule cursor, [currentTime],
      durations) are doubles. A finite double is the rational it stands
      for; what the code computes from them is rounded to the nearest
      double ([binary64]), and the cursor, which the code adds to, may
      become infinite.
    - A handler is a computation over the component's state that may throw;
      what it did before throwing stays done. Every call on the platform is
      appended to a log kept in the state.
    - An [async] handler is run as one step: each of its awaits is on a
      value that is already there, or on the platform's answer, which is an
      argument of the handler. [switchCamera], which reads the stream
      reference again after its awaits, is one step for each stretch
      between two awaits, so that other handlers can run in between. *)

From Stdlib Require Import ZArith NArith QArith Qround Qpower.
From Stdlib Require Import List String Bool Lia Lqa.
From Stdlib Require Import Strings.Byte.
Import ListNotations.

Set Implicit Arguments.

#[local] Open Scope Z_scope.

(** ** Exceptions and results *)

Inductive exn : Type :=
| InvalidCharacterError
| RangeError
| NotSupportedError
| InvalidStateError
| TypeError
| DOMException (message : string).

Inductive result (A : Type) : Type :=
| Ret (a : A)
| Throw (e : exn).

Arguments Ret {A} a.
Arguments Throw {A} e.

Definition rbind {A B} (r : result A) (k : A -> result B) : result B :=
  match r with
  | Ret a => k a
  | Throw e => Throw e
  end.

(** ** Strings and bytes *)

Definition jsstring := list N.

Definition fromCharCode (b : byte) : N := Byte.to_N b.

(** Storing a number into a [Uint8Array] slot keeps it modulo 256. *)
Definition toUint8 (c : N) : byte :=
  match Byte.of_N (c mod 256) with
  | Some b => b
  | None => x00
  end.

(** ** Base64: the platform's [btoa] and [atob]

    Both are browser built-ins; they are written here after the standard
    Base64 encoding of RFC 4648 and the "forgiving-base64 decode" of the
    WHATWG Infra standard, which is what [atob] runs. *)

Module Base64.

Definition pad : N := 61%N.

Definition octet (c : N) : Prop := (c < 256)%N.
Definition sextet (c : N) : Prop := (c < 64)%N.

(** The code unit of the [i]-th letter of the alphabet
    [A-Z a-z 0-9 + /]. *)
Definition letter (i : N) : N :=
  (if i <? 26 then 65 + i
   else if i <? 52 then 97 + (i - 26)
   else if i <? 62 then 48 + (i - 52)
   else if i =? 62 then 43
   else 47)%N.

(** The value of a code unit of the alphabet, if it is one. *)
Definition value (c : N) : option N :=
  (if (65 <=? c) && (c <=? 90) then Some (c - 65)
   else if (97 <=? c) && (c <=? 122) then Some (c - 97 + 26)
   else if (48 <=? c) && (c <=? 57) then Some (c - 48 + 52)
   else if c =? 43 then Some 62
   else if c =? 47 then Some 63
   else None)%N.

(** Three octets give four sextets; one or two trailing octets give two
    or three. *)
Fixpoint to_sextets (l : list N) : list N :=
  (match l with
   | [] => []
   | [a] => [a / 4; (a mod 4) * 16]
   | [a; b] => [a / 4; (a mod 4) * 16 + b / 16; (b mod 16) * 4]
   | a :: b :: c :: rest =>
       a / 4 :: (a mod 4) * 16 + b / 16 :: (b mod 16) * 4 + c / 64
         :: c mod 64 :: to_sextets rest
   end)%N.

Definition padding (l : list N) : list N :=
  match (N.of_nat (List.length l) mod 3)%N with
  | 1%N => [pad; pad]
  | 2%N => [pad]
  | _ => []
  end.

(** [btoa]: throws when a code unit is above 255. *)
Definition btoa (s : jsstring) : result jsstring :=
  if forallb (fun c => (c <=? 255)%N) s
  then Ret (map letter (to_sextets s) ++ padding s)
  else Throw InvalidCharacterError.

Definition is_ascii_whitespace (c : N) : bool :=
  ((c =? 9) || (c =? 10) || (c =? 12) || (c =? 13) || (c =? 32))%N.

Definition drop_last_pad (l : jsstring) : jsstring :=
  match rev l with
  | c :: r => if (c =? pad)%N then rev r else l
  | [] => l
  end.

Fixpoint values (l : jsstring) : option (list N) :=
  match l with
  | [] => Some []
  | c :: r =>
      match value c, values r with
      | Some v, Some vs => Some (v :: vs)
      | _, _ => None
      end
  end.

(** Four sextets give three octets; two left over give one octet (their
    last four bits are dropped), three give two (last two bits dropped). *)
Fixpoint of_sextets (l : list N) : list N :=
  (match l with
   | s1 :: s2 :: s3 :: s4 :: rest =>
       s1 * 4 + s2 / 16 :: (s2 mod 16) * 16 + s3 / 4 :: (s3 mod 4) * 64 + s4
         :: of_sextets rest
   | [s1; s2; s3] => [s1 * 4 + s2 / 16; (s2 mod 16) * 16 + s3 / 4]
   | [s1; s2] => [s1 * 4 + s2 / 16]
   | _ => []
   end)%N.

(** [atob]: forgiving-base64 decode. *)
Definition atob (s : jsstring) : result jsstring :=
  let data := filter (fun c => negb (is_ascii_whitespace c)) s in
  let data :=
    if (N.of_nat (List.length data) mod 4 =? 0)%N
    then drop_last_pad (drop_last_pad data)
    else data in
  if (N.of_nat (List.length data) mod 4 =? 1)%N
  then Throw InvalidCharacterError
  else match values data with
       | Some vs => Ret (of_sextets vs)
       | None => Throw InvalidCharacterError
       end.

End Base64.

(** ** Audio helpers *)

(** [arr[i] = v] on a typed array: nothing happens out of range. *)
Fixpoint store {A} (arr : list A) (i : nat) (v : A) : list A :=
  match arr, i with
  | [], _ => []
  | _ :: r, O => v :: r
  | x :: r, S j => x :: store r j v
  end.

(** [decode(base64)]: a zero-filled [Uint8Array] of the length of
    [atob(base64)], filled slot by slot with the code units. *)
Definition decode (base64 : jsstring) : result (list byte) :=
  rbind (Base64.atob base64) (fun binaryString =>
  let len := List.length binaryString in
  let bytes := repeat x00 len in
  Ret (fold_left
         (fun bytes i => store bytes i (toUint8 (nth i binaryString 0%N)))
         (seq 0 len) bytes)).

(** [encode(bytes)]: [btoa] of the string built by appending the character
    of each byte. *)
Definition encode (bytes : list byte) : result jsstring :=
  let binary :=
    fold_left (fun binary b => binary ++ [fromCharCode b]) bytes [] in
  Base64.btoa binary.

(** ** Numbers

    A captured sample is a JavaScript number: not-a-number, an infinity, or a
    finite value. Finite values are taken as rationals; every operation
    [createBlob] performs on a 32-bit sample (comparison with [1] and [-1],
    the product with [32767], truncation) is exact on them. *)

Inductive number : Type :=
| NaN
| Infinity (negative : bool)
| Finite (q : Q).

Definition number_leb (a b : number) : bool :=
  match a, b with
  | NaN, _ | _, NaN => false
  | Infinity true, _ => true
  | _, Infinity false => true
  | Infinity false, _ => false
  | _, Infinity true => false
  | Finite p, Finite q => Qle_bool p q
  end.

(** [Math.min] and [Math.max]: not-a-number as soon as one argument is. *)
Definition Math_min (a b : number) : number :=
  match a, b with
  | NaN, _ | _, NaN => NaN
  | _, _ => if number_leb a b then a else b
  end.

Definition Math_max (a b : number) : number :=
  match a, b with
  | NaN, _ | _, NaN => NaN
  | _, _ => if number_leb a b then b else a
  end.

Definition number_mul (a b : number) : number :=
  match a, b with
  | NaN, _ | _, NaN => NaN
  | Infinity n, Infinity m => Infinity (xorb n m)
  | Infinity n, Finite q | Finite q, Infinity n =>
      match Qcompare q 0 with
      | Eq => NaN
      | Lt => Infinity (negb n)
      | Gt => Infinity n
      end
  | Finite p, Finite q => Finite (p * q)
  end.

(** Storing a number into an [Int16Array] slot ([ToInt16]): not-a-number and
    the infinities give [0]; a finite value is truncated toward zero, taken
    modulo [2^16] and read as a signed 16-bit integer. *)
Definition toInt16 (v : number) : Z :=
  match v with
  | NaN | Infinity _ => 0
  | Finite q =>
      let int := Z.quot (Qnum q) (Zpos (Qden q)) in
      let int16bit := int mod 65536 in
      if 32768 <=? int16bit then int16bit - 65536 else int16bit
  end.

(** The two bytes of a 16-bit slot, low byte first. *)
Definition int16_bytes (v : Z) : list byte :=
  let u := Z.to_N (v mod 65536) in
  [toUint8 (u mod 256); toUint8 (u / 256)].

(** The 16-bit slot made of two bytes, low byte first. *)
Definition int16_of_bytes (lo hi : byte) : Z :=
  let u := Z.of_N (Byte.to_N lo + 256 * Byte.to_N hi) in
  if 32768 <=? u then u - 65536 else u.

Record GenAIBlob : Type := { data : jsstring; mimeType : string }.

(** The loop of [createBlob]: a zero-filled [Int16Array] of the length of
    [data], filled slot by slot. *)
Definition createBlob_int16 (data : list number) : list Z :=
  let l := List.length data in
  let int16 := repeat 0 l in
  fold_left
    (fun int16 i =>
       let clamped := Math_max (Finite (-1)) (Math_min (Finite 1) (nth i data NaN)) in
       store int16 i (toInt16 (number_mul clamped (Finite 32767))))
    (seq 0 l) int16.

Definition createBlob (data : list number) : result GenAIBlob :=
  let int16 := createBlob_int16 data in
  rbind (encode (flat_map int16_bytes int16)) (fun d =>
  Ret {| data := d; mimeType := "audio/pcm;rate=16000" |}).

(** ** Doubles

    Binary floating-point numbers of 64 bits: 53 bits of precision, the last
    place of the subnormal numbers at [2^-1074], infinite from [2^1024] on.
    The sign of zero is not kept. *)

Definition pow2 (e : Z) : Q := (2 ^ e)%Q.

(** The integer nearest to a rational, the even one of the two when it is
    half way. *)
Definition round_half_even (x : Q) : Z :=
  let f := Qfloor x in
  match (x - inject_Z f ?= 1 # 2)%Q with
  | Lt => f
  | Gt => f + 1
  | Eq => if Z.even f then f else f + 1
  end.

(** The binary exponent of a positive rational: [2^e <= q < 2^(e+1)]. *)
Definition ilog2 (q : Q) : Z :=
  let k := Z.log2 (Qnum q) - Z.log2 (Zpos (Qden q)) in
  if Qle_bool (pow2 k) q then k else k - 1.

(** The exponent of the last place of the doubles around a positive
    rational. *)
Definition exponent (a : Q) : Z := Z.max (ilog2 a - 52) (-1074).

(** The multiple of its last place nearest to a positive rational. *)
Definition nearest (a : Q) : Q :=
  (inject_Z (round_half_even (a / pow2 (exponent a))) * pow2 (exponent a))%Q.

(** The double a rational rounds to: to nearest, ties to even. *)
Definition binary64 (q : Q) : number :=
  match Qnum q with
  | Z0 => Finite 0
  | Zpos _ =>
      let v := nearest q in
      if Qle_bool (pow2 1024) v then Infinity false else Finite (Qred v)
  | Zneg _ =>
      let v := nearest (- q) in
      if Qle_bool (pow2 1024) v then Infinity true else Finite (Qred (- v))
  end.

(** The sum of two doubles. *)
Definition number_add (a b : number) : number :=
  match a, b with
  | NaN, _ | _, NaN => NaN
  | Infinity n, Infinity m => if Bool.eqb n m then Infinity n else NaN
  | Infinity n, Finite _ | Finite _, Infinity n => Infinity n
  | Finite p, Finite q => binary64 (p + q)
  end.

(** ** Decoded audio *)

Record AudioBuffer : Type := {
  numberOfChannels : nat;
  length : nat;                (* sample frames *)
  sampleRate : positive;
  channelData : list (list Q)
}.

(** How long the buffer plays, in seconds. *)
Definition seconds (b : AudioBuffer) : Q := Z.of_nat (length b) # sampleRate b.

(** [AudioBuffer.duration]: the number of frames divided by the sample rate,
    as a double. *)
Definition duration (b : AudioBuffer) : number := binary64 (seconds b).

(** [new Int16Array(data.buffer)]: throws when the byte length is odd. *)
Fixpoint Int16Array_of (bytes : list byte) : result (list Z) :=
  match bytes with
  | [] => Ret []
  | [_] => Throw RangeError
  | lo :: hi :: rest =>
      rbind (Int16Array_of rest) (fun r => Ret (int16_of_bytes lo hi :: r))
  end.

(** [ctx.createBuffer(numChannels, frameCount, sampleRate)] refuses no
    channel and no frame. *)
Definition createBuffer (numChannels frameCount : nat) (rate : positive)
  : result AudioBuffer :=
  if (numChannels =? 0)%nat || (frameCount =? 0)%nat
  then Throw NotSupportedError
  else Ret {| numberOfChannels := numChannels;
              length := frameCount;
              sampleRate := rate;
              channelData := repeat (repeat 0%Q frameCount) numChannels |}.

Definition decodeAudioData (data : list byte) (rate : positive)
    (numChannels : nat) : result AudioBuffer :=
  rbind (Int16Array_of data) (fun dataInt16 =>
  let frameCount := (List.length dataInt16 / numChannels)%nat in
  rbind (createBuffer numChannels frameCount rate) (fun buffer =>
  let fill channel :=
    fold_left
      (fun channelData i =>
         store channelData i
           (inject_Z (nth (i * numChannels + channel)%nat dataInt16 0%Z) / 32768)%Q)
      (seq 0 frameCount) (nth channel (channelData buffer) []) in
  Ret {| numberOfChannels := numberOfChannels buffer;
         length := length buffer;
         sampleRate := sampleRate buffer;
         channelData := map fill (seq 0 numChannels) |})).

(** ** The component's state *)

Inductive FacingMode : Type := user | environment.

Inductive TrackKind : Type := audio | video.

Record MediaStreamTrack : Type := {
  track_id : nat;
  kind : TrackKind;
  enabled : bool
}.

Record MediaStream : Type := { tracks : list MediaStreamTrack }.

Record AudioContext : Type := { context_id : nat; context_rate : positive }.

(** A buffer source of the playback context. [start_time] is [None] until
    [start(when)] has been called. *)
Record AudioBufferSourceNode : Type := {
  node_id : nat;
  buffer : AudioBuffer;
  start_time : option Q
}.

(** Calls on the platform, in the order they were made. *)
Inductive Effect : Type :=
| TrackStop (track : nat)
| ClearInterval (handle : positive)
| SetInterval (handle : positive) (ms : nat)
| ContextClose (context : nat)
| SourceStart (node : nat) (when : Q) (duration : number)
| SourceStop (node : nat)
| SendRealtimeInput (session : nat) (media : GenAIBlob)
| ConsoleDebug (msg : string)
| ConsoleLog (msg : string)
| ConsoleError (msg : string)
| CreateScriptProcessor (context : nat)
| DrawImage (width height : N)
| CanvasToBlob (type : string) (quality : Q)
| GetUserMedia (withAudio exact : bool) (mode : FacingMode)
| VideoPlay
| LiveConnect (session : nat).

Record World : Type := {
  (* React state *)
  connected : bool;
  isCameraActive : bool;
  facingMode : FacingMode;
  status : string;
  error : option string;
  (* refs *)
  sessionRef : option nat;
  audioContextRef : option AudioContext;
  inputAudioContextRef : option AudioContext;
  nextStartTimeRef : number;
  sourcesRef : list AudioBufferSourceNode;
  streamRef : option MediaStream;
  frameIntervalRef : option positive;
  (* the platform *)
  fresh : nat;
  log : list Effect
}.

Definition initial : World :=
  {| connected := false; isCameraActive := false; facingMode := user;
     status := "Ready to connect"; error := None;
     sessionRef := None; audioContextRef := None;
     inputAudioContextRef := None; nextStartTimeRef := Finite 0;
     sourcesRef := []; streamRef := None; frameIntervalRef := None;
     fresh := O; log := [] |}.

(** ** Handlers: state and exceptions *)

Definition M (A : Type) : Type := World -> World * result A.

Definition ret {A} (a : A) : M A := fun w => (w, Ret a).

Definition throw {A} (e : exn) : M A := fun w => (w, Throw e).

Definition bind {A B} (c : M A) (k : A -> M B) : M B :=
  fun w =>
    match c w with
    | (w', Ret a) => k a w'
    | (w', Throw e) => (w', Throw e)
    end.

(** [try { c } catch (e) { h e }] *)
Definition try_catch {A} (c : M A) (h : exn -> M A) : M A :=
  fun w =>
    match c w with
    | (w', Ret a) => (w', Ret a)
    | (w', Throw e) => h e w'
    end.

Definition lift {A} (r : result A) : M A := fun w => (w, r).

Definition gets {A} (f : World -> A) : M A := fun w => (w, Ret (f w)).

Definition modify (f : World -> World) : M unit := fun w => (f w, Ret tt).

Declare Scope handler_scope.
Delimit Scope handler_scope with handler.
Notation "x <- c ;; k" := (bind c (fun x => k))
  (at level 61, c at next level, right associativity) : handler_scope.
Notation "c ;; k" := (bind c (fun _ => k))
  (at level 61, right associativity) : handler_scope.
#[local] Open Scope handler_scope.

Fixpoint forEach {A} (l : list A) (f : A -> M unit) : M unit :=
  match l with
  | [] => ret tt
  | x :: r => f x ;; forEach r f
  end.

Definition state_of {A} (c : M A) (w : World) : World := fst (c w).
Definition outcome_of {A} (c : M A) (w : World) : result A := snd (c w).

Definition emit (e : Effect) : M unit :=
  modify (fun w =>
    {| connected := connected w; isCameraActive := isCameraActive w;
       facingMode := facingMode w; status := status w; error := error w;
       sessionRef := sessionRef w; audioContextRef := audioContextRef w;
       inputAudioContextRef := inputAudioContextRef w;
       nextStartTimeRef := nextStartTimeRef w; sourcesRef := sourcesRef w;
       streamRef := streamRef w; frameIntervalRef := frameIntervalRef w;
       fresh := fresh w; log := log w ++ [e] |}).

Definition setConnected (v : bool) : M unit :=
  modify (fun w =>
    {| connected := v; isCameraActive := isCameraActive w;
       facingMode := facingMode w; status := status w; error := error w;
       sessionRef := sessionRef w; audioContextRef := audioContextRef w;
       inputAudioContextRef := inputAudioContextRef w;
       nextStartTimeRef := nextStartTimeRef w; sourcesRef := sourcesRef w;
       streamRef := streamRef w; frameIntervalRef := frameIntervalRef w;
       fresh := fresh w; log := log w |}).

Definition setIsCameraActive (v : bool) : M unit :=
  modify (fun w =>
    {| connected := connected w; isCameraActive := v;
       facingMode := facingMode w; status := status w; error := error w;
       sessionRef := sessionRef w; audioContextRef := audioContextRef w;
       inputAudioContextRef := inputAudioContextRef w;
       nextStartTimeRef := nextStartTimeRef w; sourcesRef := sourcesRef w;
       streamRef := streamRef w; frameIntervalRef := frameIntervalRef w;
       fresh := fresh w; log := log w |}).

Definition setFacingMode (v : FacingMode) : M unit :=
  modify (fun w =>
    {| connected := connected w; isCameraActive := isCameraActive w;
       facingMode := v; status := status w; error := error w;
       sessionRef := sessionRef w; audioContextRef := audioContextRef w;
       inputAudioContextRef := inputAudioContextRef w;
       nextStartTimeRef := nextStartTimeRef w; sourcesRef := sourcesRef w;
       streamRef := streamRef w; frameIntervalRef := frameIntervalRef w;
       fresh := fresh w; log := log w |}).

Definition setStatus (v : string) : M unit :=
  modify (fun w =>
    {| connected := connected w; isCameraActive := isCameraActive w;
       facingMode := facingMode w; status := v; error := error w;
       sessionRef := sessionRef w; audioContextRef := audioContextRef w;
       inputAudioContextRef := inputAudioContextRef w;
       nextStartTimeRef := nextStartTimeRef w; sourcesRef := sourcesRef w;
       streamRef := streamRef w; frameIntervalRef := frameIntervalRef w;
       fresh := fresh w; log := log w |}).

Definition setError (v : option string) : M unit :=
  modify (fun w =>
    {| connected := connected w; isCameraActive := isCameraActive w;
       facingMode := facingMode w; status := status w; error := v;
       sessionRef := sessionRef w; audioContextRef := audioContextRef w;
       inputAudioContextRef := inputAudioContextRef w;
       nextStartTimeRef := nextStartTimeRef w; sourcesRef := sourcesRef w;
       streamRef := streamRef w; frameIntervalRef := frameIntervalRef w;
       fresh := fresh w; log := log w |}).

Definition set_sessionRef (v : option nat) : M unit :=
  modify (fun w =>
    {| connected := connected w; isCameraActive := isCameraActive w;
       facingMode := facingMode w; status := status w; error := error w;
       sessionRef := v; audioContextRef := audioContextRef w;
       inputAudioContextRef := inputAudioContextRef w;
       nextStartTimeRef := nextStartTimeRef w; sourcesRef := sourcesRef w;
       streamRef := streamRef w; frameIntervalRef := frameIntervalRef w;
       fresh := fresh w; log := log w |}).

Definition set_audioContextRef (v : option AudioContext) : M unit :=
  modify (fun w =>
    {| connected := connected w; isCameraActive := isCameraActive w;
       facingMode := facingMode w; status := status w; error := error w;
       sessionRef := sessionRef w; audioContextRef := v;
       inputAudioContextRef := inputAudioContextRef w;
       nextStartTimeRef := nextStartTimeRef w; sourcesRef := sourcesRef w;
       streamRef := streamRef w; frameIntervalRef := frameIntervalRef w;
       fresh := fresh w; log := log w |}).

Definition set_inputAudioContextRef (v : option AudioContext) : M unit :=
  modify (fun w =>
    {| connected := connected w; isCameraActive := isCameraActive w;
       facingMode := facingMode w; status := status w; error := error w;
       sessionRef := sessionRef w; audioContextRef := audioContextRef w;
       inputAudioContextRef := v;
       nextStartTimeRef := nextStartTimeRef w; sourcesRef := sourcesRef w;
       streamRef := streamRef w; frameIntervalRef := frameIntervalRef w;
       fresh := fresh w; log := log w |}).

Definition set_nextStartTimeRef (v : number) : M unit :=
  modify (fun w =>
    {| connected := connected w; isCameraActive := isCameraActive w;
       facingMode := facingMode w; status := status w; error := error w;
       sessionRef := sessionRef w; audioContextRef := audioContextRef w;
       inputAudioContextRef := inputAudioContextRef w;
       nextStartTimeRef := v; sourcesRef := sourcesRef w;
       streamRef := streamRef w; frameIntervalRef := frameIntervalRef w;
       fresh := fresh w; log := log w |}).

Definition set_sourcesRef (v : list AudioBufferSourceNode) : M unit :=
  modify (fun w =>
    {| connected := connected w; isCameraActive := isCameraActive w;
       facingMode := facingMode w; status := status w; error := error w;
       sessionRef := sessionRef w; audioContextRef := audioContextRef w;
       inputAudioContextRef := inputAudioContextRef w;
       nextStartTimeRef := nextStartTimeRef w; sourcesRef := v;
       streamRef := streamRef w; frameIntervalRef := frameIntervalRef w;
       fresh := fresh w; log := log w |}).

Definition set_streamRef (v : option MediaStream) : M unit :=
  modify (fun w =>
    {| connected := connected w; isCameraActive := isCameraActive w;
       facingMode := facingMode w; status := status w; error := error w;
       sessionRef := sessionRef w; audioContextRef := audioContextRef w;
       inputAudioContextRef := inputAudioContextRef w;
       nextStartTimeRef := nextStartTimeRef w; sourcesRef := sourcesRef w;
       streamRef := v; frameIntervalRef := frameIntervalRef w;
       fresh := fresh w; log := log w |}).

Definition set_frameIntervalRef (v : option positive) : M unit :=
  modify (fun w =>
    {| connected := connected w; isCameraActive := isCameraActive w;
       facingMode := facingMode w; status := status w; error := error w;
       sessionRef := sessionRef w; audioContextRef := audioContextRef w;
       inputAudioContextRef := inputAudioContextRef w;
       nextStartTimeRef := nextStartTimeRef w; sourcesRef := sourcesRef w;
       streamRef := streamRef w; frameIntervalRef := v;
       fresh := fresh w; log := log w |}).

(** A new object identity. *)
Definition new_id : M nat :=
  fun w =>
    ({| connected := connected w; isCameraActive := isCameraActive w;
        facingMode := facingMode w; status := status w; error := error w;
        sessionRef := sessionRef w; audioContextRef := audioContextRef w;
        inputAudioContextRef := inputAudioContextRef w;
        nextStartTimeRef := nextStartTimeRef w; sourcesRef := sourcesRef w;
        streamRef := streamRef w; frameIntervalRef := frameIntervalRef w;
        fresh := S (fresh w); log := log w |}, Ret (fresh w)).

(** ** Platform objects *)

Definition is_video (t : MediaStreamTrack) : bool :=
  match kind t with video => true | audio => false end.

Definition getVideoTracks (s : MediaStream) : list MediaStreamTrack :=
  filter is_video (tracks s).

Definition same_track (a b : MediaStreamTrack) : bool :=
  (track_id a =? track_id b)%nat.

(** [stream.removeTrack(t)] and [stream.addTrack(t)]; adding a track the
    stream already has does nothing. *)
Definition removeTrack (s : MediaStream) (t : MediaStreamTrack) : MediaStream :=
  {| tracks := filter (fun x => negb (same_track x t)) (tracks s) |}.

Definition addTrack (s : MediaStream) (t : MediaStreamTrack) : MediaStream :=
  if existsb (same_track t) (tracks s) then s
  else {| tracks := tracks s ++ [t] |}.

(** [track.stop()] *)
Definition track_stop (t : MediaStreamTrack) : M unit :=
  emit (TrackStop (track_id t)).

(** [source.stop()]: an [InvalidStateError] when the source was never
    started. *)
Definition source_stop (source : AudioBufferSourceNode) : M unit :=
  match start_time source with
  | Some _ => emit (SourceStop (node_id source))
  | None => throw InvalidStateError
  end.

(** [source.start(when)] on a new source of buffer [audioBuffer]: a
    [TypeError] when [when] is not a finite number, a [RangeError] when it is
    negative. It gives the time the source is to start at. *)
Definition source_start (node : nat) (audioBuffer : AudioBuffer)
    (when : number) : M Q :=
  match when with
  | Finite t =>
      if Qle_bool 0 t
      then emit (SourceStart node t (duration audioBuffer)) ;; ret t
      else throw RangeError
  | _ => throw TypeError
  end.

(** [navigator.mediaDevices.getUserMedia(constraints)]; [answer] is what the
    platform answers: a stream, or a rejection. *)
Definition getUserMedia (withAudio exact : bool) (mode : FacingMode)
    (answer : result MediaStream) : M MediaStream :=
  emit (GetUserMedia withAudio exact mode) ;; lift answer.

Definition message_of (e : exn) : string :=
  match e with
  | InvalidCharacterError => "InvalidCharacterError"
  | RangeError => "RangeError"
  | NotSupportedError => "NotSupportedError"
  | InvalidStateError => "InvalidStateError"
  | TypeError => "TypeError"
  | DOMException m => m
  end.

(** ** Messages of the service

    [LiveServerMessage] is declared by the service's library; the fields are
    those the handler reads, optional as the library declares them. An
    absent [data] is the empty string and an absent [interrupted] is [false]:
    the handler only tests them for truth. *)

Record Part : Type := { inlineData : option GenAIBlob }.
Record Content : Type := { parts : option (list Part) }.
Record LiveServerContent : Type := {
  modelTurn : option Content;
  interrupted : bool
}.
Record LiveServerMessage : Type := { serverContent : option LiveServerContent }.

(** [message.serverContent?.modelTurn?.parts[0]?.inlineData?.data]: the
    index is read without [?.], so a model turn without [parts] is a
    [TypeError]. *)
Definition audio_of (message : LiveServerMessage) : result (option jsstring) :=
  match serverContent message with
  | Some sc =>
      match modelTurn sc with
      | Some turn =>
          match parts turn with
          | Some (part :: _) =>
              match inlineData part with
              | Some blob => Ret (Some (data blob))
              | None => Ret None
              end
          | Some [] => Ret None
          | None => Throw TypeError
          end
      | None => Ret None
      end
  | None => Ret None
  end.

(** [message.serverContent?.interrupted] *)
Definition interrupted_of (message : LiveServerMessage) : bool :=
  match serverContent message with
  | Some sc => interrupted sc
  | None => false
  end.

(** A string is true when it is not empty. *)
Definition truthy (s : option jsstring) : option jsstring :=
  match s with
  | Some (c :: r) => Some (c :: r)
  | _ => None
  end.

(** ** The handlers of [LiveAssistant] *)

Definition stopEverything : M unit :=
  session <- gets sessionRef ;;
  match session with
  | Some _ => set_sessionRef None
  | None => ret tt
  end ;;
  stream <- gets streamRef ;;
  match stream with
  | Some st => forEach (tracks st) track_stop ;; set_streamRef None
  | None => ret tt
  end ;;
  interval <- gets frameIntervalRef ;;
  match interval with
  | Some handle => emit (ClearInterval handle) ;; set_frameIntervalRef None
  | None => ret tt
  end ;;
  inputCtx <- gets inputAudioContextRef ;;
  match inputCtx with
  | Some ctx => emit (ContextClose (context_id ctx)) ;;
                set_inputAudioContextRef None
  | None => ret tt
  end ;;
  outputCtx <- gets audioContextRef ;;
  match outputCtx with
  | Some ctx => emit (ContextClose (context_id ctx)) ;;
                set_audioContextRef None
  | None => ret tt
  end ;;
  sources <- gets sourcesRef ;;
  forEach sources
    (fun source => try_catch (source_stop source) (fun _ => ret tt)) ;;
  set_sourcesRef [] ;;
  setConnected false ;;
  setIsCameraActive false ;;
  setStatus "Disconnected".

Definition toggleCamera : M unit :=
  stream <- gets streamRef ;;
  match stream with
  | Some st =>
      match getVideoTracks st with
      | first :: _ =>
          let newStatus := negb (enabled first) in
          set_streamRef
            (Some {| tracks :=
                       map (fun t =>
                              if is_video t
                              then {| track_id := track_id t; kind := kind t;
                                      enabled := newStatus |}
                              else t)
                           (tracks st) |}) ;;
          setIsCameraActive newStatus
      | [] => ret tt
      end
  | None => ret tt
  end.

Definition opposite (mode : FacingMode) : FacingMode :=
  match mode with user => environment | environment => user end.

(** [switchCamera] awaits the platform three times: the exact request, the
    relaxed request when the exact one is rejected, and [play()]. Other
    handlers can run during an await, so each stretch of the function
    between two awaits is a step of its own; [targetMode], which the closure
    keeps across the awaits, is an argument of the later stretches, and
    [videoEl] tells whether the video element is mounted. *)

(** From the call to the first await: the exact request is made. *)
Definition switchCamera : M unit :=
  stream <- gets streamRef ;;
  match stream with
  | None => ret tt
  | Some _ =>
      currentMode <- gets facingMode ;;
      emit (GetUserMedia false true (opposite currentMode))
  end.

(** The [catch] of the outer [try]. *)
Definition switchCamera_failed : M unit :=
  emit (ConsoleError "Error switching camera:") ;;
  setError
    (Some "Could not switch camera. Ensure your device has multiple cameras."%string).

(** Once a stream is granted: from [const newVideoTrack] to the await of
    [play()]. *)
Definition switchCamera_swap (targetMode : FacingMode)
    (newStream : MediaStream) (videoEl : bool) : M unit :=
  let newVideoTrack := hd_error (getVideoTracks newStream) in
  current <- gets streamRef ;;
  match current with
  | None => throw TypeError
  | Some st =>
      let oldVideoTrack := hd_error (getVideoTracks st) in
      st' <- match oldVideoTrack with
             | Some old => track_stop old ;; ret (removeTrack st old)
             | None => ret st
             end ;;
      match newVideoTrack with
      | None => set_streamRef (Some st') ;; throw TypeError
      | Some new =>
          set_streamRef (Some (addTrack st' new)) ;;
          setFacingMode targetMode ;;
          setIsCameraActive true ;;
          if videoEl then emit VideoPlay else ret tt
      end
  end.

(** When the exact request is answered: the swap, or the relaxed request. *)
Definition switchCamera_exact (targetMode : FacingMode)
    (answer : result MediaStream) (videoEl : bool) : M unit :=
  match answer with
  | Ret newStream =>
      try_catch (switchCamera_swap targetMode newStream videoEl)
        (fun err => switchCamera_failed)
  | Throw e =>
      emit (ConsoleLog "Exact facing mode failed, falling back to ideal") ;;
      emit (GetUserMedia false false targetMode)
  end.

(** When the relaxed request is answered. *)
Definition switchCamera_relaxed (targetMode : FacingMode)
    (answer : result MediaStream) (videoEl : bool) : M unit :=
  try_catch
    (newStream <- lift answer ;; switchCamera_swap targetMode newStream videoEl)
    (fun err => switchCamera_failed).

(** When [play()] is settled. *)
Definition switchCamera_played (playAnswer : result unit) : M unit :=
  try_catch (lift playAnswer)
    (fun e => emit (ConsoleError "Error playing video after switch:")).

(** [connect]. [answer] is the platform's answer to the capture request.
    The two audio contexts and the session promise are new objects. *)
Definition connect (answer : result MediaStream) : M unit :=
  setError None ;;
  setStatus "Connecting..." ;;
  try_catch
    (inputId <- new_id ;;
     outputId <- new_id ;;
     set_inputAudioContextRef
       (Some {| context_id := inputId; context_rate := 16000 |}) ;;
     set_audioContextRef
       (Some {| context_id := outputId; context_rate := 24000 |}) ;;
     set_nextStartTimeRef (Finite 0) ;;
     mode <- gets facingMode ;;
     stream <- getUserMedia true false mode answer ;;
     set_streamRef (Some stream) ;;
     setIsCameraActive true ;;
     sessionPromise <- new_id ;;
     emit (LiveConnect sessionPromise) ;;
     set_sessionRef (Some sessionPromise))
    (fun err =>
       setError (Some (message_of err)) ;;
       setStatus "Error" ;;
       stopEverything).

(** The handler [connect] puts on the session promise's rejection. *)
Definition sessionRejected : M unit :=
  emit (ConsoleError "Connection failed") ;;
  setError (Some "Failed to connect to Gemini Live API."%string) ;;
  stopEverything.

(** [onopen]. [inputAudioContext] is the context [connect] made and the
    callback closes over; [handle] is what [setInterval] returns. *)
Definition onopen (inputAudioContext : AudioContext) (handle : positive)
  : M unit :=
  setStatus "Live" ;;
  setConnected true ;;
  emit (CreateScriptProcessor (context_id inputAudioContext)) ;;
  emit (SetInterval handle 1000) ;;
  set_frameIntervalRef (Some handle).

(** [scriptProcessor.onaudioprocess]. [sessionPromise] is the promise the
    callback closes over; [delivery] is the outcome of
    [sessionPromise.then(session => session.sendRealtimeInput(...))]. *)
Definition onaudioprocess (sessionPromise : nat) (inputData : list number)
    (delivery : result unit) : M unit :=
  session <- gets sessionRef ;;
  match session with
  | None => ret tt
  | Some _ =>
      pcmBlob <- lift (createBlob inputData) ;;
      try_catch
        (lift delivery ;; emit (SendRealtimeInput sessionPromise pcmBlob))
        (fun err => emit (ConsoleDebug "Send audio error:"))
  end.

(** The callback of the frame interval. [canvasEl] tells whether the canvas
    the callback closes over exists, [hidden] is [document.hidden], [videoEl]
    the size of the video element when it is mounted, [context2d] whether the
    canvas gives a 2d context. *)
Definition onframe (canvasEl hidden : bool) (videoEl : option (N * N))
    (context2d : bool) : M unit :=
  session <- gets sessionRef ;;
  if hidden || match session with Some _ => false | None => true end
  then ret tt
  else
    stream <- gets streamRef ;;
    let videoTrack :=
      match stream with
      | Some st => hd_error (getVideoTracks st)
      | None => None
      end in
    match videoTrack with
    | None => ret tt
    | Some track =>
        if negb (enabled track) then ret tt
        else
          match videoEl with
          | None => ret tt
          | Some (videoWidth, videoHeight) =>
              if negb canvasEl || (videoWidth =? 0)%N then ret tt
              else if negb context2d then ret tt
              else
                emit (DrawImage (videoWidth / 4) (videoHeight / 4)) ;;
                emit (CanvasToBlob "image/jpeg" (6 # 10))
          end
    end.

(** The callback given to [canvasEl.toBlob]. [blob] is the base64 text of
    the image when there is one. *)
Definition onblob (sessionPromise : nat) (blob : option jsstring)
    (delivery : result unit) : M unit :=
  match blob with
  | None => ret tt
  | Some base64Data =>
      session <- gets sessionRef ;;
      match session with
      | None => ret tt
      | Some _ =>
          try_catch
            (lift delivery ;;
             emit (SendRealtimeInput sessionPromise
                     {| data := base64Data; mimeType := "image/jpeg" |}))
            (fun err => emit (ConsoleDebug "Send video error:"))
      end
  end.

(** The interruption branch of [onmessage]. *)
Definition interruption (message : LiveServerMessage) : M unit :=
  if interrupted_of message
  then
    sources <- gets sourcesRef ;;
    forEach sources source_stop ;;
    set_sourcesRef [] ;;
    set_nextStartTimeRef (Finite 0)
  else ret tt.

(** [onmessage]. [currentTime] is the reading of the playback context's
    clock. The continuation after [await decodeAudioData(...)] runs before
    any other task, so one call is one step. *)
Definition onmessage (message : LiveServerMessage) (currentTime : Q) : M unit :=
  encoded <- lift (audio_of message) ;;
  match truthy encoded with
  | Some base64EncodedAudioString =>
      audioCtx <- gets audioContextRef ;;
      match audioCtx with
      | None => ret tt
      | Some _ =>
          next <- gets nextStartTimeRef ;;
          set_nextStartTimeRef (Math_max next (Finite currentTime)) ;;
          bytes <- lift (decode base64EncodedAudioString) ;;
          audioBuffer <- lift (decodeAudioData bytes 24000 1) ;;
          id <- new_id ;;
          when <- gets nextStartTimeRef ;;
          startTime <- source_start id audioBuffer when ;;
          let source :=
            {| node_id := id; buffer := audioBuffer;
               start_time := Some startTime |} in
          set_nextStartTimeRef (number_add when (duration audioBuffer)) ;;
          sources <- gets sourcesRef ;;
          set_sourcesRef (sources ++ [source]) ;;
          interruption message
      end
  | None => interruption message
  end.

(** The ['ended'] listener of a source. *)
Definition onended (node : nat) : M unit :=
  sources <- gets sourcesRef ;;
  set_sourcesRef (filter (fun s => negb (node_id s =? node)%nat) sources).

Definition onclose : M unit :=
  setStatus "Disconnected" ;;
  setConnected false.

Definition onerror : M unit :=
  emit (ConsoleError "Live API Error") ;;
  setError (Some "Connection error occurred. Please check your network."%string) ;;
  stopEverything.

(** ** Events *)

Inductive Event : Type :=
| Connect (answer : result MediaStream)
| SessionRejected
| OnOpen (inputAudioContext : AudioContext) (handle : positive)
| AudioProcess (sessionPromise : nat) (inputData : list number)
    (delivery : result unit)
| FrameTick (canvasEl hidden : bool) (videoEl : option (N * N))
    (context2d : bool)
| FrameBlob (sessionPromise : nat) (blob : option jsstring)
    (delivery : result unit)
| Message (message : LiveServerMessage) (currentTime : Q)
| SourceEnded (node : nat)
| OnClose
| OnError
| StopEverything
| ToggleCamera
| SwitchCamera
| SwitchCameraExact (targetMode : FacingMode) (answer : result MediaStream)
    (videoEl : bool)
| SwitchCameraRelaxed (targetMode : FacingMode) (answer : result MediaStream)
    (videoEl : bool)
| SwitchCameraPlayed (playAnswer : result unit).

Definition handler (ev : Event) : M unit :=
  match ev with
  | Connect answer => connect answer
  | SessionRejected => sessionRejected
  | OnOpen ctx handle => onopen ctx handle
  | AudioProcess p inputData delivery => onaudioprocess p inputData delivery
  | FrameTick canvasEl hidden videoEl context2d =>
      onframe canvasEl hidden videoEl context2d
  | FrameBlob p blob delivery => onblob p blob delivery
  | Message message currentTime => onmessage message currentTime
  | SourceEnded node => onended node
  | OnClose => onclose
  | OnError => onerror
  | StopEverything => stopEverything
  | ToggleCamera => toggleCamera
  | SwitchCamera => switchCamera
  | SwitchCameraExact targetMode answer videoEl =>
      switchCamera_exact targetMode answer videoEl
  | SwitchCameraRelaxed targetMode answer videoEl =>
      switchCamera_relaxed targetMode answer videoEl
  | SwitchCameraPlayed playAnswer => switchCamera_played playAnswer
  end.

(** The state after an event; what a handler threw, if anything, is lost. *)
Definition step (w : World) (ev : Event) : World := state_of (handler ev) w.

Definition run (evs : list Event) (w : World) : World := fold_left step evs w.

(** ** Notions used by the statements *)

(** The state [w] after more calls on the platform, everything else kept. *)
Definition add_log (w : World) (es : list Effect) : World :=
  {| connected := connected w; isCameraActive := isCameraActive w;
     facingMode := facingMode w; status := status w; error := error w;
     sessionRef := sessionRef w; audioContextRef := audioContextRef w;
     inputAudioContextRef := inputAudioContextRef w;
     nextStartTimeRef := nextStartTimeRef w; sourcesRef := sourcesRef w;
     streamRef := streamRef w; frameIntervalRef := frameIntervalRef w;
     fresh := fresh w; log := log w ++ es |}.

(** What one slot of the outbound block holds for a sample. *)
Definition sample_int16 (x : number) : Z :=
  toInt16 (number_mul (Math_max (Finite (-1)) (Math_min (Finite 1) x))
             (Finite 32767)).

Definition above_one (x : number) : Prop :=
  match x with
  | Finite q => (1 < q)%Q
  | Infinity negative => negative = false
  | NaN => False
  end.

Definition below_minus_one (x : number) : Prop :=
  match x with
  | Finite q => (q < -1)%Q
  | Infinity negative => negative = true
  | NaN => False
  end.

Definition int16_max : Z := 32767.
Definition int16_min : Z := -32768.

(** What stopping a source asks of the platform. *)
Definition stop_effect (s : AudioBufferSourceNode) : list Effect :=
  match start_time s with
  | Some _ => [SourceStop (node_id s)]
  | None => []
  end.

(** What teardown releases in a state: the tracks of the stream, the frame
    interval, the two contexts, the started sources. *)
Definition releases (w : World) : list Effect :=
  match streamRef w with
  | Some st => map (fun t => TrackStop (track_id t)) (tracks st)
  | None => []
  end
  ++ match frameIntervalRef w with
     | Some handle => [ClearInterval handle]
     | None => []
     end
  ++ match inputAudioContextRef w with
     | Some ctx => [ContextClose (context_id ctx)]
     | None => []
     end
  ++ match audioContextRef w with
     | Some ctx => [ContextClose (context_id ctx)]
     | None => []
     end
  ++ flat_map stop_effect (sourcesRef w).

Definition torn_down (w : World) : World :=
  {| connected := false; isCameraActive := false;
     facingMode := facingMode w; status := "Disconnected"; error := error w;
     sessionRef := None; audioContextRef := None;
     inputAudioContextRef := None;
     nextStartTimeRef := nextStartTimeRef w; sourcesRef := [];
     streamRef := None; frameIntervalRef := None;
     fresh := fresh w; log := log w ++ releases w |}.

(** The camera-enabled flag the frame timer reads: the [enabled] state of
    the stream's first video track. *)
Definition camera_enabled (w : World) : bool :=
  match streamRef w with
  | Some st =>
      match hd_error (getVideoTracks st) with
      | Some track => enabled track
      | None => false
      end
  | None => false
  end.


(** The platform calls made since the state [w]. *)
Definition since (w w' : World) : list Effect :=
  skipn (List.length (log w)) (log w').

(** A granted video request comes with a video track. *)
Definition grants_video (answer : result MediaStream) : Prop :=
  match answer with
  | Ret s => getVideoTracks s <> []
  | Throw _ => True
  end.

(** The video track the two requests of a camera switch yield, if any. *)
Definition granted (exactAnswer relaxedAnswer : result MediaStream)
  : option MediaStreamTrack :=
  match exactAnswer with
  | Ret s => hd_error (getVideoTracks s)
  | Throw _ =>
      match relaxedAnswer with
      | Ret s => hd_error (getVideoTracks s)
      | Throw _ => None
      end
  end.

Definition audio_tracks (s : MediaStream) : list MediaStreamTrack :=
  filter (fun t => negb (is_video t)) (tracks s).

(** The stream once its first video track is replaced by [new]. *)
Definition swapped (st : MediaStream) (new : MediaStreamTrack) : MediaStream :=
  addTrack
    match hd_error (getVideoTracks st) with
    | Some old => removeTrack st old
    | None => st
    end new.

Definition switch_error : string :=
  "Could not switch camera. Ensure your device has multiple cameras.".

(** The steps of a camera switch that no other handler interrupts, from a
    state [w] that has a stream: the call, the answer to the exact request,
    the answer to the relaxed request when the exact one was rejected, and
    the outcome of [play()] when it was called. *)
Definition uninterrupted_switch (w : World)
    (exactAnswer relaxedAnswer : result MediaStream) (videoEl : bool)
    (playAnswer : result unit) : list Event :=
  let target := opposite (facingMode w) in
  [SwitchCamera; SwitchCameraExact target exactAnswer videoEl]
  ++ match exactAnswer with
     | Ret _ => []
     | Throw _ => [SwitchCameraRelaxed target relaxedAnswer videoEl]
     end
  ++ match granted exactAnswer relaxedAnswer with
     | Some _ => if videoEl then [SwitchCameraPlayed playAnswer] else []
     | None => []
     end.

(** The calls such a switch makes on the platform, in order, from a state
    whose stream is [st]. *)
Definition switch_calls (st : MediaStream) (target : FacingMode)
    (exactAnswer relaxedAnswer : result MediaStream) (videoEl : bool)
    (playAnswer : result unit) : list Effect :=
  [GetUserMedia false true target]
  ++ match exactAnswer with
     | Ret _ => []
     | Throw _ =>
         [ConsoleLog "Exact facing mode failed, falling back to ideal";
          GetUserMedia false false target]
     end
  ++ match granted exactAnswer relaxedAnswer with
     | Some _ =>
         match hd_error (getVideoTracks st) with
         | Some old => [TrackStop (track_id old)]
         | None => []
         end
         ++ (if videoEl
             then VideoPlay
                  :: match playAnswer with
                     | Ret _ => []
                     | Throw _ =>
                         [ConsoleError "Error playing video after switch:"]
                     end
             else [])
     | None => [ConsoleError "Error switching camera:"]
     end.

(** ** The playback schedule *)

(** [Math.max] of two finite numbers. *)
Definition later (a b : Q) : Q := if Qle_bool a b then b else a.

(** The time [onmessage] asks a new source to start at: the larger of the
    cursor and the clock reading. *)
Definition start_of (w : World) (currentTime : Q) : number :=
  Math_max (nextStartTimeRef w) (Finite currentTime).

(** The end the code computes for a source: its start plus its duration,
    as a double. *)
Definition computed_end (when : Q) (audioBuffer : AudioBuffer) : number :=
  number_add (Finite when) (duration audioBuffer).

(** [a] has finished playing when [b] starts. A source that was never
    started occupies no time. *)
Definition before (a b : AudioBufferSourceNode) : Prop :=
  match start_time a, start_time b with
  | Some ta, Some tb => (ta + seconds (buffer a) <= tb)%Q
  | _, _ => True
  end.

(** [b] starts no earlier than the end computed for [a]. *)
Definition in_order (a b : AudioBufferSourceNode) : Prop :=
  match start_time a, start_time b with
  | Some ta, Some tb =>
      number_leb (computed_end ta (buffer a)) (Finite tb) = true
  | _, _ => True
  end.

(** The end computed for [a] is not after the cursor [c]. *)
Definition ends_by (c : number) (a : AudioBufferSourceNode) : Prop :=
  match start_time a with
  | Some ta => number_leb (computed_end ta (buffer a)) c = true
  | None => True
  end.

(** Every source starts no earlier than the end computed for each source
    before it in the list. *)
Fixpoint in_sequence (l : list AudioBufferSourceNode) : Prop :=
  match l with
  | [] => True
  | a :: r => Forall (in_order a) r /\ in_sequence r
  end.

(** A cursor the code can hold: a double or an infinity. *)
Definition cursor_ok (c : number) : Prop :=
  match c with
  | Finite q => binary64 q = Finite q
  | Infinity _ => True
  | NaN => False
  end.

(** The sources of the playback set are in order of their computed ends,
    which the schedule cursor is not before. *)
Definition schedule_ok (w : World) : Prop :=
  cursor_ok (nextStartTimeRef w)
  /\ in_sequence (sourcesRef w)
  /\ Forall (ends_by (nextStartTimeRef w)) (sourcesRef w).

Definition started (s : AudioBufferSourceNode) : Prop := start_time s <> None.

(** The state once a decoded chunk is started at [when]. *)
Definition scheduled (w : World) (when : Q) (audioBuffer : AudioBuffer)
  : World :=
  {| connected := connected w; isCameraActive := isCameraActive w;
     facingMode := facingMode w; status := status w; error := error w;
     sessionRef := sessionRef w; audioContextRef := audioContextRef w;
     inputAudioContextRef := inputAudioContextRef w;
     nextStartTimeRef := computed_end when audioBuffer;
     sourcesRef :=
       sourcesRef w
       ++ [{| node_id := fresh w; buffer := audioBuffer;
              start_time := Some when |}];
     streamRef := streamRef w; frameIntervalRef := frameIntervalRef w;
     fresh := S (fresh w);
     log := log w ++ [SourceStart (fresh w) when (duration audioBuffer)] |}.

(** The state once an interruption is served. *)
Definition interrupted_state (w : World) : World :=
  {| connected := connected w; isCameraActive := isCameraActive w;
     facingMode := facingMode w; status := status w; error := error w;
     sessionRef := sessionRef w; audioContextRef := audioContextRef w;
     inputAudioContextRef := inputAudioContextRef w;
     nextStartTimeRef := Finite 0; sourcesRef := [];
     streamRef := streamRef w; frameIntervalRef := frameIntervalRef w;
     fresh := fresh w;
     log := log w ++ flat_map stop_effect (sourcesRef w) |}.

(** The state with the cursor moved. *)
Definition with_cursor (w : World) (c : number) : World :=
  {| connected := connected w; isCameraActive := isCameraActive w;
     facingMode := facingMode w; status := status w; error := error w;
     sessionRef := sessionRef w; audioContextRef := audioContextRef w;
     inputAudioContextRef := inputAudioContextRef w;
     nextStartTimeRef := c; sourcesRef := sourcesRef w;
     streamRef := streamRef w; frameIntervalRef := frameIntervalRef w;
     fresh := fresh w; log := log w |}.

(** The state once [start] has refused the time: the cursor moved, a source
    made and dropped. *)
Definition not_started (w : World) (c : number) : World :=
  {| connected := connected w; isCameraActive := isCameraActive w;
     facingMode := facingMode w; status := status w; error := error w;
     sessionRef := sessionRef w; audioContextRef := audioContextRef w;
     inputAudioContextRef := inputAudioContextRef w;
     nextStartTimeRef := c; sourcesRef := sourcesRef w;
     streamRef := streamRef w; frameIntervalRef := frameIntervalRef w;
     fresh := S (fresh w); log := log w |}.

(** What decoding the audio of a message gives, when it carries audio. *)
Definition chunk_of (message : LiveServerMessage) : option (result AudioBuffer) :=
  match audio_of message with
  | Ret encoded =>
      match truthy encoded with
      | Some base64 =>
          Some (rbind (decode base64)
                  (fun bytes => decodeAudioData bytes 24000 1))
      | None => None
      end
  | Throw _ => None
  end.

(** The message can be read and carries no audio. *)
Definition no_audio (message : LiveServerMessage) : Prop :=
  exists encoded, audio_of message = Ret encoded /\ truthy encoded = None.

(** The time [start] accepts for a chunk that arrives at [currentTime]. *)
Definition starts_at (w : World) (currentTime when : Q) : Prop :=
  start_of w currentTime = Finite when /\ (0 <= when)%Q.

(** The events after which the cursor is set back to zero. *)
Definition is_interruption (ev : Event) : bool :=
  match ev with
  | Message message _ => interrupted_of message
  | _ => false
  end.

Definition is_connect (ev : Event) : bool :=
  match ev with
  | Connect _ => true
  | _ => false
  end.

(** A step that leaves the cursor alone and at most removes sources from the
    playback set. *)
Definition quiet_step (w w' : World) : Prop :=
  nextStartTimeRef w' = nextStartTimeRef w
  /\ exists f, sourcesRef w' = filter f (sourcesRef w).

Definition quiet {A} (c : M A) : Prop := forall w, quiet_step w (fst (c w)).

Inductive reachable : World -> Prop :=
| reachable_initial : reachable initial
| reachable_step w ev : reachable w -> reachable (step w ev).

(** The clock reading that comes with an event is a double. *)
Definition clock_ok (ev : Event) : Prop :=
  match ev with
  | Message _ currentTime => binary64 currentTime = Finite currentTime
  | _ => True
  end.

(** ** Scenarios *)

Definition microphone : MediaStreamTrack :=
  {| track_id := 100; kind := audio; enabled := true |}.

Definition front_camera : MediaStreamTrack :=
  {| track_id := 101; kind := video; enabled := true |}.

Definition back_camera : MediaStreamTrack :=
  {| track_id := 102; kind := video; enabled := true |}.

Definition capture : MediaStream := {| tracks := [microphone; front_camera] |}.

(** Two frames of 16-bit audio, as the service sends them. *)
Definition two_frames : jsstring :=
  Eval cbv in
    match encode [x00; x40; x00; xc0] with
    | Ret s => s
    | Throw _ => []
    end.

Definition audio_message (payload : jsstring) (flag : bool) : LiveServerMessage :=
  {| serverContent :=
       Some {| modelTurn :=
                 Some {| parts :=
                           Some
                             [{| inlineData :=
                                   Some {| data := payload;
                                           mimeType := "audio/pcm;rate=24000" |} |}] |};
               interrupted := flag |} |}.

Definition interruption_message : LiveServerMessage :=
  {| serverContent := Some {| modelTurn := None; interrupted := true |} |}.

(** An interruption whose model turn has no parts. *)
Definition turn_without_parts : LiveServerMessage :=
  {| serverContent :=
       Some {| modelTurn := Some {| parts := None |}; interrupted := true |} |}.

(** The session is live: capture granted, transport opened. *)
Definition go_live : list Event :=
  [Connect (Ret capture);
   OnOpen {| context_id := 0; context_rate := 16000 |} 1%positive].

(** A live session with one chunk scheduled. *)
Definition live_playing : World :=
  Eval vm_compute in
    run (go_live ++ [Message (audio_message two_frames false) 0]) initial.

(** The session was live with a chunk scheduled, then the user ended it. *)
Definition ended_session : World :=
  Eval vm_compute in step live_playing StopEverything.

(** A payload of one byte: no 16-bit sample can be read from it. *)
Definition one_byte : jsstring :=
  Eval cbv in
    match encode [x01] with
    | Ret s => s
    | Throw _ => []
    end.

(** [onmessage] gets as far as its interruption branch: the message can be
    read and carries no audio, or the playback context exists, the audio
    decodes and [start] accepts the time. *)
Definition reaches_interruption (w : World) (message : LiveServerMessage)
    (currentTime : Q) : Prop :=
  no_audio message
  \/ (audioContextRef w <> None
      /\ (exists audioBuffer, chunk_of message = Some (Ret audioBuffer))
      /\ exists when, starts_at w currentTime when).

(** The chunks whose playback was requested, in order: start time and
    duration. *)
Fixpoint chunks (l : list Effect) : list (Q * number) :=
  match l with
  | [] => []
  | SourceStart _ when d :: r => (when, d) :: chunks r
  | _ :: r => chunks r
  end.

(** No two sources of the list overlap in time. *)
Definition no_overlap (l : list AudioBufferSourceNode) : Prop :=
  forall i j a b,
    i <> j -> nth_error l i = Some a -> nth_error l j = Some b ->
    before a b \/ before b a.

(** No two sources of the list overlap, by the ends the code computed. *)
Definition in_turn (l : list AudioBufferSourceNode) : Prop :=
  forall i j a b,
    i <> j -> nth_error l i = Some a -> nth_error l j = Some b ->
    in_order a b \/ in_order b a.

(** What [two_frames] decodes to. *)
Definition two_frames_buffer : AudioBuffer :=
  {| numberOfChannels := 1; length := 2; sampleRate := 24000;
     channelData := [[16384 # 32768; -16384 # 32768]%Q] |}.

(** The session goes live and receives two chunks, the first one with the
    interruption flag, both at clock time [0]. *)
Definition interrupted_then_next : World :=
  Eval vm_compute in
    run (go_live ++ [Message (audio_message two_frames true) 0;
                     Message (audio_message two_frames false) 0]) initial.

(** The session goes live and receives two chunks without interruption, the
    second one second after the first. *)
Definition late_second_chunk : World :=
  Eval vm_compute in
    run (go_live ++ [Message (audio_message two_frames false) 0;
                     Message (audio_message two_frames false) 1]) initial.

(** A clock reading: the double nearest to [0.11]. *)
Definition clock_reading : Q := 7926335344172073 # 72057594037927936.

(** 375 frames of silence, a 64th of a second at 24000 frames a second. *)
Definition frames_375 : jsstring :=
  Eval vm_compute in
    match encode (repeat x00 750) with
    | Ret s => s
    | Throw _ => []
    end.

(** The session goes live and receives two chunks at the same clock
    reading, without interruption. *)
Definition rounded_chunks : World :=
  Eval vm_compute in
    run (go_live ++ [Message (audio_message frames_375 false) clock_reading;
                     Message (audio_message two_frames false) clock_reading])
      initial.

(** A chunk is scheduled, the transport closes, the user connects again and
    a chunk of the new session arrives. *)
Definition second_session : World :=
  Eval vm_compute in
    run (go_live ++ [Message (audio_message two_frames false) 0;
                     OnClose; Connect (Ret capture);
                     Message (audio_message two_frames false) 0]) initial.

(** The platform refuses the exact constraint and grants the relaxed one. *)
Definition overconstrained : result MediaStream :=
  Throw (DOMException "OverconstrainedError").

Definition rear_capture : result MediaStream :=
  Ret {| tracks := [back_camera] |}.

(** In a live session the user asks for the other camera and ends the
    session before the platform grants it. *)
Definition switch_then_stop : list Event :=
  [SwitchCamera; StopEverything; SwitchCameraExact environment rear_capture true].

(** ** Further notions *)

(** The range of the slots of an outbound block. *)
Definition in_scale (v : Z) : Prop := -32767 <= v <= 32767.

(** The range of a signed 16-bit slot. *)
Definition in_int16 (v : Z) : Prop := -32768 <= v <= 32767.


Definition connection_error : string :=
  "Connection error occurred. Please check your network.".

Definition connect_failed : string := "Failed to connect to Gemini Live API.".

(** The calls a frame tick may make. *)
Definition is_canvas_call (e : Effect) : Prop :=
  match e with
  | DrawImage _ _ | CanvasToBlob _ _ => True
  | _ => False
  end.

(** What [toggleCamera] does to one track. *)
Definition with_video_enabled (newStatus : bool) (t : MediaStreamTrack)
  : MediaStreamTrack :=
  if is_video t
  then {| track_id := track_id t; kind := kind t; enabled := newStatus |}
  else t.

(** Every call other than a send to the session. *)
Definition not_send (e : Effect) : Prop :=
  match e with
  | SendRealtimeInput _ _ => False
  | _ => True
  end.

(** From [w] to [w'] the log only grew, by calls that satisfy [P], and no
    object identity was given back. *)
Definition appends (P : Effect -> Prop) (w w' : World) : Prop :=
  (fresh w <= fresh w')%nat
  /\ exists es, log w' = log w ++ es /\ Forall P es.

Definition only_calls {A} (P : Effect -> Prop) (c : M A) : Prop :=
  forall w, appends P w (fst (c w)).

Definition any_call (e : Effect) : Prop := True.

(** The events whose handler reaches [sendRealtimeInput] with a platform
    that accepts the send. *)
Definition may_send (ev : Event) : bool :=
  match ev with
  | AudioProcess _ _ (Ret _) => true
  | FrameBlob _ (Some _) (Ret _) => true
  | _ => false
  end.

(** The identities of the sources of the playback set were all handed out
    already. *)
Definition ids_below (w : World) : Prop :=
  Forall (fun s => (node_id s < fresh w)%nat) (sourcesRef w).

(** ** Strings of the image components

    What [blobToBase64], the [InspirationAnalyzer] component and
    [redesignImage] do with strings: data URLs, [split] and [trim]. *)

(** The code units of a string of the source. *)
Definition js (s : string) : jsstring :=
  map Ascii.N_of_ascii (list_ascii_of_string s).

Definition comma : N := 44%N.

(** [s.split(sep)] for a separator of one code unit: the first piece and the
    pieces after it. The empty string has one piece, the empty one. *)
Fixpoint String_split (sep : N) (s : jsstring) : jsstring * list jsstring :=
  match s with
  | [] => ([], [])
  | c :: r =>
      let (piece, pieces) := String_split sep r in
      if (c =? sep)%N then ([], piece :: pieces) else (c :: piece, pieces)
  end.

(** [s.split(',')[1]]; [None] is [undefined]. *)
Definition after_comma (s : jsstring) : option jsstring :=
  hd_error (snd (String_split comma s)).

(** [blobToBase64(blob)]: what the promise resolves with when the reader's
    load has ended with [result], the data URL of the blob. *)
Definition blobToBase64 (result : jsstring) : option jsstring :=
  after_comma result.

(** White space and line terminators of ECMAScript, which [trim] strips. *)
Definition is_white_space (c : N) : bool :=
  ((c =? 9) || (c =? 10) || (c =? 11) || (c =? 12) || (c =? 13) || (c =? 32)
   || (c =? 160) || (c =? 5760) || ((8192 <=? c) && (c <=? 8202))
   || (c =? 8232) || (c =? 8233) || (c =? 8239) || (c =? 8287)
   || (c =? 12288) || (c =? 65279))%N.

Fixpoint trimStart (s : jsstring) : jsstring :=
  match s with
  | [] => []
  | c :: r => if is_white_space c then trimStart r else s
  end.

(** [s.trim()] *)
Definition trim (s : jsstring) : jsstring :=
  rev (trimStart (rev (trimStart s))).

(** What a promise of the service settles to: a value, a rejection with an
    [Error] (of which the handlers read the message), or a rejection with
    anything else. *)
Inductive Settled (A : Type) : Type :=
| Fulfilled (a : A)
| RejectedError (message : string)
| Rejected.

Arguments Fulfilled {A} a.
Arguments RejectedError {A} message.
Arguments Rejected {A}.

(** ** [redesignImage] (geminiService)

    The response is declared by the service's library; every field the
    function reads is optional there. *)

Module Gemini.

Record Blob : Type := {
  data : option jsstring;
  mimeType : option jsstring
}.
Record Part : Type := { inlineData : option Blob; text : option jsstring }.
Record Content : Type := { parts : option (list Part) }.
Record Candidate : Type := { content : option Content }.
Record GenerateContentResponse : Type := {
  candidates : option (list Candidate)
}.

(** [response.candidates?.[0]?.content?.parts] *)
Definition parts_of (response : GenerateContentResponse)
  : option (list Part) :=
  match candidates response with
  | Some (candidate :: _) =>
      match content candidate with
      | Some c => parts c
      | None => None
      end
  | _ => None
  end.

(** A value inside a template literal: [undefined] is written out. *)
Definition interpolated (v : option jsstring) : jsstring :=
  match v with
  | Some s => s
  | None => js "undefined"
  end.

(** [v || d] on an optional string. *)
Definition or_else (v : option jsstring) (d : jsstring) : jsstring :=
  match v with
  | Some (c :: r) => c :: r
  | _ => d
  end.

Definition data_url (blob : Blob) : jsstring :=
  js "data:" ++ or_else (mimeType blob) (js "image/jpeg")
    ++ js ";base64," ++ interpolated (data blob).

(** The loop over the parts: the data URL of the first part with inline
    data. *)
Fixpoint first_image (l : list Part) : option jsstring :=
  match l with
  | [] => None
  | part :: rest =>
      match inlineData part with
      | Some blob => Some (data_url blob)
      | None => first_image rest
      end
  end.

Definition no_image : string :=
  "Failed to generate redesigned image. The AI did not return an image.".

(** [redesignImage], from the answer of [generateContent] on. *)
Definition redesignImage (response : Settled GenerateContentResponse)
  : Settled jsstring :=
  match response with
  | Fulfilled r =>
      match parts_of r with
      | Some l =>
          match first_image l with
          | Some url => Fulfilled url
          | None => RejectedError no_image
          end
      | None => RejectedError no_image
      end
  | RejectedError m => RejectedError m
  | Rejected => Rejected
  end.

End Gemini.

(** ** The [InspirationAnalyzer] component

    The state is the component's [useState] cells, with the log of the calls
    made on the platform and on the service. A handler is run on the state of
    the render it was created for; its setters take effect in order. *)

Module Inspiration.

Record File : Type := { size : N; type : jsstring }.

Record ImageAnalysis : Type := {
  architecturalStyle : jsstring;
  keyFeatures : list jsstring;
  colorPalette : list jsstring;
  potentialMaterials : list jsstring
}.

Inductive Call : Type :=
| ReadAsDataURL (file : File)
| CreateObjectURL (file : File)
| AnalyzeImage (base64Image mimeType : jsstring)
| RedesignImage (base64Image mimeType prompt : jsstring).

Record State : Type := {
  imageFile : option File;
  imageBase64 : option jsstring;      (* [None]: undefined *)
  previewUrl : string;
  analysis : option ImageAnalysis;
  loading : bool;
  error : option string;
  showRedesign : bool;
  redesignPrompt : jsstring;
  isRedesigning : bool;
  redesignedImageUrl : option jsstring;
  redesignError : option string;
  calls : list Call
}.

Definition initial : State :=
  {| imageFile := None; imageBase64 := Some []; previewUrl := "";
     analysis := None; loading := false; error := None;
     showRedesign := false; redesignPrompt := []; isRedesigning := false;
     redesignedImageUrl := None; redesignError := None; calls := [] |}.

Definition setImageFile (v : option File) (s : State) : State :=
  {| imageFile := v; imageBase64 := imageBase64 s;
     previewUrl := previewUrl s; analysis := analysis s;
     loading := loading s; error := error s;
     showRedesign := showRedesign s; redesignPrompt := redesignPrompt s;
     isRedesigning := isRedesigning s;
     redesignedImageUrl := redesignedImageUrl s;
     redesignError := redesignError s; calls := calls s |}.

Definition setImageBase64 (v : option jsstring) (s : State) : State :=
  {| imageFile := imageFile s; imageBase64 := v;
     previewUrl := previewUrl s; analysis := analysis s;
     loading := loading s; error := error s;
     showRedesign := showRedesign s; redesignPrompt := redesignPrompt s;
     isRedesigning := isRedesigning s;
     redesignedImageUrl := redesignedImageUrl s;
     redesignError := redesignError s; calls := calls s |}.

Definition setPreviewUrl (v : string) (s : State) : State :=
  {| imageFile := imageFile s; imageBase64 := imageBase64 s;
     previewUrl := v; analysis := analysis s;
     loading := loading s; error := error s;
     showRedesign := showRedesign s; redesignPrompt := redesignPrompt s;
     isRedesigning := isRedesigning s;
     redesignedImageUrl := redesignedImageUrl s;
     redesignError := redesignError s; calls := calls s |}.

Definition setAnalysis (v : option ImageAnalysis) (s : State) : State :=
  {| imageFile := imageFile s; imageBase64 := imageBase64 s;
     previewUrl := previewUrl s; analysis := v;
     loading := loading s; error := error s;
     showRedesign := showRedesign s; redesignPrompt := redesignPrompt s;
     isRedesigning := isRedesigning s;
     redesignedImageUrl := redesignedImageUrl s;
     redesignError := redesignError s; calls := calls s |}.

Definition setLoading (v : bool) (s : State) : State :=
  {| imageFile := imageFile s; imageBase64 := imageBase64 s;
     previewUrl := previewUrl s; analysis := analysis s;
     loading := v; error := error s;
     showRedesign := showRedesign s; redesignPrompt := redesignPrompt s;
     isRedesigning := isRedesigning s;
     redesignedImageUrl := redesignedImageUrl s;
     redesignError := redesignError s; calls := calls s |}.

Definition setError (v : option string) (s : State) : State :=
  {| imageFile := imageFile s; imageBase64 := imageBase64 s;
     previewUrl := previewUrl s; analysis := analysis s;
     loading := loading s; error := v;
     showRedesign := showRedesign s; redesignPrompt := redesignPrompt s;
     isRedesigning := isRedesigning s;
     redesignedImageUrl := redesignedImageUrl s;
     redesignError := redesignError s; calls := calls s |}.

Definition setShowRedesign (v : bool) (s : State) : State :=
  {| imageFile := imageFile s; imageBase64 := imageBase64 s;
     previewUrl := previewUrl s; analysis := analysis s;
     loading := loading s; error := error s;
     showRedesign := v; redesignPrompt := redesignPrompt s;
     isRedesigning := isRedesigning s;
     redesignedImageUrl := redesignedImageUrl s;
     redesignError := redesignError s; calls := calls s |}.

Definition setRedesignPrompt (v : jsstring) (s : State) : State :=
  {| imageFile := imageFile s; imageBase64 := imageBase64 s;
     previewUrl := previewUrl s; analysis := analysis s;
     loading := loading s; error := error s;
     showRedesign := showRedesign s; redesignPrompt := v;
     isRedesigning := isRedesigning s;
     redesignedImageUrl := redesignedImageUrl s;
     redesignError := redesignError s; calls := calls s |}.

Definition setIsRedesigning (v : bool) (s : State) : State :=
  {| imageFile := imageFile s; imageBase64 := imageBase64 s;
     previewUrl := previewUrl s; analysis := analysis s;
     loading := loading s; error := error s;
     showRedesign := showRedesign s; redesignPrompt := redesignPrompt s;
     isRedesigning := v;
     redesignedImageUrl := redesignedImageUrl s;
     redesignError := redesignError s; calls := calls s |}.

Definition setRedesignedImageUrl (v : option jsstring) (s : State) : State :=
  {| imageFile := imageFile s; imageBase64 := imageBase64 s;
     previewUrl := previewUrl s; analysis := analysis s;
     loading := loading s; error := error s;
     showRedesign := showRedesign s; redesignPrompt := redesignPrompt s;
     isRedesigning := isRedesigning s;
     redesignedImageUrl := v;
     redesignError := redesignError s; calls := calls s |}.

Definition setRedesignError (v : option string) (s : State) : State :=
  {| imageFile := imageFile s; imageBase64 := imageBase64 s;
     previewUrl := previewUrl s; analysis := analysis s;
     loading := loading s; error := error s;
     showRedesign := showRedesign s; redesignPrompt := redesignPrompt s;
     isRedesigning := isRedesigning s;
     redesignedImageUrl := redesignedImageUrl s;
     redesignError := v; calls := calls s |}.

(** A call on the platform or on the service. *)
Definition call (c : Call) (s : State) : State :=
  {| imageFile := imageFile s; imageBase64 := imageBase64 s;
     previewUrl := previewUrl s; analysis := analysis s;
     loading := loading s; error := error s;
     showRedesign := showRedesign s; redesignPrompt := redesignPrompt s;
     isRedesigning := isRedesigning s;
     redesignedImageUrl := redesignedImageUrl s;
     redesignError := redesignError s; calls := calls s ++ [c] |}.

(** One statement after the other. *)
Definition andThen (f g : State -> State) : State -> State :=
  fun s => g (f s).

#[local] Infix ";;;" := andThen (at level 61, right associativity).

(** The size above which a file is refused, in bytes. *)
Definition size_limit : N := (1000 * 1024 * 1024)%N.

(** [handleFileChange]; [files] is [e.target.files]. *)
Definition handleFileChange (files : option (list File)) : State -> State :=
  match files with
  | Some (file :: _) =>
      if (size_limit <? size file)%N
      then setError (Some "Image size should not exceed 1000MB."%string)
      else
        setError None ;;;
        setImageFile (Some file) ;;;
        setAnalysis None ;;;
        setRedesignedImageUrl None ;;;
        setShowRedesign false ;;;
        setRedesignPrompt [] ;;;
        call (ReadAsDataURL file)
  | _ => fun s => s
  end.

(** The [onloadend] callback of the reader [handleFileChange] starts for
    [file]. [result] is [reader.result], null after a failed read: [split]
    on it then throws out of the callback, before any setter. [url] is what
    [URL.createObjectURL] returns. *)
Definition onloadend (file : File) (result : option jsstring) (url : string)
  : State -> State :=
  match result with
  | None => fun s => s
  | Some r =>
      setImageBase64 (after_comma r) ;;;
      call (CreateObjectURL file) ;;;
      setPreviewUrl url
  end.

(** [handleAnalyze]; [answer] is what [analyzeImage] settles to. *)
Definition handleAnalyze (answer : Settled ImageAnalysis) (s : State)
  : State :=
  match truthy (imageBase64 s) with
  | None => setError (Some "Please select an image to analyze."%string) s
  | Some base64 =>
      (setLoading true ;;;
       setError None ;;;
       setAnalysis None ;;;
       setRedesignedImageUrl None ;;;
       setShowRedesign false ;;;
       match imageFile s with
       | Some file =>
           call (AnalyzeImage base64 (type file)) ;;;
           match answer with
           | Fulfilled result => setAnalysis (Some result)
           | RejectedError message => setError (Some message)
           | Rejected => setError (Some "An unknown error occurred."%string)
           end
       | None => fun s => s
       end ;;;
       setLoading false) s
  end.

(** [handleRedesign]; [answer] is what [redesignImage] settles to. *)
Definition handleRedesign (answer : Settled jsstring) (s : State) : State :=
  match truthy (imageBase64 s), trim (redesignPrompt s) with
  | Some base64, _ :: _ =>
      (setIsRedesigning true ;;;
       setRedesignError None ;;;
       setRedesignedImageUrl None ;;;
       call (RedesignImage base64
               (match imageFile s with
                | Some file =>
                    match type file with
                    | [] => js "image/jpeg"
                    | mimeType => mimeType
                    end
                | None => js "image/jpeg"
                end)
               (redesignPrompt s)) ;;;
       match answer with
       | Fulfilled resultUrl => setRedesignedImageUrl (Some resultUrl)
       | RejectedError message => setRedesignError (Some message)
       | Rejected =>
           setRedesignError
             (Some "An unknown error occurred during redesign."%string)
       end ;;;
       setIsRedesigning false) s
  | _, _ =>
      setRedesignError
        (Some "Please provide instructions for the redesign."%string) s
  end.

(** What happens to the component. The load of a reader can only end for a
    file whose read was started. *)
Inductive Event : Type :=
| FileChange (files : option (list File))
| LoadEnd (file : File) (result : option jsstring) (url : string)
| Analyze (answer : Settled ImageAnalysis)
| Redesign (answer : Settled jsstring)
| ShowRedesign (shown : bool)
| PromptChange (value : jsstring).

Definition step (s : State) (ev : Event) : State :=
  match ev with
  | FileChange files => handleFileChange files s
  | LoadEnd file result url => onloadend file result url s
  | Analyze answer => handleAnalyze answer s
  | Redesign answer => handleRedesign answer s
  | ShowRedesign shown => setShowRedesign shown s
  | PromptChange value => setRedesignPrompt value s
  end.

Definition run (evs : list Event) (s : State) : State := fold_left step evs s.

Definition possible (s : State) (ev : Event) : Prop :=
  match ev with
  | LoadEnd file _ _ => In (ReadAsDataURL file) (calls s)
  | _ => True
  end.

Inductive reachable : State -> Prop :=
| reachable_initial : reachable initial
| reachable_step s ev :
    reachable s -> possible s ev -> reachable (step s ev).

End Inspiration.

(** ** Notions used for the image components *)

Definition comma_free (s : jsstring) : bool :=
  forallb (fun c => negb (c =? comma)%N) s.

Definition blank (s : jsstring) : bool := forallb is_white_space s.

Definition no_inline_data (part : Gemini.Part) : Prop :=
  Gemini.inlineData part = None.

(** A small file, and the state after it was chosen and read. *)
Definition photo : Inspiration.File :=
  {| Inspiration.size := 3; Inspiration.type := js "image/png" |}.

Definition photo_url : jsstring := js "data:image/png;base64,AQID".

Definition photo_loaded : Inspiration.State :=
  Eval vm_compute in
    Inspiration.run
      [Inspiration.FileChange (Some [photo]);
       Inspiration.LoadEnd photo (Some photo_url) "blob:1"]
      Inspiration.initial.

(* ================================================================ *)
(** * Properties *)

Example encode_Man :
  encode ["M"%byte; "a"%byte; "n"%byte] = Ret [84; 87; 70; 117]%N.
Proof. reflexivity. Qed.

Example encode_Ma :
  encode ["M"%byte; "a"%byte] = Ret [84; 87; 69; 61]%N.
Proof. reflexivity. Qed.

Example decode_Ma :
  decode [84; 87; 69; 61]%N = Ret ["M"%byte; "a"%byte].
Proof. reflexivity. Qed.

(** ** Base64 round trip *)

Section ListBy3.
Variable A : Type.
Variable P : list A -> Prop.
Hypothesis P0 : P [].
Hypothesis P1 : forall a, P [a].
Hypothesis P2 : forall a b, P [a; b].
Hypothesis P3 : forall a b c r, P r -> P (a :: b :: c :: r).

Lemma list_ind_by3 : forall l, P l.
Proof.
  fix IH 1. intros [|a [|b [|c r]]].
  - exact P0.
  - apply P1.
  - apply P2.
  - apply P3, IH.
Qed.
End ListBy3.

Ltac euclid := zify; Z.to_euclidean_division_equations; lia.

Ltac case_tests :=
  repeat (match goal with
          | |- context [N.ltb ?a ?b] => destruct (N.ltb_spec a b)
          | |- context [N.leb ?a ?b] => destruct (N.leb_spec a b)
          | |- context [N.eqb ?a ?b] => destruct (N.eqb_spec a b)
          end; cbv beta iota).

Ltac list_eq :=
  repeat match goal with |- _ :: _ = _ :: _ => f_equal end.

Module Base64Facts.
Import Base64.

Lemma value_letter i : sextet i -> value (letter i) = Some i.
Proof.
  unfold sextet, value, letter; intros Hi.
  case_tests; cbn [andb]; try lia; f_equal; lia.
Qed.

Lemma letter_range i :
  sextet i ->
  (65 <= letter i <= 90 \/ 97 <= letter i <= 122 \/ 48 <= letter i <= 57
   \/ letter i = 43 \/ letter i = 47)%N.
Proof.
  unfold sextet, letter; intros Hi. case_tests; lia.
Qed.

Lemma letter_not_pad i : sextet i -> letter i <> pad.
Proof.
  intros Hi. pose proof (letter_range Hi). unfold pad. lia.
Qed.

Lemma letter_not_whitespace i :
  sextet i -> is_ascii_whitespace (letter i) = false.
Proof.
  intros Hi. pose proof (letter_range Hi) as Hr.
  unfold is_ascii_whitespace. revert Hr. generalize (letter i) as c.
  intros c Hr. case_tests; cbn [orb]; try reflexivity; lia.
Qed.

Lemma to_sextets_sextet l : Forall octet l -> Forall sextet (to_sextets l).
Proof.
  unfold octet, sextet.
  induction l as [| a | a b | a b c r IH] using list_ind_by3; intros H.
  - constructor.
  - inversion_clear H as [|? ? Ha _]. simpl.
    repeat constructor; euclid.
  - inversion_clear H as [|? ? Ha H']; inversion_clear H' as [|? ? Hb _].
    simpl. repeat constructor; euclid.
  - inversion_clear H as [|? ? Ha H']; inversion_clear H' as [|? ? Hb H''];
      inversion_clear H'' as [|? ? Hc Hr].
    simpl. repeat (constructor; [euclid|]). auto.
Qed.

Lemma of_to_sextets l : Forall octet l -> of_sextets (to_sextets l) = l.
Proof.
  unfold octet.
  induction l as [| a | a b | a b c r IH] using list_ind_by3; intros H.
  - reflexivity.
  - inversion_clear H as [|? ? Ha _]. simpl. f_equal. euclid.
  - inversion_clear H as [|? ? Ha H']; inversion_clear H' as [|? ? Hb _].
    simpl. list_eq; euclid.
  - inversion_clear H as [|? ? Ha H']; inversion_clear H' as [|? ? Hb H''];
      inversion_clear H'' as [|? ? Hc Hr].
    simpl. rewrite (IH Hr). list_eq; euclid.
Qed.

Lemma padding_cons3 (a b c : N) r : padding (a :: b :: c :: r) = padding r.
Proof.
  unfold padding. simpl List.length.
  replace (N.of_nat (S (S (S (List.length r)))))
    with (N.of_nat (List.length r) + 1 * 3)%N by lia.
  rewrite N.Div0.mod_add. reflexivity.
Qed.

(** The shape of an encoding: complete groups of four, then nothing, or two
    sextets and two pads, or three sextets and one pad. *)
Lemma encoding_shape l :
  exists k : nat,
    (List.length (to_sextets l) = 4 * k /\ padding l = [])%nat
    \/ (List.length (to_sextets l) = 4 * k + 2 /\ padding l = [pad; pad])%nat
    \/ (List.length (to_sextets l) = 4 * k + 3 /\ padding l = [pad])%nat.
Proof.
  induction l as [| a | a b | a b c r IH] using list_ind_by3.
  - exists O. left. split; reflexivity.
  - exists O. right; left. split; reflexivity.
  - exists O. right; right. split; reflexivity.
  - destruct IH as [k IH]. exists (S k). rewrite padding_cons3.
    change (to_sextets (a :: b :: c :: r))
      with ((a / 4 :: a mod 4 * 16 + b / 16 :: b mod 16 * 4 + c / 64
               :: c mod 64 :: to_sextets r)%N).
    simpl List.length. intuition lia.
Qed.

Lemma drop_last_pad_keep l : Forall (fun c => c <> pad) l -> drop_last_pad l = l.
Proof.
  intros H. unfold drop_last_pad.
  destruct (rev l) as [|c r] eqn:E; [reflexivity|].
  assert (Hc : In c l) by (apply in_rev; rewrite E; left; reflexivity).
  rewrite Forall_forall in H. apply H in Hc.
  destruct (N.eqb_spec c pad); [contradiction | reflexivity].
Qed.

Lemma drop_last_pad_snoc l : drop_last_pad (l ++ [pad]) = l.
Proof.
  unfold drop_last_pad. rewrite rev_app_distr. cbn [rev app].
  rewrite N.eqb_refl. apply rev_involutive.
Qed.

Lemma padding_cases l :
  padding l = [] \/ padding l = [pad] \/ padding l = [pad; pad].
Proof.
  unfold padding.
  destruct (N.of_nat (List.length l) mod 3)%N as [|[p|[p|p|]|]]; auto.
Qed.

Lemma strip_padding body l :
  Forall (fun c => c <> pad) body ->
  drop_last_pad (drop_last_pad (body ++ padding l)) = body.
Proof.
  intros H. destruct (padding_cases l) as [E|[E|E]]; rewrite E.
  - rewrite app_nil_r, (drop_last_pad_keep H). apply (drop_last_pad_keep H).
  - rewrite drop_last_pad_snoc. apply (drop_last_pad_keep H).
  - change [pad; pad] with ([pad] ++ [pad]).
    rewrite app_assoc, !drop_last_pad_snoc. reflexivity.
Qed.

Lemma filter_all {A} (f : A -> bool) l :
  Forall (fun x => f x = true) l -> filter f l = l.
Proof.
  induction 1 as [|x r Hx _ IH]; simpl; [|rewrite Hx, IH]; reflexivity.
Qed.

Lemma values_letters sx : Forall sextet sx -> values (map letter sx) = Some sx.
Proof.
  induction 1 as [|x r Hx _ IH]; simpl; [reflexivity|].
  rewrite (value_letter Hx), IH. reflexivity.
Qed.

Lemma padding_not_whitespace l :
  Forall (fun c => negb (is_ascii_whitespace c) = true) (padding l).
Proof.
  destruct (padding_cases l) as [E|[E|E]]; rewrite E; repeat constructor.
Qed.

(** [atob] undoes [btoa] on strings of octets. *)
Lemma atob_btoa s :
  Forall octet s -> exists e, btoa s = Ret e /\ atob e = Ret s.
Proof.
  intros Hs. unfold btoa.
  assert (Hall : forallb (fun c => (c <=? 255)%N) s = true).
  { apply forallb_forall. intros c Hc. rewrite Forall_forall in Hs.
    apply Hs in Hc. unfold octet in Hc. apply N.leb_le. lia. }
  rewrite Hall. eexists; split; [reflexivity|].
  pose proof (to_sextets_sextet Hs) as Hsx.
  assert (Hnp : Forall (fun c => c <> pad) (map letter (to_sextets s))).
  { apply Forall_map. eapply Forall_impl; [|exact Hsx].
    intros; now apply letter_not_pad. }
  unfold atob. rewrite filter_all.
  2:{ apply Forall_app; split; [|apply padding_not_whitespace].
      apply Forall_map. eapply Forall_impl; [|exact Hsx].
      intros a Ha; simpl. now rewrite letter_not_whitespace. }
  assert (Hlen : (N.of_nat (List.length (map letter (to_sextets s) ++ padding s))
                  mod 4 =? 0)%N = true).
  { rewrite length_app, length_map. apply N.eqb_eq.
    destruct (encoding_shape s) as [k [[E1 E2]|[[E1 E2]|[E1 E2]]]];
      rewrite E1, E2; simpl List.length; euclid. }
  rewrite Hlen, (strip_padding _ Hnp), length_map.
  assert (Hne : (N.of_nat (List.length (to_sextets s)) mod 4 =? 1)%N = false).
  { apply N.eqb_neq.
    destruct (encoding_shape s) as [k [[E1 E2]|[[E1 E2]|[E1 E2]]]];
      rewrite E1; euclid. }
  rewrite Hne, (values_letters Hsx), (of_to_sextets Hs). reflexivity.
Qed.

End Base64Facts.

Lemma toUint8_fromCharCode b : toUint8 (fromCharCode b) = b.
Proof.
  unfold toUint8, fromCharCode.
  pose proof (Byte.to_N_bounded b) as Hb.
  rewrite N.mod_small by lia. now rewrite Byte.of_to_N.
Qed.

Lemma fromCharCode_octet bytes :
  Forall Base64.octet (map fromCharCode bytes).
Proof.
  apply Forall_map, Forall_forall. intros b _.
  pose proof (Byte.to_N_bounded b). unfold Base64.octet, fromCharCode. lia.
Qed.

Lemma append_loop {A B} (f : A -> B) l acc :
  fold_left (fun binary b => binary ++ [f b]) l acc = acc ++ map f l.
Proof.
  revert acc; induction l as [|x r IH]; intros acc; simpl.
  - now rewrite app_nil_r.
  - rewrite IH, <- app_assoc. reflexivity.
Qed.

Lemma store_middle {A} (pre : list A) t tl v n :
  n = List.length pre -> store (pre ++ t :: tl) n v = pre ++ v :: tl.
Proof.
  intros ->. induction pre as [|x r IH]; simpl; [|rewrite IH]; reflexivity.
Qed.

Lemma fill_loop {A B} (g : A -> B) (d : A) s :
  forall rest pre tail,
    s = pre ++ rest ->
    List.length tail = List.length rest ->
    fold_left (fun bytes i => store bytes i (g (nth i s d)))
      (seq (List.length pre) (List.length rest)) (map g pre ++ tail)
    = map g s.
Proof.
  induction rest as [|x r IH]; intros pre tail Hs Hlen.
  - destruct tail; [|discriminate]. simpl. rewrite Hs, !app_nil_r. reflexivity.
  - destruct tail as [|t tl]; [discriminate|]. simpl.
    rewrite store_middle by (now rewrite length_map).
    rewrite Hs at 1. rewrite nth_middle.
    specialize (IH (pre ++ [x]) tl).
    rewrite length_app, map_app in IH. simpl in IH.
    rewrite Nat.add_1_r, <- !app_assoc in IH. simpl in IH.
    apply IH; [exact Hs | now injection Hlen].
Qed.

(** C10. For every byte array [b], [encode(b)] returns a string and
    [decode] of that string returns exactly [b]: the base64 transport of PCM
    blocks is lossless. *)
Theorem decode_encode (b : list byte) :
  exists s, encode b = Ret s /\ decode s = Ret b.
Proof.
  unfold encode. rewrite append_loop. simpl.
  destruct (Base64Facts.atob_btoa (fromCharCode_octet b)) as (s & Hs & Hd).
  exists s. split; [exact Hs|].
  unfold decode. rewrite Hd. cbn [rbind]. f_equal.
  pose proof (@fill_loop _ _ toUint8 0%N (map fromCharCode b)
                (map fromCharCode b) []
                (repeat x00 (List.length (map fromCharCode b)))
                eq_refl (repeat_length _ _)) as Hfill.
  cbn [app map List.length] in Hfill. rewrite Hfill, map_map.
  rewrite <- (map_id b) at 2.
  apply map_ext. intros; apply toUint8_fromCharCode.
Qed.

(** ** The outbound encoder *)

Example createBlob_int16_run :
  createBlob_int16 [Finite (1 # 2); Finite 2; Finite (-3); NaN;
                    Infinity false; Infinity true; Finite (-1)]
  = [16383; 32767; -32767; 0; 32767; -32767; -32767].
Proof. reflexivity. Qed.

Example decodeAudioData_run :
  rbind (decodeAudioData [x00; x40; x00; xc0] 24000 1)
        (fun b => Ret (length b, channelData b))
  = Ret (2%nat, [[(16384 # 1) / 32768; (-16384 # 1) / 32768]%Q]).
Proof. reflexivity. Qed.

Lemma createBlob_int16_map data : createBlob_int16 data = map sample_int16 data.
Proof.
  unfold createBlob_int16.
  exact (@fill_loop _ _ sample_int16 NaN data data [] (repeat 0 _)
           eq_refl (repeat_length _ _)).
Qed.

Lemma sample_above_one x : above_one x -> sample_int16 x = 32767.
Proof.
  destruct x as [|[|]|q]; simpl; try discriminate; try contradiction;
    try reflexivity.
  intros Hq. unfold sample_int16, Math_min, Math_max, number_leb.
  assert (E : Qle_bool 1 q = true) by (apply Qle_bool_iff; lra).
  rewrite E. reflexivity.
Qed.

Lemma sample_below_minus_one x : below_minus_one x -> sample_int16 x = -32767.
Proof.
  destruct x as [|[|]|q]; simpl; try discriminate; try contradiction;
    try reflexivity.
  intros Hq. unfold sample_int16, Math_min, Math_max, number_leb.
  assert (E1 : Qle_bool 1 q = false).
  { destruct (Qle_bool 1 q) eqn:E; [|reflexivity].
    apply Qle_bool_iff in E. lra. }
  assert (E2 : Qle_bool (-1) q = false).
  { destruct (Qle_bool (-1) q) eqn:E; [|reflexivity].
    apply Qle_bool_iff in E. lra. }
  rewrite E1, E2. reflexivity.
Qed.

(** C2, as the code has it. For every captured sample outside [-1, 1] the
    16-bit value [createBlob] stores is the clamped extreme of its scale and
    never a wrapped value: [32767] for a sample above [1], and [-32767] (the
    negated positive extreme, not the 16-bit minimum [-32768]) for a sample
    below [-1]. *)
Theorem createBlob_clamps (data : list number) (i : nat) (x : number) :
  nth_error data i = Some x ->
  (above_one x -> nth_error (createBlob_int16 data) i = Some 32767)
  /\ (below_minus_one x -> nth_error (createBlob_int16 data) i = Some (-32767)).
Proof.
  intros Hx. rewrite createBlob_int16_map.
  split; intros H; rewrite nth_error_map, Hx; simpl; f_equal.
  - now apply sample_above_one.
  - now apply sample_below_minus_one.
Qed.

Lemma createBlob_clamps_witness :
  nth_error (createBlob_int16 [Finite (3 # 2); Finite (-2)]) 1 = Some (-32767).
Proof.
  apply (proj2 (@createBlob_clamps [Finite (3 # 2); Finite (-2)] 1
                  (Finite (-2)) eq_refl)).
  reflexivity.
Defined.

(** C2, as stated, fails: a sample below [-1] is not stored as the 16-bit
    minimum [-32768]. *)
Lemma createBlob_never_int16_min :
  ~ (forall data i x,
        nth_error data i = Some x ->
        (above_one x -> nth_error (createBlob_int16 data) i = Some int16_max)
        /\ (below_minus_one x ->
            nth_error (createBlob_int16 data) i = Some int16_min)).
Proof.
  intros H.
  destruct (H [Finite (-2)] O (Finite (-2)) eq_refl) as [_ H2].
  specialize (H2 eq_refl). discriminate H2.
Qed.

(** ** Doubles: rounding is monotone and lands on doubles *)

Lemma pow2_pos e : (0 < pow2 e)%Q.
Proof. apply Qpower_0_lt. reflexivity. Qed.

Lemma pow2_add a b : (pow2 (a + b) == pow2 a * pow2 b)%Q.
Proof. apply Qpower_plus. discriminate. Qed.

Lemma pow2_le a b : a <= b -> (pow2 a <= pow2 b)%Q.
Proof. intros H. apply Qpower_le_compat_l; [exact H | discriminate]. Qed.

Lemma pow2_lt a b : a < b -> (pow2 a < pow2 b)%Q.
Proof. intros H. apply Qpower_lt_compat_l; [exact H | reflexivity]. Qed.

Lemma pow2_lt_inv a b : (pow2 a < pow2 b)%Q -> a < b.
Proof. intros H. apply (Qpower_lt_compat_l_inv 2); [exact H | reflexivity]. Qed.

Lemma pow2_Z n : 0 <= n -> (pow2 n == inject_Z (2 ^ n))%Q.
Proof. intros H. unfold pow2. now rewrite Zpower_Qpower. Qed.

Lemma pow2_cancel e : (pow2 e * pow2 (- e) == 1)%Q.
Proof. rewrite <- pow2_add, Z.add_opp_diag_r. reflexivity. Qed.

Lemma pow2_succ e : (pow2 (e + 1) == 2 * pow2 e)%Q.
Proof. rewrite pow2_add. unfold pow2 at 2. simpl. ring. Qed.

Lemma div_pow2 a e : (a / pow2 e == a * pow2 (- e))%Q.
Proof.
  unfold Qdiv. apply Qmult_comp; [reflexivity|].
  unfold pow2. rewrite Qpower_opp. reflexivity.
Qed.

Lemma floor_bounds x : (inject_Z (Qfloor x) <= x < inject_Z (Qfloor x) + 1)%Q.
Proof.
  split; [apply Qfloor_le|].
  pose proof (Qlt_floor x) as H. now rewrite inject_Z_plus in H.
Qed.

Lemma round_half_even_bounds x :
  Qfloor x <= round_half_even x <= Qfloor x + 1.
Proof.
  unfold round_half_even.
  destruct (_ ?= _)%Q; [destruct (Z.even _)| |]; lia.
Qed.

Lemma round_half_even_Z z : round_half_even (inject_Z z) = z.
Proof.
  unfold round_half_even. rewrite Qfloor_Z.
  destruct (Qcompare_spec (inject_Z z - inject_Z z) (1 # 2)) as [H|H|H];
    [lra | reflexivity | lra].
Qed.

Lemma round_half_even_mono x y :
  (x <= y)%Q -> round_half_even x <= round_half_even y.
Proof.
  intros H. pose proof (Qfloor_resp_le _ _ H) as Hf.
  destruct (Z.eq_dec (Qfloor x) (Qfloor y)) as [E|E].
  - unfold round_half_even. rewrite <- E.
    destruct (Qcompare_spec (x - inject_Z (Qfloor x)) (1 # 2)) as [Hx|Hx|Hx];
      destruct (Qcompare_spec (y - inject_Z (Qfloor x)) (1 # 2)) as [Hy|Hy|Hy];
      try destruct (Z.even (Qfloor x)); try lia; exfalso; lra.
  - pose proof (round_half_even_bounds x). pose proof (round_half_even_bounds y).
    lia.
Qed.

Lemma round_half_even_comp x y :
  (x == y)%Q -> round_half_even x = round_half_even y.
Proof.
  intros H. apply Z.le_antisymm; apply round_half_even_mono; lra.
Qed.

Lemma round_half_even_small x :
  (0 <= x)%Q -> (x < 1 # 2)%Q -> round_half_even x = 0.
Proof.
  intros H0 H1.
  assert (Hf : Qfloor x = 0).
  { pose proof (floor_bounds x) as [Ha Hb].
    assert (-1 < Qfloor x < 1); [|lia].
    rewrite !Zlt_Qlt. change (inject_Z (-1)) with (-1)%Q.
    change (inject_Z 1) with 1%Q. split; lra. }
  unfold round_half_even. rewrite Hf. change (inject_Z 0) with 0%Q.
  destruct (Qcompare_spec (x - 0) (1 # 2)) as [H|H|H];
    [lra | reflexivity | lra].
Qed.

(** ** The binary exponent *)

Lemma ilog2_spec q : (0 < q)%Q -> (pow2 (ilog2 q) <= q < pow2 (ilog2 q + 1))%Q.
Proof.
  intros Hq. destruct q as [n d].
  assert (Hn : 0 < n) by (unfold Qlt in Hq; simpl in Hq; lia).
  unfold ilog2. cbn [Qnum Qden].
  set (ln := Z.log2 n). set (ld := Z.log2 (Zpos d)).
  assert (Hln : 0 <= ln) by apply Z.log2_nonneg.
  assert (Hld : 0 <= ld) by apply Z.log2_nonneg.
  destruct (Z.log2_spec n Hn) as [Hn1 Hn2].
  destruct (Z.log2_spec (Zpos d) eq_refl) as [Hd1 Hd2].
  fold ln in Hn1, Hn2. fold ld in Hd1, Hd2.
  rewrite Zle_Qle in Hn1, Hd1. rewrite Zlt_Qlt in Hn2, Hd2.
  replace (Z.succ ln) with (ln + 1) in Hn2 by lia.
  replace (Z.succ ld) with (ld + 1) in Hd2 by lia.
  rewrite <- pow2_Z in Hn1 by lia. rewrite <- pow2_Z in Hn2 by lia.
  rewrite <- pow2_Z in Hd1 by lia. rewrite <- pow2_Z in Hd2 by lia.
  assert (E : ((n # d) * inject_Z (Zpos d) == inject_Z n)%Q).
  { rewrite (Qmake_Qdiv n d). field. discriminate. }
  assert (Hk : (pow2 (ln - ld) * pow2 ld == pow2 ln)%Q).
  { rewrite <- pow2_add. now replace (ln - ld + ld) with ln by lia. }
  assert (Hk1 : (pow2 (ln - ld + 1) * pow2 ld == pow2 (ln + 1))%Q).
  { rewrite <- pow2_add. now replace (ln - ld + 1 + ld) with (ln + 1) by lia. }
  assert (Hk0 : (pow2 (ln - ld - 1) * pow2 (ld + 1) == pow2 ln)%Q).
  { rewrite <- pow2_add. now replace (ln - ld - 1 + (ld + 1)) with ln by lia. }
  pose proof (pow2_pos (ln - ld)) as P0.
  pose proof (pow2_pos (ln - ld + 1)) as P1.
  pose proof (pow2_pos (ln - ld - 1)) as P2.
  pose proof (pow2_pos ld) as P3.
  set (D := inject_Z (Zpos d)) in *. set (N := inject_Z n) in *.
  set (q := n # d) in *.
  destruct (Qle_bool (pow2 (ln - ld)) q) eqn:Eb.
  - apply Qle_bool_iff in Eb. split; [exact Eb|].
    apply Qnot_le_lt. intros Hc.
    assert (pow2 (ln - ld + 1) * D <= q * D)%Q
      by (apply Qmult_le_compat_r; [exact Hc | lra]).
    assert (pow2 (ln - ld + 1) * pow2 ld <= pow2 (ln - ld + 1) * D)%Q
      by (apply Qmult_le_l; lra).
    lra.
  - assert (Hlt : (q < pow2 (ln - ld))%Q).
    { apply Qnot_le_lt. intros Hc. apply Qle_bool_iff in Hc. congruence. }
    replace (ln - ld - 1 + 1) with (ln - ld) by lia.
    split; [|exact Hlt].
    apply Qnot_lt_le. intros Hc.
    assert (q * D < pow2 (ln - ld - 1) * D)%Q
      by (apply Qmult_lt_compat_r; [lra | exact Hc]).
    assert (pow2 (ln - ld - 1) * D <= pow2 (ln - ld - 1) * pow2 (ld + 1))%Q
      by (apply Qmult_le_l; lra).
    lra.
Qed.

Lemma ilog2_unique q e :
  (pow2 e <= q)%Q -> (q < pow2 (e + 1))%Q -> ilog2 q = e.
Proof.
  intros H1 H2.
  assert (Hq : (0 < q)%Q) by (pose proof (pow2_pos e); lra).
  destruct (ilog2_spec Hq) as [H3 H4].
  assert (e < ilog2 q + 1) by (apply pow2_lt_inv; lra).
  assert (ilog2 q < e + 1) by (apply pow2_lt_inv; lra).
  lia.
Qed.

Lemma ilog2_mono x y : (0 < x)%Q -> (x <= y)%Q -> ilog2 x <= ilog2 y.
Proof.
  intros Hx Hxy.
  destruct (ilog2_spec Hx) as [H1 _].
  assert (Hy : (0 < y)%Q) by lra.
  destruct (ilog2_spec Hy) as [_ H2].
  assert (ilog2 x < ilog2 y + 1) by (apply pow2_lt_inv; lra).
  lia.
Qed.

Lemma ilog2_comp x y : (0 < x)%Q -> (x == y)%Q -> ilog2 x = ilog2 y.
Proof.
  intros Hx E. apply Z.le_antisymm; apply ilog2_mono; lra.
Qed.

Lemma ilog2_below q e : (0 < q)%Q -> (q < pow2 e)%Q -> ilog2 q < e.
Proof.
  intros Hq H. destruct (ilog2_spec Hq) as [H1 _].
  apply pow2_lt_inv. lra.
Qed.

(** ** The nearest double *)

Lemma exponent_mono x y : (0 < x)%Q -> (x <= y)%Q -> exponent x <= exponent y.
Proof.
  intros Hx Hxy. pose proof (ilog2_mono Hx Hxy). unfold exponent. lia.
Qed.

Lemma exponent_comp x y : (0 < x)%Q -> (x == y)%Q -> exponent x = exponent y.
Proof. intros Hx E. unfold exponent. now rewrite (ilog2_comp Hx E). Qed.

(** [a / 2^e], as a product. *)
Lemma scaled_le a b e : (a <= b)%Q -> (a / pow2 e <= b / pow2 e)%Q.
Proof.
  intros H. rewrite !div_pow2. apply Qmult_le_compat_r; [exact H|].
  pose proof (pow2_pos (- e)). lra.
Qed.

Lemma scaled_lt a b e : (a < b)%Q -> (a / pow2 e < b / pow2 e)%Q.
Proof.
  intros H. rewrite !div_pow2. apply Qmult_lt_compat_r; [|exact H].
  apply pow2_pos.
Qed.

Lemma scaled_pow2 j e : (pow2 j / pow2 e == pow2 (j - e))%Q.
Proof. rewrite div_pow2, <- pow2_add. reflexivity. Qed.

Lemma nearest_nonneg a : (0 < a)%Q -> (0 <= nearest a)%Q.
Proof.
  intros Ha. unfold nearest.
  assert (Hm : 0 <= round_half_even (a / pow2 (exponent a))).
  { rewrite <- (round_half_even_Z 0). apply round_half_even_mono.
    change (inject_Z 0) with 0%Q. rewrite div_pow2.
    apply Qmult_le_0_compat; [lra | pose proof (pow2_pos (- exponent a)); lra]. }
  rewrite Zle_Qle in Hm. change (inject_Z 0) with 0%Q in Hm.
  apply Qmult_le_0_compat; [exact Hm | pose proof (pow2_pos (exponent a)); lra].
Qed.

Lemma nearest_comp x y : (0 < x)%Q -> (x == y)%Q -> (nearest x == nearest y)%Q.
Proof.
  intros Hx E. unfold nearest. rewrite <- (exponent_comp Hx E).
  assert (Hs : (x / pow2 (exponent x) == y / pow2 (exponent x))%Q)
    by (unfold Qdiv; apply Qmult_comp; [exact E | reflexivity]).
  now rewrite (round_half_even_comp Hs).
Qed.

(** A positive rational with exponent [e] rounds into [2^l, 2^(l+1)], [l] its
    binary exponent, when it is normal. *)
Lemma rounded_above a j :
  (pow2 j <= a)%Q -> exponent a <= j ->
  (pow2 j <= nearest a)%Q.
Proof.
  intros Ha Hj. unfold nearest. set (e := exponent a) in *.
  assert (Hm : 2 ^ (j - e) <= round_half_even (a / pow2 e)).
  { rewrite <- (round_half_even_Z (2 ^ (j - e))).
    apply round_half_even_mono.
    rewrite <- pow2_Z by lia. rewrite <- scaled_pow2. now apply scaled_le. }
  rewrite Zle_Qle, <- pow2_Z in Hm by lia.
  assert (E : (pow2 (j - e) * pow2 e == pow2 j)%Q).
  { rewrite <- pow2_add. now replace (j - e + e) with j by lia. }
  pose proof (pow2_pos e).
  assert (pow2 (j - e) * pow2 e
          <= inject_Z (round_half_even (a / pow2 e)) * pow2 e)%Q
    by (apply Qmult_le_compat_r; lra).
  lra.
Qed.

Lemma rounded_below a j :
  (a <= pow2 j)%Q -> exponent a <= j ->
  (nearest a <= pow2 j)%Q.
Proof.
  intros Ha Hj. unfold nearest. set (e := exponent a) in *.
  assert (Hm : round_half_even (a / pow2 e) <= 2 ^ (j - e)).
  { rewrite <- (round_half_even_Z (2 ^ (j - e))).
    apply round_half_even_mono.
    rewrite <- pow2_Z by lia. rewrite <- scaled_pow2. now apply scaled_le. }
  rewrite Zle_Qle, <- pow2_Z in Hm by lia.
  assert (E : (pow2 (j - e) * pow2 e == pow2 j)%Q).
  { rewrite <- pow2_add. now replace (j - e + e) with j by lia. }
  pose proof (pow2_pos e).
  assert (inject_Z (round_half_even (a / pow2 e)) * pow2 e
          <= pow2 (j - e) * pow2 e)%Q
    by (apply Qmult_le_compat_r; lra).
  lra.
Qed.

(** Below half the last place, the nearest double is zero. *)
Lemma rounded_zero a :
  (0 < a)%Q -> (a < pow2 (exponent a - 1))%Q -> (nearest a == 0)%Q.
Proof.
  intros Ha H. unfold nearest. set (e := exponent a) in *.
  rewrite round_half_even_small; [ring| |].
  - rewrite div_pow2. apply Qmult_le_0_compat;
      [lra | pose proof (pow2_pos (- e)); lra].
  - apply (scaled_lt e) in H. rewrite scaled_pow2 in H.
    replace (e - 1 - e) with (-1) in H by lia. exact H.
Qed.

Lemma nearest_mono x y :
  (0 < x)%Q -> (x <= y)%Q -> (nearest x <= nearest y)%Q.
Proof.
  intros Hx Hxy. assert (Hy : (0 < y)%Q) by lra.
  pose proof (exponent_mono Hx Hxy) as He.
  destruct (Z.eq_dec (exponent x) (exponent y)) as [E|E].
  - unfold nearest. rewrite <- E.
    apply Qmult_le_compat_r; [|pose proof (pow2_pos (exponent x)); lra].
    assert (Hm : round_half_even (x / pow2 (exponent x))
                 <= round_half_even (y / pow2 (exponent x)))
      by (apply round_half_even_mono; now apply scaled_le).
    now rewrite Zle_Qle in Hm.
  - destruct (ilog2_spec Hx) as [_ Hx2]. destruct (ilog2_spec Hy) as [Hy1 _].
    assert (Hey : exponent y = ilog2 y - 52) by (unfold exponent in *; lia).
    assert (Hlx : ilog2 x + 1 <= ilog2 y) by (unfold exponent in *; lia).
    apply Qle_trans with (pow2 (ilog2 y)).
    + destruct (Z_le_gt_dec (exponent x) (ilog2 x + 1)) as [Hn|Hn].
      * apply Qle_trans with (pow2 (ilog2 x + 1)); [|now apply pow2_le].
        apply rounded_below; [lra | exact Hn].
      * rewrite rounded_zero; [pose proof (pow2_pos (ilog2 y)); lra | exact Hx|].
        apply Qlt_le_trans with (pow2 (ilog2 x + 1)); [exact Hx2|].
        apply pow2_le. lia.
    + apply rounded_above; [exact Hy1 | lia].
Qed.

(** A multiple of the last place is its own nearest double. *)
Lemma nearest_grid a z j :
  (a == inject_Z z * pow2 j)%Q -> exponent a <= j -> (nearest a == a)%Q.
Proof.
  intros E Hj. unfold nearest. set (e := exponent a) in *.
  assert (Hs : (a / pow2 e == inject_Z (z * 2 ^ (j - e)))%Q).
  { rewrite inject_Z_mult, <- pow2_Z by lia. rewrite E, div_pow2.
    rewrite <- Qmult_assoc, <- pow2_add. reflexivity. }
  rewrite (round_half_even_comp Hs), round_half_even_Z.
  rewrite inject_Z_mult, <- pow2_Z by lia.
  rewrite E, <- Qmult_assoc, <- pow2_add.
  now replace (j - e + e) with j by lia.
Qed.

(** Rounding twice is rounding once. *)
Lemma nearest_fixed a :
  (0 < a)%Q -> (0 < nearest a)%Q -> (nearest (nearest a) == nearest a)%Q.
Proof.
  intros Ha Hv. set (v := nearest a) in *. set (e := exponent a).
  destruct (ilog2_spec Ha) as [Ha1 Ha2].
  assert (He : ilog2 a - 52 <= e /\ -1074 <= e) by (unfold e, exponent; lia).
  assert (Hup : (v <= pow2 (e + 53))%Q).
  { apply rounded_below; [|fold e; lia].
    apply Qle_trans with (pow2 (ilog2 a + 1)); [lra | apply pow2_le; lia]. }
  destruct (Qlt_le_dec v (pow2 (e + 53))) as [Hlt|Hge].
  - apply (@nearest_grid v (round_half_even (a / pow2 e)) e); [reflexivity|].
    pose proof (@ilog2_below v (e + 53) Hv Hlt). unfold exponent. lia.
  - assert (Ev : (v == pow2 (e + 53))%Q) by lra.
    apply (@nearest_grid v (2 ^ 52) (e + 1)).
    + rewrite Ev, <- pow2_Z, <- pow2_add by lia.
      now replace (52 + (e + 1)) with (e + 53) by lia.
    + assert (ilog2 v = e + 53).
      { apply ilog2_unique; [lra|]. rewrite Ev. apply pow2_lt. lia. }
      unfold exponent. lia.
Qed.

(** ** [binary64] *)

Lemma binary64_zero q : (q == 0)%Q -> binary64 q = Finite 0.
Proof.
  intros H. unfold binary64. destruct q as [[|p|p] d]; [reflexivity| |];
    unfold Qeq in H; simpl in H; lia.
Qed.

Lemma binary64_pos q :
  (0 < q)%Q ->
  binary64 q
  = if Qle_bool (pow2 1024) (nearest q) then Infinity false
    else Finite (Qred (nearest q)).
Proof.
  intros H. unfold binary64. destruct q as [[|p|p] d]; [|reflexivity|];
    unfold Qlt in H; simpl in H; lia.
Qed.

Lemma binary64_neg q :
  (q < 0)%Q ->
  binary64 q
  = if Qle_bool (pow2 1024) (nearest (- q)) then Infinity true
    else Finite (Qred (- nearest (- q))).
Proof.
  intros H. unfold binary64. destruct q as [[|p|p] d]; [| |reflexivity];
    unfold Qlt in H; simpl in H; lia.
Qed.

Lemma Qle_bool_comp_r a x y : (x == y)%Q -> Qle_bool a x = Qle_bool a y.
Proof.
  intros E. apply eq_true_iff_eq. rewrite !Qle_bool_iff. now rewrite E.
Qed.

(** [binary64] does not depend on how the rational is written. *)
Lemma binary64_comp x y : (x == y)%Q -> binary64 x = binary64 y.
Proof.
  intros E. destruct (Q_dec x 0) as [[H|H]|H].
  - assert (Hy : (y < 0)%Q) by lra.
    rewrite (binary64_neg H), (binary64_neg Hy).
    assert (En : (nearest (- x) == nearest (- y))%Q)
      by (apply nearest_comp; lra).
    rewrite (Qle_bool_comp_r _ En).
    destruct (Qle_bool _ _); [reflexivity|].
    f_equal. apply Qred_complete. now rewrite En.
  - assert (Hy : (0 < y)%Q) by lra.
    rewrite (binary64_pos H), (binary64_pos Hy).
    assert (En : (nearest x == nearest y)%Q) by (apply nearest_comp; lra).
    rewrite (Qle_bool_comp_r _ En).
    destruct (Qle_bool _ _); [reflexivity|].
    f_equal. now apply Qred_complete.
  - rewrite (binary64_zero H), binary64_zero; [reflexivity | lra].
Qed.

Lemma binary64_not_NaN q : binary64 q <> NaN.
Proof.
  unfold binary64. destruct (Qnum q); [discriminate| |];
    cbv zeta; destruct (Qle_bool _ _); discriminate.
Qed.

(** A rational that is not negative rounds to a double that is not
    negative, or to the positive infinity. *)
Lemma binary64_nonneg q :
  (0 <= q)%Q ->
  match binary64 q with
  | Finite v => (0 <= v)%Q
  | Infinity negative => negative = false
  | NaN => False
  end.
Proof.
  intros H. destruct (Qle_lt_or_eq _ _ H) as [Hq|Hq].
  - rewrite (binary64_pos Hq). destruct (Qle_bool _ _); [reflexivity|].
    rewrite Qred_correct. now apply nearest_nonneg.
  - rewrite binary64_zero; [lra | lra].
Qed.

(** Rounding is monotone. *)
Lemma binary64_mono x y :
  (0 <= x)%Q -> (x <= y)%Q -> number_leb (binary64 x) (binary64 y) = true.
Proof.
  intros Hx Hxy. destruct (Qle_lt_or_eq _ _ Hx) as [Hx0|Hx0].
  - assert (Hy0 : (0 < y)%Q) by lra.
    pose proof (nearest_mono Hx0 Hxy) as Hn.
    rewrite (binary64_pos Hx0), (binary64_pos Hy0).
    destruct (Qle_bool (pow2 1024) (nearest y)) eqn:Ey.
    + destruct (Qle_bool (pow2 1024) (nearest x)); reflexivity.
    + destruct (Qle_bool (pow2 1024) (nearest x)) eqn:Ex.
      * apply Qle_bool_iff in Ex.
        assert (Hc : Qle_bool (pow2 1024) (nearest y) = true)
          by (apply Qle_bool_iff; lra).
        congruence.
      * cbn [number_leb]. apply Qle_bool_iff. now rewrite !Qred_correct.
  - rewrite (@binary64_zero x) by lra.
    pose proof (@binary64_nonneg y) as Hy.
    destruct (binary64 y) as [|[]|v]; cbn [number_leb];
      try (specialize (Hy ltac:(lra))); try easy.
    apply Qle_bool_iff. exact Hy.
Qed.

(** What [binary64] gives is a double: rounding it again changes nothing. *)
Lemma binary64_fixed q v : binary64 q = Finite v -> binary64 v = Finite v.
Proof.
  assert (Hpos : forall a,
             (0 < a)%Q -> Qle_bool (pow2 1024) (nearest a) = false ->
             binary64 (Qred (nearest a)) = Finite (Qred (nearest a))).
  { intros a Ha Hb. destruct (Qle_lt_or_eq _ _ (nearest_nonneg Ha)) as [Hv|Hv].
    - assert (Hr : (0 < Qred (nearest a))%Q) by (now rewrite Qred_correct).
      rewrite (binary64_pos Hr).
      assert (En : (nearest (Qred (nearest a)) == nearest a)%Q).
      { rewrite (@nearest_comp (Qred (nearest a)) (nearest a) Hr
                   (Qred_correct _)).
        now apply nearest_fixed. }
      rewrite (Qle_bool_comp_r _ En), Hb. f_equal.
      apply Qred_complete. exact En.
    - assert (E0 : Qred (nearest a) = 0%Q)
        by (change 0%Q with (Qred 0); apply Qred_complete; lra).
      rewrite E0. reflexivity. }
  destruct (Q_dec q 0) as [[H|H]|H].
  - rewrite (binary64_neg H).
    destruct (Qle_bool _ _) eqn:Eb; [discriminate|]. intros E.
    assert (Ev : v = Qred (- nearest (- q))) by congruence. subst v. clear E.
    assert (Ha : (0 < - q)%Q) by lra.
    destruct (Qle_lt_or_eq _ _ (nearest_nonneg Ha)) as [Hv|Hv].
    + assert (Hr : (Qred (- nearest (- q)) < 0)%Q)
        by (rewrite Qred_correct; lra).
      rewrite (binary64_neg Hr).
      assert (Ep : (- Qred (- nearest (- q)) == nearest (- q))%Q)
        by (rewrite Qred_correct; ring).
      assert (En : (nearest (- Qred (- nearest (- q))) == nearest (- q))%Q).
      { assert (Hp : (0 < - Qred (- nearest (- q)))%Q) by lra.
        rewrite (@nearest_comp _ (nearest (- q)) Hp Ep).
        now apply nearest_fixed. }
      rewrite (Qle_bool_comp_r _ En), Eb. f_equal.
      apply Qred_complete. now rewrite En.
    + assert (E0 : Qred (- nearest (- q)) = 0%Q)
        by (change 0%Q with (Qred 0); apply Qred_complete; lra).
      rewrite E0. reflexivity.
  - rewrite (binary64_pos H).
    destruct (Qle_bool _ _) eqn:Eb; [discriminate|]. intros E.
    assert (Ev : v = Qred (nearest q)) by congruence. subst v.
    now apply Hpos.
  - rewrite (binary64_zero H). intros [= <-]. reflexivity.
Qed.

(** ** Comparing and adding doubles *)

Lemma number_leb_refl a : a <> NaN -> number_leb a a = true.
Proof.
  destruct a as [|[]|q]; intros H; cbn [number_leb]; try congruence.
  apply Qle_bool_iff, Qle_refl.
Qed.

Lemma number_leb_trans a b c :
  number_leb a b = true -> number_leb b c = true -> number_leb a c = true.
Proof.
  destruct a as [|[]|p], b as [|[]|q], c as [|[]|r]; cbn [number_leb];
    try congruence.
  rewrite !Qle_bool_iff. apply Qle_trans.
Qed.

Lemma number_leb_total a b :
  a <> NaN -> b <> NaN -> number_leb a b = false -> number_leb b a = true.
Proof.
  destruct a as [|[]|p], b as [|[]|q]; cbn [number_leb]; try congruence.
  intros _ _ H. apply Qle_bool_iff.
  destruct (Qlt_le_dec q p) as [Hlt|Hle]; [lra|].
  apply Qle_bool_iff in Hle. congruence.
Qed.

Lemma Math_max_not_NaN a b : a <> NaN -> b <> NaN -> Math_max a b <> NaN.
Proof.
  destruct a as [|[]|p], b as [|[]|q]; cbn; try congruence;
    destruct (Qle_bool p q); congruence.
Qed.

Lemma Math_max_ge_l a b :
  a <> NaN -> b <> NaN -> number_leb a (Math_max a b) = true.
Proof.
  intros Ha Hb.
  assert (E : Math_max a b = if number_leb a b then b else a)
    by (destruct a, b; try congruence; reflexivity).
  rewrite E. destruct (number_leb a b) eqn:El; [exact El|].
  now apply number_leb_refl.
Qed.

Lemma Math_max_ge_r a b :
  a <> NaN -> b <> NaN -> number_leb b (Math_max a b) = true.
Proof.
  intros Ha Hb.
  assert (E : Math_max a b = if number_leb a b then b else a)
    by (destruct a, b; try congruence; reflexivity).
  rewrite E. destruct (number_leb a b) eqn:El.
  - now apply number_leb_refl.
  - now apply number_leb_total.
Qed.

Lemma Math_max_finite a b : Math_max (Finite a) (Finite b) = Finite (later a b).
Proof. unfold Math_max, later. cbn [number_leb]. now destruct (Qle_bool a b). Qed.

Lemma later_ge_l a b : (a <= later a b)%Q.
Proof.
  unfold later. destruct (Qle_bool a b) eqn:E; [now apply Qle_bool_iff|].
  apply Qle_refl.
Qed.

Lemma later_ge_r a b : (b <= later a b)%Q.
Proof.
  unfold later. destruct (Qle_bool a b) eqn:E; [apply Qle_refl|].
  destruct (Qlt_le_dec b a) as [H|H]; [lra|].
  apply Qle_bool_iff in H. congruence.
Qed.

Lemma later_left a b : (b <= a)%Q -> (later a b == a)%Q.
Proof.
  intros H. unfold later. destruct (Qle_bool a b) eqn:E; [|reflexivity].
  apply Qle_bool_iff in E. lra.
Qed.

Lemma later_right a b : (a <= b)%Q -> later a b = b.
Proof.
  intros H. unfold later. apply Qle_bool_iff in H. now rewrite H.
Qed.

(** The larger of a cursor and a clock reading is at least the clock
    reading. *)
Lemma start_of_finite w currentTime when :
  start_of w currentTime = Finite when ->
  (currentTime <= when)%Q
  /\ number_leb (nextStartTimeRef w) (Finite when) = true
  /\ (number_leb (nextStartTimeRef w) (Finite currentTime) = true ->
      when = currentTime).
Proof.
  unfold start_of. intros H.
  assert (Hc : nextStartTimeRef w <> NaN) by (intros E; rewrite E in H; discriminate).
  assert (Ht : Finite currentTime <> NaN) by discriminate.
  pose proof (Math_max_ge_l Hc Ht) as H1.
  pose proof (Math_max_ge_r Hc Ht) as H2.
  rewrite H in H1, H2. cbn [number_leb] in H2. apply Qle_bool_iff in H2.
  repeat split; [exact H2 | exact H1 |].
  intros Hle. destruct (nextStartTimeRef w) as [|[]|c]; cbn in H, Hle;
    try congruence.
  rewrite Hle in H. congruence.
Qed.

Lemma cursor_ok_not_NaN c : cursor_ok c -> c <> NaN.
Proof. destruct c; cbn; congruence. Qed.

Lemma cursor_ok_binary64 q : cursor_ok (binary64 q).
Proof.
  destruct (binary64 q) as [| |v] eqn:E; cbn; [|exact I|].
  - now apply binary64_not_NaN in E.
  - exact (@binary64_fixed q v E).
Qed.

Lemma cursor_ok_start_of w currentTime :
  cursor_ok (nextStartTimeRef w) ->
  binary64 currentTime = Finite currentTime ->
  cursor_ok (start_of w currentTime).
Proof.
  unfold start_of. intros Hc Ht.
  destruct (nextStartTimeRef w) as [|[]|c]; cbn in *; try easy.
  destruct (Qle_bool c currentTime); assumption.
Qed.

(** A duration is a double that is not negative, or is infinite. *)
Lemma duration_cases b :
  (exists d, duration b = Finite d /\ (0 <= d)%Q)
  \/ duration b = Infinity false.
Proof.
  unfold duration.
  assert (H : (0 <= seconds b)%Q) by (unfold seconds, Qle; simpl; lia).
  pose proof (binary64_nonneg H) as Hn.
  destruct (binary64 (seconds b)) as [|n|d]; [easy | right; now subst | left; eauto].
Qed.

Lemma computed_end_ok when b : cursor_ok (computed_end when b).
Proof.
  unfold computed_end. destruct (duration_cases b) as [(d & -> & _) | ->].
  - apply cursor_ok_binary64.
  - exact I.
Qed.

(** The end computed for a chunk is not before its start. *)
Lemma computed_end_ge when b :
  (0 <= when)%Q -> binary64 when = Finite when ->
  number_leb (Finite when) (computed_end when b) = true.
Proof.
  intros H0 Hd. unfold computed_end.
  destruct (duration_cases b) as [(d & -> & Hp) | ->]; [|reflexivity].
  cbn [number_add]. rewrite <- Hd at 1. apply binary64_mono; lra.
Qed.

(** ** Reasoning on handlers *)

Lemma add_log_nil w : add_log w [] = w.
Proof. destruct w; unfold add_log; simpl. now rewrite app_nil_r. Qed.

Lemma add_log_app w a b : add_log (add_log w a) b = add_log w (a ++ b).
Proof. unfold add_log; simpl. now rewrite app_assoc. Qed.

Lemma emit_add_log e w : emit e w = (add_log w [e], Ret tt).
Proof. reflexivity. Qed.

(** A loop whose body only calls the platform. *)
Lemma forEach_emits {A} (f : A -> M unit) (es : A -> list Effect) l :
  (forall x w, f x w = (add_log w (es x), Ret tt)) ->
  forall w, forEach l f w = (add_log w (flat_map es l), Ret tt).
Proof.
  intros Hf. induction l as [|x r IH]; intros w; simpl.
  - now rewrite add_log_nil.
  - unfold bind. rewrite Hf, IH, add_log_app. reflexivity.
Qed.

Lemma flat_map_singleton {A B} (g : A -> B) l :
  flat_map (fun x => [g x]) l = map g l.
Proof. induction l; simpl; [|f_equal]; auto. Qed.

Lemma forEach_track_stop l w :
  forEach l track_stop w
  = (add_log w (map (fun t => TrackStop (track_id t)) l), Ret tt).
Proof.
  rewrite (forEach_emits track_stop (fun t => [TrackStop (track_id t)])).
  - now rewrite flat_map_singleton.
  - reflexivity.
Qed.

Lemma forEach_guarded_stop l w :
  forEach l (fun source => try_catch (source_stop source) (fun _ => ret tt)) w
  = (add_log w (flat_map stop_effect l), Ret tt).
Proof.
  apply forEach_emits. intros s w'.
  unfold try_catch, source_stop, stop_effect.
  destruct (start_time s); simpl; [reflexivity|].
  now rewrite add_log_nil.
Qed.

(** [stopEverything] returns, in the state [torn_down]. *)
Lemma stopEverything_torn_down w : stopEverything w = (torn_down w, Ret tt).
Proof.
  destruct w as [c ca fm st er se ac ic nx so sr fi fr lg].
  destruct se, sr, fi, ic, ac;
    unfold stopEverything, torn_down, releases, bind;
    cbn -[forEach];
    rewrite ?forEach_track_stop; cbn -[forEach];
    rewrite forEach_guarded_stop;
    unfold setStatus, modify; cbn;
    rewrite <- ?app_assoc, ?app_nil_r; reflexivity.
Qed.

(** ** Reachable scenarios *)

Lemma run_cons ev evs w : run (ev :: evs) w = run evs (step w ev).
Proof. reflexivity. Qed.

Lemma reachable_run evs : reachable (run evs initial).
Proof.
  unfold run. rewrite <- fold_left_rev_right.
  induction (rev evs) as [|ev r IH]; simpl; [constructor|].
  now constructor.
Qed.

Lemma live_playing_reached : reachable live_playing.
Proof.
  assert (E : live_playing
              = run (go_live ++ [Message (audio_message two_frames false) 0])
                  initial) by (vm_compute; reflexivity).
  rewrite E. apply reachable_run.
Qed.

Lemma ended_session_reached : reachable ended_session.
Proof.
  assert (E : ended_session = step live_playing StopEverything)
    by (vm_compute; reflexivity).
  rewrite E. constructor. apply live_playing_reached.
Qed.

(** ** Teardown *)

(** C7. Calling [stopEverything] twice in succession: neither call throws;
    after the first call the session, the stream, the interval, both audio
    contexts are null and the playback set is empty, so nothing is left to
    release; the second call leaves the state, the log of platform calls
    included, as the first call left it. *)
Theorem stopEverything_twice (w : World) :
  let w1 := state_of stopEverything w in
  let w2 := state_of stopEverything w1 in
  outcome_of stopEverything w = Ret tt
  /\ outcome_of stopEverything w1 = Ret tt
  /\ sessionRef w1 = None /\ streamRef w1 = None
  /\ frameIntervalRef w1 = None /\ inputAudioContextRef w1 = None
  /\ audioContextRef w1 = None /\ sourcesRef w1 = []
  /\ releases w1 = []
  /\ w2 = w1.
Proof.
  unfold state_of, outcome_of. rewrite !stopEverything_torn_down. simpl.
  repeat (split; [reflexivity|]).
  unfold torn_down at 1. cbn. rewrite app_nil_r. reflexivity.
Qed.

Example live_playing_state :
  status live_playing = "Live"%string
  /\ connected live_playing = true
  /\ streamRef live_playing = Some capture
  /\ frameIntervalRef live_playing = Some 1%positive
  /\ map node_id (sourcesRef live_playing) = [3%nat]
  /\ releases live_playing
     = [TrackStop 100; TrackStop 101; ClearInterval 1; ContextClose 0;
        ContextClose 1; SourceStop 3].
Proof. vm_compute. repeat split. Qed.

(** C4, on the code. When [onclose] fires in the live state with a chunk
    playing, the status becomes "Disconnected" and nothing else happens: no
    platform call is made, the stream, the interval, both contexts and the
    playback set stay as they were, and everything teardown would release is
    still to be released. The sibling callback [onerror] releases it all. *)
Theorem onclose_leaves_resources :
  let w := state_of onclose live_playing in
  status w = "Disconnected"%string
  /\ connected w = false
  /\ log w = log live_playing
  /\ streamRef w = Some capture
  /\ frameIntervalRef w = Some 1%positive
  /\ inputAudioContextRef w = inputAudioContextRef live_playing
  /\ audioContextRef w = audioContextRef live_playing
  /\ sourcesRef w = sourcesRef live_playing
  /\ releases w
     = [TrackStop 100; TrackStop 101; ClearInterval 1; ContextClose 0;
        ContextClose 1; SourceStop 3]
  /\ releases (state_of onerror live_playing) = [].
Proof. vm_compute. repeat split. Qed.

Lemma onclose_state w :
  onclose w
  = ({| connected := false; isCameraActive := isCameraActive w;
        facingMode := facingMode w; status := "Disconnected";
        error := error w; sessionRef := sessionRef w;
        audioContextRef := audioContextRef w;
        inputAudioContextRef := inputAudioContextRef w;
        nextStartTimeRef := nextStartTimeRef w; sourcesRef := sourcesRef w;
        streamRef := streamRef w; frameIntervalRef := frameIntervalRef w;
        fresh := fresh w; log := log w |}, Ret tt).
Proof. reflexivity. Qed.

(** ** The two producers *)

(** C6. On every tick of the frame timer, when the page is hidden or the
    camera-enabled flag is false the callback returns at once: the state is
    unchanged and no platform call (no draw, no encoding, no send) is made. *)
Theorem onframe_skips (w : World) (canvasEl hidden : bool)
    (videoEl : option (N * N)) (context2d : bool) :
  hidden = true \/ camera_enabled w = false ->
  onframe canvasEl hidden videoEl context2d w = (w, Ret tt).
Proof.
  unfold camera_enabled, onframe, bind, gets.
  intros [-> | H]; [reflexivity|].
  cbn. destruct (hidden || _); [reflexivity|].
  destruct (streamRef w) as [st|]; [|reflexivity].
  destruct (hd_error (getVideoTracks st)) as [t|]; [|reflexivity].
  rewrite H. reflexivity.
Qed.

Lemma onframe_skips_witness :
  onframe true true (Some (640, 480)%N) true live_playing
  = (live_playing, Ret tt).
Proof. apply onframe_skips. left. reflexivity. Defined.

Example onframe_draws :
  onframe true false (Some (640, 480)%N) true live_playing
  = (add_log live_playing
       [DrawImage 160 120; CanvasToBlob "image/jpeg" (6 # 10)], Ret tt).
Proof. vm_compute. reflexivity. Qed.

Lemma encode_returns b : exists s, encode b = Ret s.
Proof.
  unfold encode. rewrite append_loop. simpl.
  destruct (Base64Facts.atob_btoa (fromCharCode_octet b)) as (s & Hs & _).
  eauto.
Qed.

Lemma createBlob_returns inputData : exists blob, createBlob inputData = Ret blob.
Proof.
  unfold createBlob.
  destruct (encode_returns (flat_map int16_bytes (createBlob_int16 inputData)))
    as [s ->].
  simpl. eauto.
Qed.


(** ** Camera switch *)

Lemma hd_error_In {A} (l : list A) x : hd_error l = Some x -> In x l.
Proof. destruct l; simpl; [discriminate|]. intros [= ->]. now left. Qed.

Lemma first_video_track st t :
  hd_error (getVideoTracks st) = Some t -> In t (tracks st) /\ is_video t = true.
Proof. intros H. apply hd_error_In in H. now apply filter_In in H. Qed.

Lemma track_id_inj l a b :
  NoDup (map track_id l) -> In a l -> In b l -> track_id a = track_id b -> a = b.
Proof.
  induction l as [|x r IH]; simpl; [contradiction|].
  intros Hnd Ha Hb E. inversion_clear Hnd as [|? ? Hx Hr].
  destruct Ha as [->|Ha], Hb as [->|Hb]; auto.
  - exfalso. apply Hx. rewrite E. now apply in_map.
  - exfalso. apply Hx. rewrite <- E. now apply in_map.
Qed.

Lemma filter_filter_keep {A} (f g : A -> bool) l :
  (forall x, In x l -> f x = true -> g x = true) ->
  filter f (filter g l) = filter f l.
Proof.
  induction l as [|x r IH]; intros H; simpl; [reflexivity|].
  destruct (g x) eqn:Eg; simpl.
  - destruct (f x); rewrite IH; auto; intros; apply H; simpl; auto.
  - destruct (f x) eqn:Ef.
    + rewrite (H x) in Eg; [discriminate | now left | exact Ef].
    + apply IH. intros; apply H; simpl; auto.
Qed.

(** Replacing the video track leaves the audio tracks alone. *)
Lemma swapped_audio_tracks st new :
  NoDup (map track_id (tracks st)) ->
  is_video new = true ->
  audio_tracks (swapped st new) = audio_tracks st.
Proof.
  intros Hnd Hnew. unfold swapped, addTrack, audio_tracks.
  assert (Hin : audio_tracks
                  match hd_error (getVideoTracks st) with
                  | Some old => removeTrack st old
                  | None => st
                  end = audio_tracks st).
  { destruct (hd_error (getVideoTracks st)) as [old|] eqn:Eold; [|reflexivity].
    destruct (first_video_track _ Eold) as [Hold Hv].
    unfold audio_tracks, removeTrack; simpl.
    apply filter_filter_keep. intros t Ht Ha.
    unfold same_track. destruct (Nat.eqb_spec (track_id t) (track_id old)) as [E|];
      [|reflexivity].
    apply (track_id_inj _ _ _ Hnd Ht Hold) in E. subst t.
    rewrite Hv in Ha. discriminate. }
  unfold audio_tracks in Hin.
  destruct (existsb _ _); simpl; [exact Hin|].
  rewrite filter_app, Hin. simpl. rewrite Hnew. simpl. apply app_nil_r.
Qed.

Lemma granted_first ns :
  grants_video (Ret ns) -> exists new, hd_error (getVideoTracks ns) = Some new.
Proof.
  simpl. destruct (getVideoTracks ns) as [|t l]; [congruence|].
  intros _. now exists t.
Qed.

(** The swap, once a track [new] is granted and the stream [st] is still
    there. *)
Lemma switchCamera_swap_granted targetMode newStream videoEl w st new :
  streamRef w = Some st ->
  hd_error (getVideoTracks newStream) = Some new ->
  switchCamera_swap targetMode newStream videoEl w
  = ({| connected := connected w; isCameraActive := true;
        facingMode := targetMode; status := status w; error := error w;
        sessionRef := sessionRef w; audioContextRef := audioContextRef w;
        inputAudioContextRef := inputAudioContextRef w;
        nextStartTimeRef := nextStartTimeRef w; sourcesRef := sourcesRef w;
        streamRef := Some (swapped st new);
        frameIntervalRef := frameIntervalRef w;
        fresh := fresh w;
        log := log w
               ++ match hd_error (getVideoTracks st) with
                  | Some old => [TrackStop (track_id old)]
                  | None => []
                  end
               ++ (if videoEl then [VideoPlay] else []) |}, Ret tt).
Proof.
  intros Hst Hnew. destruct w as [c ca fm sta er se ac ic nx so sr fi fr lg].
  simpl in Hst. subst sr.
  unfold switchCamera_swap, swapped, bind, gets, track_stop. rewrite Hnew.
  destruct (hd_error (getVideoTracks st)) as [old|] eqn:Eold;
    destruct videoEl; cbn; rewrite ?Eold; cbn; unfold emit, modify, ret;
    cbn; rewrite <- ?app_assoc, ?app_nil_r; reflexivity.
Qed.

(** C9, on the code. In a live session the user asks for the other camera
    and ends the session while the request is pending; the platform then
    grants the track. The continuation of [switchCamera] reads the stream
    reference again, finds it null and throws into the [catch] meant for
    rejected requests: the error "Could not switch camera." is set although
    no request was rejected, the facing mode is not updated, and the granted
    track is never stopped. Without the teardown in between, the same
    answers give the swap and no error. *)
Theorem switchCamera_after_teardown :
  let w := run switch_then_stop live_playing in
  reachable live_playing
  /\ error live_playing = None
  /\ facingMode live_playing = user
  /\ error w = Some switch_error
  /\ facingMode w = user
  /\ streamRef w = None
  /\ since live_playing w
     = [GetUserMedia false true environment;
        TrackStop 100; TrackStop 101; ClearInterval 1; ContextClose 0;
        ContextClose 1; SourceStop 3;
        ConsoleError "Error switching camera:"]
  /\ error (run (uninterrupted_switch live_playing rear_capture rear_capture
                   true (Ret tt)) live_playing) = None.
Proof.
  split; [exact live_playing_reached|]. vm_compute. repeat split.
Qed.

(** ** Handlers that leave the schedule alone *)

Lemma filter_true {A} (l : list A) : filter (fun _ => true) l = l.
Proof. induction l; simpl; [|f_equal]; auto. Qed.

Lemma filter_false {A} (l : list A) : filter (fun _ => false) l = [].
Proof. induction l; simpl; auto. Qed.

Lemma filter_filter {A} (f g : A -> bool) l :
  filter f (filter g l) = filter (fun x => g x && f x) l.
Proof.
  induction l as [|x r IH]; simpl; [reflexivity|].
  destruct (g x); simpl; [destruct (f x)|]; now rewrite IH.
Qed.

Lemma quiet_step_refl w : quiet_step w w.
Proof. split; [reflexivity|]. exists (fun _ => true). now rewrite filter_true. Qed.

Lemma quiet_step_trans w1 w2 w3 :
  quiet_step w1 w2 -> quiet_step w2 w3 -> quiet_step w1 w3.
Proof.
  intros [H1 [f Hf]] [H2 [g Hg]]. split; [congruence|].
  exists (fun x => f x && g x). now rewrite Hg, Hf, filter_filter.
Qed.

Lemma quiet_ret {A} (a : A) : quiet (ret a).
Proof. intros w; apply quiet_step_refl. Qed.

Lemma quiet_throw {A} e : quiet (@throw A e).
Proof. intros w; apply quiet_step_refl. Qed.

Lemma quiet_lift {A} (r : result A) : quiet (lift r).
Proof. intros w; apply quiet_step_refl. Qed.

Lemma quiet_gets {A} (f : World -> A) : quiet (gets f).
Proof. intros w; apply quiet_step_refl. Qed.

Lemma quiet_bind {A B} (c : M A) (k : A -> M B) :
  quiet c -> (forall a, quiet (k a)) -> quiet (bind c k).
Proof.
  intros Hc Hk w. unfold bind. specialize (Hc w).
  destruct (c w) as [w' [a|e]]; simpl in *; [|exact Hc].
  eapply quiet_step_trans; [exact Hc | apply Hk].
Qed.

Lemma quiet_try_catch {A} (c : M A) (h : exn -> M A) :
  quiet c -> (forall e, quiet (h e)) -> quiet (try_catch c h).
Proof.
  intros Hc Hh w. unfold try_catch. specialize (Hc w).
  destruct (c w) as [w' [a|e]]; simpl in *; [exact Hc|].
  eapply quiet_step_trans; [exact Hc | apply Hh].
Qed.

Lemma quiet_forEach {A} (l : list A) (f : A -> M unit) :
  (forall x, quiet (f x)) -> quiet (forEach l f).
Proof.
  intros Hf. induction l as [|x r IH]; simpl.
  - apply quiet_ret.
  - apply quiet_bind; auto.
Qed.

Lemma quiet_modify (f : World -> World) :
  (forall w, nextStartTimeRef (f w) = nextStartTimeRef w) ->
  (forall w, sourcesRef (f w) = sourcesRef w) ->
  quiet (modify f).
Proof.
  intros H1 H2 w. split; simpl; [apply H1|].
  exists (fun _ => true). now rewrite filter_true, H2.
Qed.

Lemma quiet_emit e : quiet (emit e).
Proof. now apply quiet_modify. Qed.
Lemma quiet_setConnected v : quiet (setConnected v).
Proof. now apply quiet_modify. Qed.
Lemma quiet_setIsCameraActive v : quiet (setIsCameraActive v).
Proof. now apply quiet_modify. Qed.
Lemma quiet_setFacingMode v : quiet (setFacingMode v).
Proof. now apply quiet_modify. Qed.
Lemma quiet_setStatus v : quiet (setStatus v).
Proof. now apply quiet_modify. Qed.
Lemma quiet_setError v : quiet (setError v).
Proof. now apply quiet_modify. Qed.
Lemma quiet_set_sessionRef v : quiet (set_sessionRef v).
Proof. now apply quiet_modify. Qed.
Lemma quiet_set_audioContextRef v : quiet (set_audioContextRef v).
Proof. now apply quiet_modify. Qed.
Lemma quiet_set_inputAudioContextRef v : quiet (set_inputAudioContextRef v).
Proof. now apply quiet_modify. Qed.
Lemma quiet_set_streamRef v : quiet (set_streamRef v).
Proof. now apply quiet_modify. Qed.
Lemma quiet_set_frameIntervalRef v : quiet (set_frameIntervalRef v).
Proof. now apply quiet_modify. Qed.

Lemma quiet_new_id : quiet new_id.
Proof. intros w. split; simpl; [reflexivity|].
  exists (fun _ => true). now rewrite filter_true. Qed.

Lemma quiet_clear_sources : quiet (set_sourcesRef []).
Proof.
  intros w. split; simpl; [reflexivity|].
  exists (fun _ => false). now rewrite filter_false.
Qed.

Create HintDb quiet.
#[local] Hint Resolve quiet_ret quiet_throw quiet_lift quiet_gets quiet_emit
  quiet_setConnected quiet_setIsCameraActive quiet_setFacingMode
  quiet_setStatus quiet_setError quiet_set_sessionRef
  quiet_set_audioContextRef quiet_set_inputAudioContextRef
  quiet_set_streamRef quiet_set_frameIntervalRef quiet_new_id
  quiet_clear_sources : quiet.

Ltac quiet_steps :=
  repeat first
    [ progress (auto with quiet)
    | apply quiet_bind; [|intros ?]
    | apply quiet_try_catch; [|intros ?]
    | apply quiet_forEach; intros ?
    | match goal with
      | |- quiet (match ?x with _ => _ end) => destruct x
      | |- quiet (let (_, _) := ?x in _) => destruct x
      end ].

Lemma quiet_source_stop s : quiet (source_stop s).
Proof. unfold source_stop. quiet_steps. Qed.

Lemma quiet_stopEverything : quiet stopEverything.
Proof. unfold stopEverything, track_stop. pose proof quiet_source_stop. quiet_steps. Qed.

#[local] Hint Resolve quiet_source_stop quiet_stopEverything : quiet.

Lemma quiet_sessionRejected : quiet sessionRejected.
Proof. unfold sessionRejected. quiet_steps. Qed.

Lemma quiet_onerror : quiet onerror.
Proof. unfold onerror. quiet_steps. Qed.

Lemma quiet_onclose : quiet onclose.
Proof. unfold onclose. quiet_steps. Qed.

Lemma quiet_onopen ctx handle : quiet (onopen ctx handle).
Proof. unfold onopen. quiet_steps. Qed.

Lemma quiet_onaudioprocess p inputData delivery :
  quiet (onaudioprocess p inputData delivery).
Proof. unfold onaudioprocess. quiet_steps. Qed.

Lemma quiet_onframe canvasEl hidden videoEl context2d :
  quiet (onframe canvasEl hidden videoEl context2d).
Proof.
  unfold onframe. quiet_steps.
Qed.

Lemma quiet_onblob p blob delivery : quiet (onblob p blob delivery).
Proof. unfold onblob. quiet_steps. Qed.

Lemma quiet_onended node : quiet (onended node).
Proof.
  intros w. split; simpl; [reflexivity|]. eexists. reflexivity.
Qed.

Lemma quiet_toggleCamera : quiet toggleCamera.
Proof. unfold toggleCamera. quiet_steps. Qed.

Lemma quiet_switchCamera : quiet switchCamera.
Proof. unfold switchCamera. quiet_steps. Qed.

Lemma quiet_switchCamera_failed : quiet switchCamera_failed.
Proof. unfold switchCamera_failed. quiet_steps. Qed.

Lemma quiet_switchCamera_swap targetMode newStream videoEl :
  quiet (switchCamera_swap targetMode newStream videoEl).
Proof. unfold switchCamera_swap, track_stop. quiet_steps. Qed.

#[local] Hint Resolve quiet_switchCamera_failed quiet_switchCamera_swap : quiet.

Lemma quiet_switchCamera_exact targetMode answer videoEl :
  quiet (switchCamera_exact targetMode answer videoEl).
Proof. unfold switchCamera_exact. quiet_steps. Qed.

Lemma quiet_switchCamera_relaxed targetMode answer videoEl :
  quiet (switchCamera_relaxed targetMode answer videoEl).
Proof. unfold switchCamera_relaxed. quiet_steps. Qed.

Lemma quiet_switchCamera_played playAnswer :
  quiet (switchCamera_played playAnswer).
Proof. unfold switchCamera_played. quiet_steps. Qed.

(** Every handler but [connect] and [onmessage] is quiet. *)
Lemma quiet_handler ev :
  match ev with
  | Connect _ | Message _ _ => True
  | _ => quiet (handler ev)
  end.
Proof.
  destruct ev; simpl; auto using quiet_sessionRejected, quiet_onopen,
    quiet_onaudioprocess, quiet_onframe, quiet_onblob, quiet_onended,
    quiet_onclose, quiet_onerror, quiet_stopEverything, quiet_toggleCamera,
    quiet_switchCamera, quiet_switchCamera_exact, quiet_switchCamera_relaxed,
    quiet_switchCamera_played.
Qed.

(** ** [onmessage], case by case *)

Lemma forEach_source_stop_started l w :
  Forall started l ->
  forEach l source_stop w = (add_log w (flat_map stop_effect l), Ret tt).
Proof.
  intros H. revert w. induction H as [|s r Hs _ IH]; intros w; simpl.
  - now rewrite add_log_nil.
  - unfold started in Hs. unfold bind, source_stop, stop_effect at 1.
    destruct (start_time s); [|congruence].
    rewrite emit_add_log, IH, add_log_app. reflexivity.
Qed.

(** A loop of [source.stop()] stops every source, or throws having only
    called the platform. *)
Lemma forEach_source_stop_cases l w :
  forEach l source_stop w = (add_log w (flat_map stop_effect l), Ret tt)
  \/ exists es e, forEach l source_stop w = (add_log w es, Throw e).
Proof.
  revert w; induction l as [|s r IH]; intros w; simpl.
  - left. now rewrite add_log_nil.
  - unfold bind. unfold source_stop at 1 3, stop_effect at 1.
    destruct (start_time s).
    + rewrite emit_add_log.
      destruct (IH (add_log w [SourceStop (node_id s)]))
        as [E | (es & e & E)]; rewrite E, add_log_app; eauto.
    + right. exists [], InvalidStateError. now rewrite add_log_nil.
Qed.

Lemma interruption_absent message w :
  interrupted_of message = false -> interruption message w = (w, Ret tt).
Proof. unfold interruption. now intros ->. Qed.

Lemma interruption_served message w :
  interrupted_of message = true ->
  Forall started (sourcesRef w) ->
  interruption message w = (interrupted_state w, Ret tt).
Proof.
  unfold interruption. intros -> H. unfold bind, gets.
  rewrite (forEach_source_stop_started _ H). reflexivity.
Qed.

(** The interruption branch serves the interruption, or changes nothing but
    the log. *)
Lemma interruption_cases message w :
  (interrupted_of message = true
   /\ interruption message w = (interrupted_state w, Ret tt))
  \/ exists es r, interruption message w = (add_log w es, r).
Proof.
  unfold interruption. destruct (interrupted_of message).
  - unfold bind, gets.
    destruct (forEach_source_stop_cases (sourcesRef w) w)
      as [E | (es & e & E)]; rewrite E.
    + left. split; reflexivity.
    + right. eauto.
  - right. exists [], (Ret tt). now rewrite add_log_nil.
Qed.

(** The ways [onmessage] goes. *)
Lemma chunk_of_some message r :
  chunk_of message = Some r ->
  exists encoded base64,
    audio_of message = Ret encoded /\ truthy encoded = Some base64
    /\ r = rbind (decode base64) (fun bytes => decodeAudioData bytes 24000 1).
Proof.
  unfold chunk_of. destruct (audio_of message) as [encoded|e]; [|discriminate].
  destruct (truthy encoded) as [base64|] eqn:E; [|discriminate].
  intros [= <-]. now exists encoded, base64.
Qed.

Lemma chunk_of_none message :
  chunk_of message = None ->
  no_audio message \/ exists e, audio_of message = Throw e.
Proof.
  unfold chunk_of, no_audio.
  destruct (audio_of message) as [encoded|e]; [|eauto].
  destruct (truthy encoded) eqn:E; [discriminate | eauto].
Qed.

Lemma onmessage_unreadable message currentTime w e :
  audio_of message = Throw e ->
  onmessage message currentTime w = (w, Throw e).
Proof. intros E. unfold onmessage, bind, lift. now rewrite E. Qed.

Lemma onmessage_no_audio message currentTime w :
  no_audio message ->
  onmessage message currentTime w = interruption message w.
Proof.
  intros (encoded & E & T). unfold onmessage, bind, lift. rewrite E.
  cbv beta iota. now rewrite T.
Qed.

Lemma onmessage_no_context message currentTime w r :
  chunk_of message = Some r ->
  audioContextRef w = None ->
  onmessage message currentTime w = (w, Ret tt).
Proof.
  intros Hc H. destruct (chunk_of_some _ Hc) as (encoded & base64 & E & T & _).
  unfold onmessage, bind, lift, gets. rewrite E. cbv beta iota.
  now rewrite T, H.
Qed.

Lemma onmessage_undecodable message currentTime w e :
  chunk_of message = Some (Throw e) ->
  audioContextRef w <> None ->
  onmessage message currentTime w
  = (with_cursor w (start_of w currentTime), Throw e).
Proof.
  intros Hc Hctx.
  destruct (chunk_of_some _ Hc) as (encoded & base64 & E & T & H).
  unfold onmessage, bind, lift, gets. rewrite E. cbv beta iota. rewrite T.
  destruct (audioContextRef w); [|congruence].
  cbn. destruct (decode base64) as [bytes|e']; cbn in H.
  - rewrite <- H. reflexivity.
  - injection H as ->. reflexivity.
Qed.

(** When the audio decodes: the chunk is scheduled, or [start] refuses the
    time. *)
Lemma onmessage_decoded message currentTime w audioBuffer :
  chunk_of message = Some (Ret audioBuffer) ->
  audioContextRef w <> None ->
  onmessage message currentTime w
  = match start_of w currentTime with
    | Finite when =>
        if Qle_bool 0 when
        then interruption message (scheduled w when audioBuffer)
        else (not_started w (Finite when), Throw RangeError)
    | c => (not_started w c, Throw TypeError)
    end.
Proof.
  intros Hc Hctx.
  destruct (chunk_of_some _ Hc) as (encoded & base64 & E & T & H).
  unfold onmessage, bind, lift, gets. rewrite E. cbv beta iota. rewrite T.
  destruct (audioContextRef w); [|congruence].
  cbn. destruct (decode base64) as [bytes|e']; cbn in H; [|discriminate].
  rewrite <- H. cbn. unfold start_of, source_start.
  destruct (Math_max (nextStartTimeRef w) (Finite currentTime)) as [| |when];
    cbn; try reflexivity.
  destruct (Qle_bool 0 when); reflexivity.
Qed.

Lemma onmessage_scheduled message currentTime w audioBuffer when :
  chunk_of message = Some (Ret audioBuffer) ->
  audioContextRef w <> None ->
  starts_at w currentTime when ->
  onmessage message currentTime w
  = interruption message (scheduled w when audioBuffer).
Proof.
  intros Hc Hctx [Hs H0].
  rewrite (@onmessage_decoded message currentTime w audioBuffer Hc Hctx), Hs.
  apply Qle_bool_iff in H0. now rewrite H0.
Qed.

Lemma onmessage_cases message currentTime w :
  let w' := state_of (onmessage message currentTime) w in
  (exists es, w' = add_log w es)
  \/ (interrupted_of message = true /\ w' = interrupted_state w)
  \/ w' = with_cursor w (start_of w currentTime)
  \/ w' = not_started w (start_of w currentTime)
  \/ (exists audioBuffer when es,
         starts_at w currentTime when
         /\ w' = add_log (scheduled w when audioBuffer) es)
  \/ (exists audioBuffer when,
         starts_at w currentTime when
         /\ interrupted_of message = true
         /\ w' = interrupted_state (scheduled w when audioBuffer)).
Proof.
  unfold state_of.
  destruct (chunk_of message) as [[audioBuffer|e]|] eqn:Ec.
  - destruct (audioContextRef w) as [ctx|] eqn:Ectx.
    + rewrite (@onmessage_decoded message currentTime w audioBuffer Ec) by congruence.
      destruct (start_of w currentTime) as [| |when] eqn:Es;
        try (cbn [fst]; auto 6).
      destruct (Qle_bool 0 when) eqn:E0; [|cbn [fst]; auto 6].
      assert (Hs : starts_at w currentTime when)
        by (split; [exact Es | now apply Qle_bool_iff]).
      destruct (interruption_cases message (scheduled w when audioBuffer))
        as [[Hi E] | (es & r & E)]; rewrite E; cbn [fst].
      * do 5 right. eauto.
      * do 4 right. left. eauto.
    + rewrite (@onmessage_no_context message currentTime w _ Ec Ectx). left. exists [].
      now rewrite add_log_nil.
  - destruct (audioContextRef w) as [ctx|] eqn:Ectx.
    + rewrite (@onmessage_undecodable message currentTime w e Ec) by congruence. simpl. auto.
    + rewrite (@onmessage_no_context message currentTime w _ Ec Ectx). left. exists [].
      now rewrite add_log_nil.
  - destruct (chunk_of_none _ Ec) as [Hn | [e He]].
    + rewrite (@onmessage_no_audio message currentTime w Hn).
      destruct (interruption_cases message w) as [[Hi E] | (es & r & E)];
        rewrite E; simpl; eauto.
    + rewrite (@onmessage_unreadable message currentTime w e He). left. exists [].
      now rewrite add_log_nil.
Qed.

(** ** Interruption *)

Lemma in_stop_effects s l :
  In s l -> started s -> In (SourceStop (node_id s)) (flat_map stop_effect l).
Proof.
  intros Hin Hs. apply in_flat_map. exists s. split; [exact Hin|].
  unfold stop_effect, started in *. destruct (start_time s); [now left | congruence].
Qed.

(** C3, as the code has it. When [onmessage] receives a message carrying
    the interruption flag and gets as far as its interruption branch (the
    message can be read and carries no audio, or the playback context exists,
    the audio decodes and [start] accepts the time), then whatever the
    playback set and the cursor were, the handler returns, every source that
    was registered has been stopped, the playback set is empty and the cursor
    is zero. *)
Theorem interruption_clears (w : World) (message : LiveServerMessage)
    (currentTime : Q) :
  interrupted_of message = true ->
  Forall started (sourcesRef w) ->
  reaches_interruption w message currentTime ->
  let w' := state_of (onmessage message currentTime) w in
  outcome_of (onmessage message currentTime) w = Ret tt
  /\ sourcesRef w' = []
  /\ nextStartTimeRef w' = Finite 0
  /\ (forall s, In s (sourcesRef w) -> In (SourceStop (node_id s)) (log w')).
Proof.
  intros Hflag Hstarted
    [Hnone | (Hctx & (audioBuffer & Hsome) & (when & Hwhen))];
    unfold state_of, outcome_of.
  - rewrite (@onmessage_no_audio message currentTime w Hnone),
      (@interruption_served message w Hflag Hstarted). simpl.
    repeat split. intros s Hs. apply in_or_app. right.
    rewrite Forall_forall in Hstarted. apply in_stop_effects; auto.
  - rewrite (@onmessage_scheduled message currentTime w audioBuffer when Hsome Hctx Hwhen).
    assert (Hstarted' : Forall started
                          (sourcesRef (scheduled w when audioBuffer))).
    { simpl. apply Forall_app. split; [exact Hstarted|].
      repeat constructor. unfold started; simpl. discriminate. }
    rewrite (@interruption_served message _ Hflag Hstarted'). simpl.
    repeat split. intros s Hs. apply in_or_app. right.
    rewrite flat_map_app. apply in_or_app. left.
    rewrite Forall_forall in Hstarted. apply in_stop_effects; auto.
Qed.

Lemma interruption_clears_witness :
  let w' := state_of (onmessage interruption_message 1) live_playing in
  outcome_of (onmessage interruption_message 1) live_playing = Ret tt
  /\ sourcesRef w' = []
  /\ nextStartTimeRef w' = Finite 0
  /\ (forall s, In s (sourcesRef live_playing) ->
                In (SourceStop (node_id s)) (log w')).
Proof.
  apply interruption_clears.
  - reflexivity.
  - repeat constructor; discriminate.
  - left. exists None. split; reflexivity.
Defined.

(** C3, as stated, fails in three ways. After the session was ended, a
    message carrying both audio and the interruption flag returns at the
    missing playback context and leaves the cursor where it was; in a live
    session, a message whose audio does not decode makes the handler throw
    before the interruption branch, and the registered source stays in the
    set; and so does a message whose model turn has no parts, on which the
    first statement of the handler throws. *)
Lemma interruption_not_served :
  (reachable ended_session
   /\ interrupted_of (audio_message two_frames true) = true
   /\ nextStartTimeRef
        (state_of (onmessage (audio_message two_frames true) 1) ended_session)
      <> Finite 0)
  /\ (reachable live_playing
      /\ interrupted_of (audio_message one_byte true) = true
      /\ sourcesRef
           (state_of (onmessage (audio_message one_byte true) 1) live_playing)
         <> [])
  /\ (interrupted_of turn_without_parts = true
      /\ outcome_of (onmessage turn_without_parts 1) live_playing
         = Throw TypeError
      /\ sourcesRef (state_of (onmessage turn_without_parts 1) live_playing)
         <> []).
Proof.
  split; [|split]; (split; [|split]).
  - exact ended_session_reached.
  - reflexivity.
  - vm_compute. discriminate.
  - exact live_playing_reached.
  - reflexivity.
  - vm_compute. discriminate.
  - reflexivity.
  - vm_compute. reflexivity.
  - vm_compute. discriminate.
Qed.

(** ** The playback schedule *)

(** A decoded chunk has at least one frame, so it lasts. *)
Lemma decodeAudioData_lasts bytes rate b :
  decodeAudioData bytes rate 1 = Ret b -> (0 < seconds b)%Q.
Proof.
  unfold decodeAudioData.
  destruct (Int16Array_of bytes) as [l|e]; cbn [rbind]; [|discriminate].
  rewrite Nat.div_1_r. unfold createBuffer.
  destruct (List.length l) as [|n] eqn:E; cbn [Nat.eqb orb rbind];
    [discriminate|].
  intros [= <-]. unfold seconds, Qlt. cbn [length sampleRate Qnum Qden].
  lia.
Qed.

Lemma chunk_lasts message b : chunk_of message = Some (Ret b) -> (0 < seconds b)%Q.
Proof.
  intros Hc. destruct (chunk_of_some _ Hc) as (encoded & base64 & _ & _ & H).
  destruct (decode base64) as [bytes|e]; simpl in H; [|discriminate].
  eapply decodeAudioData_lasts; eauto.
Qed.

Lemma interruption_log message w :
  exists es, log (state_of (interruption message) w) = log w ++ es.
Proof.
  unfold state_of.
  destruct (interruption_cases message w) as [[_ E] | (es & r & E)];
    rewrite E; cbn [fst]; eexists; reflexivity.
Qed.

Lemma step_scheduled w message currentTime audioBuffer when :
  audioContextRef w <> None ->
  chunk_of message = Some (Ret audioBuffer) ->
  starts_at w currentTime when ->
  state_of (onmessage message currentTime) w
  = state_of (interruption message) (scheduled w when audioBuffer).
Proof.
  intros Hctx Hc Hs. unfold state_of.
  now rewrite (onmessage_scheduled _ Hc Hctx Hs).
Qed.

Lemma scheduled_log w when audioBuffer :
  log (scheduled w when audioBuffer)
  = log w ++ [SourceStart (fresh w) when (duration audioBuffer)].
Proof. reflexivity. Qed.

(** C1, as the code has it. Two audio messages are handled one after the
    other by [onmessage], with no interruption carried by the first, from a
    state whose cursor is a double, the first at a clock reading that is a
    double. The first chunk starts at the larger of the cursor and the clock.
    The second starts at the larger of the end the code computed for the
    first (its start plus its duration, rounded to a double) and the clock
    at its arrival. So the second start is never before that computed end
    nor before the first start; it is that computed end when the clock has
    not passed it, and the clock reading otherwise. *)
Theorem consecutive_chunks (w : World) (m1 m2 : LiveServerMessage)
    (t1 t2 c0 c1 : Q) (b1 b2 : AudioBuffer) :
  audioContextRef w <> None ->
  chunk_of m1 = Some (Ret b1) ->
  chunk_of m2 = Some (Ret b2) ->
  interrupted_of m1 = false ->
  nextStartTimeRef w = Finite c0 ->
  binary64 c0 = Finite c0 ->
  (0 <= t1)%Q ->
  binary64 t1 = Finite t1 ->
  let s1 := later c0 t1 in
  computed_end s1 b1 = Finite c1 ->
  let s2 := later c1 t2 in
  let w2 := run [Message m1 t1; Message m2 t2] w in
  (exists es,
      log w2 = log w ++ SourceStart (fresh w) s1 (duration b1)
                 :: SourceStart (S (fresh w)) s2 (duration b2) :: es)
  /\ nextStartTimeRef (step w (Message m1 t1)) = Finite c1
  /\ (c1 <= s2)%Q
  /\ (s1 <= s2)%Q
  /\ ((t2 <= c1)%Q -> (s2 == c1)%Q)
  /\ ((c1 < t2)%Q -> s2 = t2).
Proof.
  intros Hctx H1 H2 Hflag Hc0 Hd0 Ht1 Hdt1 s1 Hc1 s2 w2.
  assert (H0 : (0 <= s1)%Q)
    by (apply Qle_trans with t1; [exact Ht1 | apply later_ge_r]).
  assert (Hs1 : starts_at w t1 s1).
  { split; [|exact H0]. unfold start_of. rewrite Hc0. apply Math_max_finite. }
  assert (Hd1 : binary64 s1 = Finite s1)
    by (unfold s1, later; now destruct (Qle_bool c0 t1)).
  assert (Hs1c1 : (s1 <= c1)%Q).
  { pose proof (@computed_end_ge s1 b1 H0 Hd1) as H.
    rewrite Hc1 in H. now apply Qle_bool_iff in H. }
  pose proof (later_ge_l c1 t2) as Hl. fold s2 in Hl.
  assert (E1 : state_of (onmessage m1 t1) w = scheduled w s1 b1).
  { rewrite (@step_scheduled w m1 t1 b1 s1 Hctx H1 Hs1).
    unfold state_of. now rewrite (@interruption_absent m1 _ Hflag). }
  split; [|split; [|split; [exact Hl | split; [|split]]]].
  - subst w2.
    change (run [Message m1 t1; Message m2 t2] w)
      with (state_of (onmessage m2 t2) (state_of (onmessage m1 t1) w)).
    rewrite E1.
    assert (Hs2 : starts_at (scheduled w s1 b1) t2 s2).
    { split.
      - unfold start_of. cbn [scheduled nextStartTimeRef]. rewrite Hc1.
        apply Math_max_finite.
      - lra. }
    rewrite (@step_scheduled (scheduled w s1 b1) m2 t2 b2 s2 Hctx H2 Hs2).
    destruct (interruption_log m2 (scheduled (scheduled w s1 b1) s2 b2))
      as [es Hes].
    exists es. rewrite Hes, !scheduled_log, <- !app_assoc. reflexivity.
  - unfold step, handler. rewrite E1. exact Hc1.
  - lra.
  - apply later_left.
  - intros H. apply later_right. lra.
Qed.

Lemma consecutive_chunks_witness :
  let w := live_playing in
  let m := audio_message two_frames false in
  let c0 := (6148914691236517 # 73786976294838206464)%Q in
  let c1 := (6148914691236517 # 36893488147419103232)%Q in
  let s1 := later c0 0 in
  let s2 := later c1 0 in
  let w2 := run [Message m 0; Message m 0] w in
  (exists es,
      log w2 = log w ++ SourceStart (fresh w) s1 (duration two_frames_buffer)
                 :: SourceStart (S (fresh w)) s2 (duration two_frames_buffer)
                 :: es)
  /\ nextStartTimeRef (step w (Message m 0)) = Finite c1
  /\ (c1 <= s2)%Q
  /\ (s1 <= s2)%Q
  /\ ((0 <= c1)%Q -> (s2 == c1)%Q)
  /\ ((c1 < 0)%Q -> s2 = 0%Q).
Proof.
  apply (@consecutive_chunks live_playing (audio_message two_frames false)
           (audio_message two_frames false) 0 0
           (6148914691236517 # 73786976294838206464)
           (6148914691236517 # 36893488147419103232)
           two_frames_buffer two_frames_buffer).
  - discriminate.
  - vm_compute. reflexivity.
  - vm_compute. reflexivity.
  - reflexivity.
  - vm_compute. reflexivity.
  - vm_compute. reflexivity.
  - vm_compute. discriminate.
  - vm_compute. reflexivity.
  - vm_compute. reflexivity.
Defined.

(** C1, as stated, fails in three ways. When the first of two chunks comes
    with the interruption flag, the second starts at the clock reading,
    before the computed end of the first; with no interruption at all, a
    second chunk that arrives after the first has ended starts at the clock
    reading, not at the first start plus the first duration; and a second
    chunk that arrives in time starts at the double nearest to the first
    start plus the first duration, which need not exceed the first start by
    the first duration. *)
Lemma chunk_start_not_previous_end :
  (chunks (log interrupted_then_next)
   = [(0%Q, duration two_frames_buffer); (0%Q, duration two_frames_buffer)]
   /\ number_leb (computed_end 0 two_frames_buffer) (Finite 0) = false)
  /\ (chunks (log late_second_chunk)
      = [(0%Q, duration two_frames_buffer); (1%Q, duration two_frames_buffer)]
      /\ interrupted_of (audio_message two_frames false) = false
      /\ computed_end 0 two_frames_buffer <> Finite 1)
  /\ (chunks (log rounded_chunks)
      = [(clock_reading, Finite (1 # 64));
         ((1131529406376837 # 9007199254740992)%Q,
          duration two_frames_buffer)]
      /\ interrupted_of (audio_message frames_375 false) = false
      /\ ~ ((1131529406376837 # 9007199254740992) - clock_reading
            == 1 # 64)%Q
      /\ ((1131529406376837 # 9007199254740992)
          < clock_reading + (1 # 64))%Q).
Proof.
  split; [|split].
  - split; vm_compute; reflexivity.
  - split; [vm_compute; reflexivity|]. split; [reflexivity|].
    vm_compute. discriminate.
  - split; [vm_compute; reflexivity|]. split; [reflexivity|]. split.
    + intros H. apply Qeq_bool_iff in H. vm_compute in H. discriminate.
    + apply Qlt_alt. vm_compute. reflexivity.
Qed.

Example interrupted_then_next_run :
  interrupted_then_next
  = run (go_live ++ [Message (audio_message two_frames true) 0;
                     Message (audio_message two_frames false) 0]) initial.
Proof. vm_compute. reflexivity. Qed.

Example late_second_chunk_run :
  late_second_chunk
  = run (go_live ++ [Message (audio_message two_frames false) 0;
                     Message (audio_message two_frames false) 1]) initial.
Proof. vm_compute. reflexivity. Qed.

Example rounded_chunks_run :
  rounded_chunks
  = run (go_live ++ [Message (audio_message frames_375 false) clock_reading;
                     Message (audio_message two_frames false) clock_reading])
      initial
  /\ binary64 clock_reading = Finite clock_reading.
Proof. split; vm_compute; reflexivity. Qed.

(** ** The cursor and the playback set, event by event *)

Lemma Forall_filter_keep {A} (P : A -> Prop) f l :
  Forall P l -> Forall P (filter f l).
Proof.
  induction 1 as [|x r Hx _ IH]; simpl; [constructor|].
  destruct (f x); auto.
Qed.

Lemma in_sequence_filter f l : in_sequence l -> in_sequence (filter f l).
Proof.
  induction l as [|a r IH]; simpl; [auto|]. intros [H1 H2].
  destruct (f a); simpl; auto using Forall_filter_keep.
Qed.

Lemma in_sequence_snoc l n :
  in_sequence l -> Forall (fun a => in_order a n) l -> in_sequence (l ++ [n]).
Proof.
  induction l as [|a r IH]; simpl.
  - intros _ _. split; constructor.
  - intros [H1 H2] H. inversion_clear H as [|? ? Ha Hr]. split; auto.
    apply Forall_app. split; [exact H1 | repeat constructor; exact Ha].
Qed.

Lemma in_sequence_ordered l :
  in_sequence l ->
  forall i j a b,
    (i < j)%nat -> nth_error l i = Some a -> nth_error l j = Some b ->
    in_order a b.
Proof.
  induction l as [|x r IH]; intros H i j a b Hij Ha Hb.
  - destruct i; discriminate.
  - destruct H as [H1 H2]. destruct j as [|j]; [lia|]. simpl in Hb.
    destruct i as [|i]; simpl in Ha.
    + injection Ha as ->. apply nth_error_In in Hb.
      rewrite Forall_forall in H1. auto.
    + apply (IH H2 i j); auto. lia.
Qed.

Lemma in_sequence_in_turn l : in_sequence l -> in_turn l.
Proof.
  intros H i j a b Hij Ha Hb.
  destruct (Nat.lt_ge_cases i j) as [Hlt|Hge].
  - left. apply (@in_sequence_ordered l H i j a b Hlt Ha Hb).
  - right. apply (@in_sequence_ordered l H j i b a); auto. lia.
Qed.

Lemma ends_by_mono c c' a :
  number_leb c c' = true -> ends_by c a -> ends_by c' a.
Proof.
  unfold ends_by. destruct (start_time a); cbv beta iota; [|auto].
  intros H1 H2. exact (number_leb_trans _ _ _ H2 H1).
Qed.

Lemma schedule_ok_quiet w w' : quiet_step w w' -> schedule_ok w -> schedule_ok w'.
Proof.
  intros [Hc [f Hf]] (H0 & H1 & H2). unfold schedule_ok. rewrite Hc, Hf.
  auto using in_sequence_filter, Forall_filter_keep.
Qed.

(** The cursor does not go back when a chunk is scheduled. *)
Lemma scheduled_cursor w currentTime when audioBuffer :
  cursor_ok (nextStartTimeRef w) ->
  binary64 currentTime = Finite currentTime ->
  starts_at w currentTime when ->
  binary64 when = Finite when
  /\ number_leb (nextStartTimeRef w) (Finite when) = true
  /\ number_leb (Finite when) (computed_end when audioBuffer) = true.
Proof.
  intros Hc Ht [Hs H0].
  pose proof (cursor_ok_start_of w Hc Ht) as Hk. rewrite Hs in Hk.
  destruct (start_of_finite w currentTime Hs) as (_ & Hle & _).
  repeat split; [exact Hk | exact Hle | now apply computed_end_ge].
Qed.

Lemma schedule_ok_scheduled w currentTime when audioBuffer :
  binary64 currentTime = Finite currentTime ->
  starts_at w currentTime when ->
  schedule_ok w -> schedule_ok (scheduled w when audioBuffer).
Proof.
  intros Ht Hs (H0 & H1 & H2).
  destruct (@scheduled_cursor w currentTime when audioBuffer H0 Ht Hs)
    as (Hd & Hle & Hge).
  unfold schedule_ok. cbn [scheduled sourcesRef nextStartTimeRef].
  split; [apply computed_end_ok | split].
  - apply in_sequence_snoc; [exact H1|].
    eapply Forall_impl; [|exact H2]. intros a Ha.
    unfold in_order, ends_by in *. cbn [start_time].
    destruct (start_time a); cbv beta iota in *; [|exact I].
    exact (number_leb_trans _ _ _ Ha Hle).
  - apply Forall_app. split.
    + eapply Forall_impl; [|exact H2]. intros a. apply ends_by_mono.
      exact (number_leb_trans _ _ _ Hle Hge).
    + repeat constructor. unfold ends_by. cbn [start_time buffer].
      apply number_leb_refl, cursor_ok_not_NaN, computed_end_ok.
Qed.

Lemma schedule_ok_empty w :
  cursor_ok (nextStartTimeRef w) -> sourcesRef w = [] -> schedule_ok w.
Proof. unfold schedule_ok. intros H ->. repeat split; [exact H | constructor]. Qed.

Lemma schedule_ok_message message currentTime w :
  binary64 currentTime = Finite currentTime ->
  schedule_ok w -> schedule_ok (step w (Message message currentTime)).
Proof.
  intros Ht H. unfold step, handler.
  assert (Hk : cursor_ok (start_of w currentTime))
    by (apply cursor_ok_start_of; [apply H | exact Ht]).
  assert (Hle : number_leb (nextStartTimeRef w) (start_of w currentTime) = true).
  { apply Math_max_ge_l; [apply cursor_ok_not_NaN, H | discriminate]. }
  destruct (onmessage_cases message currentTime w)
    as [[es E] | [[_ E] | [E | [E | [(b & when & es & Hs & E)
                                     | (b & when & Hs & _ & E)]]]]];
    rewrite E.
  - exact H.
  - now apply schedule_ok_empty.
  - destruct H as (H0 & H1 & H2). split; [exact Hk | split; [exact H1|]].
    cbn [with_cursor sourcesRef nextStartTimeRef].
    eapply Forall_impl; [|exact H2]. intros a. now apply ends_by_mono.
  - destruct H as (H0 & H1 & H2). split; [exact Hk | split; [exact H1|]].
    cbn [not_started sourcesRef nextStartTimeRef].
    eapply Forall_impl; [|exact H2]. intros a. now apply ends_by_mono.
  - exact (@schedule_ok_scheduled w currentTime when b Ht Hs H).
  - now apply schedule_ok_empty.
Qed.

Lemma cursor_step w ev :
  cursor_ok (nextStartTimeRef w) ->
  clock_ok ev ->
  is_connect ev = false ->
  is_interruption ev = false ->
  number_leb (nextStartTimeRef w) (nextStartTimeRef (step w ev)) = true.
Proof.
  intros Hk Ht Hc Hi. pose proof (quiet_handler ev) as Hq.
  pose proof (@number_leb_refl _ (@cursor_ok_not_NaN _ Hk)) as Hrefl.
  destruct ev; try discriminate Hc;
    try (destruct (Hq w) as [E _]; unfold step, state_of; rewrite E;
         exact Hrefl).
  simpl in Hi, Ht. unfold step, handler.
  assert (Hle : number_leb (nextStartTimeRef w) (start_of w currentTime) = true).
  { apply Math_max_ge_l; [now apply cursor_ok_not_NaN | discriminate]. }
  destruct (onmessage_cases message currentTime w)
    as [[es E] | [[F E] | [E | [E | [(b & when & es & Hs & E)
                                     | (b & when & Hs & F & E)]]]]];
    try congruence; rewrite E; try exact Hrefl; try exact Hle.
  cbn [add_log scheduled nextStartTimeRef].
  destruct (@scheduled_cursor w currentTime when b Hk Ht Hs) as (_ & H1 & H2).
  exact (number_leb_trans _ _ _ H1 H2).
Qed.

Lemma schedule_ok_step w ev :
  clock_ok ev ->
  is_connect ev = false -> schedule_ok w -> schedule_ok (step w ev).
Proof.
  intros Ht Hc H. pose proof (quiet_handler ev) as Hq.
  destruct ev; try discriminate Hc;
    try exact (schedule_ok_quiet (Hq w) H).
  now apply schedule_ok_message.
Qed.

Lemma connect_cursor answer w :
  nextStartTimeRef (step w (Connect answer)) = Finite 0.
Proof.
  unfold step, handler, state_of, connect, bind, try_catch, getUserMedia, lift.
  destruct answer as [stream|e]; cbn -[stopEverything]; [reflexivity|].
  rewrite stopEverything_torn_down. reflexivity.
Qed.

Lemma cursor_ok_step w ev :
  clock_ok ev ->
  cursor_ok (nextStartTimeRef w) -> cursor_ok (nextStartTimeRef (step w ev)).
Proof.
  intros Ht Hk. pose proof (quiet_handler ev) as Hq.
  destruct ev;
    try (destruct (Hq w) as [E _]; unfold step, state_of; rewrite E;
         exact Hk).
  - rewrite connect_cursor. reflexivity.
  - simpl in Ht. unfold step, handler.
    destruct (onmessage_cases message currentTime w)
      as [[es E] | [[_ E] | [E | [E | [(b & when & es & _ & E)
                                       | (b & when & _ & _ & E)]]]]];
      rewrite E; try exact Hk; try reflexivity;
      try (now apply cursor_ok_start_of).
    apply computed_end_ok.
Qed.

Lemma schedule_ok_run w evs :
  Forall clock_ok evs ->
  Forall (fun ev => is_connect ev = false) evs ->
  schedule_ok w -> schedule_ok (run evs w).
Proof.
  intros Ht Hc. revert w Ht.
  induction Hc as [|ev r Hev _ IH]; intros w Ht Hok; [exact Hok|].
  inversion_clear Ht as [|? ? Ht1 Ht2].
  change (run (ev :: r) w) with (run r (step w ev)).
  apply IH; [exact Ht2 | now apply schedule_ok_step].
Qed.

(** C5, as the code has it. Over any sequence of events in which [connect]
    does not run, with clock readings that are doubles, from a state whose
    cursor is a double or an infinity: the cursor never decreases as long as
    no message carries the interruption flag; and if the sources of the
    playback set are in order of the ends the code computed for them (start
    plus duration, rounded to a double), none later than the cursor, they
    still are afterwards, so no two of them overlap by those computed ends.
    (An interruption and [connect] both put the cursor back to zero.) *)
Theorem cursor_monotone_no_overlap (w : World) (evs : list Event) :
  cursor_ok (nextStartTimeRef w) ->
  Forall clock_ok evs ->
  Forall (fun ev => is_connect ev = false) evs ->
  (Forall (fun ev => is_interruption ev = false) evs ->
   number_leb (nextStartTimeRef w) (nextStartTimeRef (run evs w)) = true)
  /\ (in_sequence (sourcesRef w) ->
      Forall (ends_by (nextStartTimeRef w)) (sourcesRef w) ->
      schedule_ok (run evs w) /\ in_turn (sourcesRef (run evs w))).
Proof.
  intros Hk Ht Hc. revert w Hk Ht.
  induction Hc as [|ev r Hev _ IH]; intros w Hk Ht.
  - simpl. split.
    + intros _. now apply number_leb_refl, cursor_ok_not_NaN.
    + intros H1 H2. split; [now split | now apply in_sequence_in_turn].
  - change (run (ev :: r) w) with (run r (step w ev)).
    inversion_clear Ht as [|? ? Ht1 Ht2].
    pose proof (@cursor_ok_step w ev Ht1 Hk) as Hk'.
    destruct (IH (step w ev) Hk' Ht2) as (IH1 & IH2).
    split.
    + intros Hi. inversion_clear Hi as [|? ? Hi1 Hi2].
      eapply number_leb_trans; [|exact (IH1 Hi2)].
      now apply cursor_step.
    + intros H1 H2.
      assert (Hok : schedule_ok w) by now split.
      destruct (@schedule_ok_step w ev Ht1 Hev Hok) as (_ & H1' & H2').
      now apply IH2.
Qed.

Lemma schedule_ok_initial : schedule_ok initial.
Proof. apply schedule_ok_empty; reflexivity. Qed.

(** Teardown leaves the schedule in order. *)
Lemma schedule_ok_stopEverything w :
  cursor_ok (nextStartTimeRef w) -> schedule_ok (step w StopEverything).
Proof.
  intros H. unfold step, handler, state_of.
  rewrite stopEverything_torn_down. now apply schedule_ok_empty.
Qed.

Lemma connect_sources answer w :
  sourcesRef (step w (Connect answer)) = sourcesRef w
  \/ sourcesRef (step w (Connect answer)) = [].
Proof.
  unfold step, handler, state_of, connect, bind, try_catch, getUserMedia, lift.
  destruct answer as [stream|e]; cbn -[stopEverything]; [now left|].
  rewrite stopEverything_torn_down. now right.
Qed.

(** [connect] keeps the schedule in order when it runs on an empty playback
    set, as it does after teardown. *)
Lemma schedule_ok_connect answer w :
  sourcesRef w = [] -> schedule_ok (step w (Connect answer)).
Proof.
  intros H. apply schedule_ok_empty.
  - rewrite connect_cursor. reflexivity.
  - destruct (connect_sources answer w) as [E|E]; rewrite E, ?H; reflexivity.
Qed.

Lemma cursor_monotone_no_overlap_witness :
  let evs := [Message (audio_message two_frames false) 0; ToggleCamera;
              SourceEnded 3; Message (audio_message two_frames false) 1] in
  number_leb (nextStartTimeRef live_playing)
    (nextStartTimeRef (run evs live_playing)) = true
  /\ schedule_ok (run evs live_playing)
  /\ in_turn (sourcesRef (run evs live_playing)).
Proof.
  intros evs.
  destruct (@cursor_monotone_no_overlap live_playing evs) as (H1 & H2).
  - vm_compute. reflexivity.
  - repeat constructor; vm_compute; reflexivity.
  - repeat constructor.
  - split; [apply H1; repeat constructor | apply H2].
    + cbn. repeat constructor.
    + constructor; [|constructor]. vm_compute. reflexivity.
Defined.

(** C5, as stated, fails in three ways. [connect] is not an interruption,
    and after a session in which a chunk was scheduled it puts the cursor
    back to zero. When the transport closes and the user connects again, the
    chunk still in the playback set and the first chunk of the new session
    both start at zero. And within one session, without any interruption, a
    chunk starts at the double nearest to the end of the chunk before it,
    which can be before that end. *)
Lemma schedule_breaks :
  (reachable ended_session
   /\ is_interruption (Connect (Ret capture)) = false
   /\ number_leb (nextStartTimeRef ended_session)
        (nextStartTimeRef (step ended_session (Connect (Ret capture))))
      = false)
  /\ (reachable second_session
      /\ map start_time (sourcesRef second_session) = [Some 0%Q; Some 0%Q]
      /\ ~ no_overlap (sourcesRef second_session))
  /\ (reachable rounded_chunks
      /\ ~ no_overlap (sourcesRef rounded_chunks)).
Proof.
  split; [|split].
  - split; [exact ended_session_reached | split; [reflexivity|]].
    rewrite connect_cursor. vm_compute. reflexivity.
  - split; [|split; [vm_compute; reflexivity|]].
    + assert (E : second_session
                  = run (go_live
                           ++ [Message (audio_message two_frames false) 0;
                               OnClose; Connect (Ret capture);
                               Message (audio_message two_frames false) 0])
                      initial) by (vm_compute; reflexivity).
      rewrite E. apply reachable_run.
    + intros H.
      destruct (sourcesRef second_session) as [|a [|b l]] eqn:E;
        try discriminate E.
      specialize (H 0%nat 1%nat a b ltac:(discriminate) eq_refl eq_refl).
      vm_compute in E. injection E as <- <- _.
      destruct H as [H|H]; unfold before in H; cbn in H;
        apply Qle_bool_iff in H; vm_compute in H; discriminate.
  - split.
    + assert (E : rounded_chunks
                  = run (go_live
                           ++ [Message (audio_message frames_375 false)
                                 clock_reading;
                               Message (audio_message two_frames false)
                                 clock_reading])
                      initial) by (vm_compute; reflexivity).
      rewrite E. apply reachable_run.
    + intros H.
      destruct (sourcesRef rounded_chunks) as [|a [|b l]] eqn:E;
        try discriminate E.
      specialize (H 0%nat 1%nat a b ltac:(discriminate) eq_refl eq_refl).
      vm_compute in E. injection E as <- <- _.
      destruct H as [H|H]; unfold before in H; cbn in H;
        apply Qle_bool_iff in H; vm_compute in H; discriminate.
Qed.

(** ** Reachable states *)

Lemma started_quiet w w' :
  quiet_step w w' -> Forall started (sourcesRef w) -> Forall started (sourcesRef w').
Proof. intros [_ [f ->]]. apply Forall_filter_keep. Qed.

(** Every source of the playback set was started before it was added. *)
Lemma reachable_started w : reachable w -> Forall started (sourcesRef w).
Proof.
  induction 1 as [|w ev _ IH]; [constructor|].
  pose proof (quiet_handler ev) as Hq.
  destruct ev; try exact (started_quiet (Hq w) IH).
  - destruct (connect_sources answer w) as [E|E]; rewrite E;
      [exact IH | constructor].
  - assert (Hs : forall when b,
               Forall started (sourcesRef (scheduled w when b))).
    { intros when b. cbn [scheduled sourcesRef]. apply Forall_app.
      split; [exact IH|]. repeat constructor. unfold started; simpl.
      discriminate. }
    unfold step, handler.
    destruct (onmessage_cases message currentTime w)
      as [[es E] | [[_ E] | [E | [E | [(b & when & es & _ & E)
                                       | (b & when & _ & _ & E)]]]]];
      rewrite E; try exact IH; try constructor.
    exact (Hs when b).
Qed.


(* ================================================================ *)
(** * Further properties *)

(** ** The outbound block, sample by sample *)

Lemma quot_scale n d :
  0 < d -> - d <= n <= d -> -32767 <= Z.quot (n * 32767) d <= 32767.
Proof. intros. Z.quot_rem_to_equations. nia. Qed.

Lemma int16_wrap_id v :
  in_int16 v ->
  (if 32768 <=? v mod 65536 then v mod 65536 - 65536 else v mod 65536) = v.
Proof.
  unfold in_int16. intros.
  destruct (Z.leb_spec 32768 (v mod 65536));
    Z.to_euclidean_division_equations; lia.
Qed.

(** Between [-1] and [1] the clamp keeps the sample, up to its value. *)
Lemma clamp_finite q :
  exists c,
    Math_max (Finite (-1)) (Math_min (Finite 1) (Finite q)) = Finite c
    /\ (-1 <= c <= 1)%Q
    /\ ((-1 <= q <= 1)%Q -> (c == q)%Q).
Proof.
  unfold Math_min, Math_max, number_leb.
  destruct (Qle_bool 1 q) eqn:E1.
  - apply Qle_bool_iff in E1. exists 1%Q. cbn.
    split; [reflexivity|]. split; lra.
  - assert (H1 : (q < 1)%Q).
    { apply Qnot_le_lt. intros H. apply Qle_bool_iff in H. congruence. }
    destruct (Qle_bool (-1) q) eqn:E2.
    + apply Qle_bool_iff in E2. exists q. split; [reflexivity|]. split; lra.
    + assert (H2 : (q < -1)%Q).
      { apply Qnot_le_lt. intros H. apply Qle_bool_iff in H. congruence. }
      exists (-1)%Q. split; [reflexivity|]. split; lra.
Qed.

Lemma toInt16_scaled c :
  (-1 <= c <= 1)%Q ->
  toInt16 (number_mul (Finite c) (Finite 32767))
  = Z.quot (Qnum c * 32767) (Zpos (Qden c))
  /\ in_scale (toInt16 (number_mul (Finite c) (Finite 32767))).
Proof.
  destruct c as [n d]. unfold Qle. cbn [Qnum Qden]. intros [H1 H2].
  unfold number_mul, toInt16, Qmult. cbn [Qnum Qden].
  rewrite Pos.mul_1_r.
  assert (Hb : -32767 <= Z.quot (n * 32767) (Zpos d) <= 32767)
    by (apply quot_scale; lia).
  rewrite int16_wrap_id by (unfold in_int16; lia).
  split; [reflexivity | exact Hb].
Qed.

Lemma sample_int16_in_scale x : in_scale (sample_int16 x).
Proof.
  unfold sample_int16.
  destruct x as [|[|]|q]; try (cbn; unfold in_scale; lia).
  destruct (clamp_finite q) as (c & -> & Hc & _).
  now apply toInt16_scaled.
Qed.

(** X1. Whatever the captured samples are (not-a-number and the infinities
    included), the block [createBlob] fills has one slot per sample and
    every slot lies between [-32767] and [32767]: no store wraps and
    [-32768] never appears. *)
Theorem createBlob_int16_in_scale (data : list number) :
  List.length (createBlob_int16 data) = List.length data
  /\ Forall in_scale (createBlob_int16 data).
Proof.
  rewrite createBlob_int16_map. split; [apply length_map|].
  apply Forall_map, Forall_forall. intros x _. apply sample_int16_in_scale.
Qed.

Lemma quot_toward_zero_nonneg n d :
  0 < d -> 0 <= n -> Z.quot n d * d <= n < (Z.quot n d + 1) * d.
Proof. intros. Z.quot_rem_to_equations. nia. Qed.

Lemma quot_toward_zero_nonpos n d :
  0 < d -> n <= 0 -> (Z.quot n d - 1) * d < n <= Z.quot n d * d.
Proof. intros. Z.quot_rem_to_equations. nia. Qed.

Lemma toInt16_truncates c :
  (-1 <= c <= 1)%Q ->
  let v := toInt16 (number_mul (Finite c) (Finite 32767)) in
  ((0 <= c)%Q -> (inject_Z v <= 32767 * c < inject_Z v + 1)%Q)
  /\ ((c <= 0)%Q -> (inject_Z v - 1 < 32767 * c <= inject_Z v)%Q).
Proof.
  intros Hc v. destruct (toInt16_scaled Hc) as [Hv _].
  fold v in Hv. clearbody v. subst v.
  destruct c as [n d]. cbn [Qnum Qden] in *.
  unfold Qle, Qlt, Qminus, Qplus, Qopp, Qmult, inject_Z in *.
  cbn [Qnum Qden] in *.
  rewrite ?Pos.mul_1_l, ?Pos.mul_1_r.
  assert (Hd : 0 < Z.pos d) by lia.
  split; intros H.
  - pose proof (@quot_toward_zero_nonneg (n * 32767) (Z.pos d) Hd). lia.
  - pose proof (@quot_toward_zero_nonpos (n * 32767) (Z.pos d) Hd). lia.
Qed.

(** X2. A sample between [-1] and [1] is scaled by [32767] and truncated
    toward zero: the stored value is the integer part of [32767 * q], below
    it by less than one for a positive sample and above it by less than one
    for a negative sample. *)
Theorem sample_int16_truncates (q : Q) :
  (-1 <= q <= 1)%Q ->
  let v := sample_int16 (Finite q) in
  ((0 <= q)%Q -> (inject_Z v <= 32767 * q < inject_Z v + 1)%Q)
  /\ ((q <= 0)%Q -> (inject_Z v - 1 < 32767 * q <= inject_Z v)%Q).
Proof.
  intros Hq. unfold sample_int16.
  destruct (clamp_finite q) as (c & -> & Hc & Hcq).
  specialize (Hcq Hq).
  destruct (toInt16_truncates Hc) as [H1 H2].
  cbv zeta. rewrite <- Hcq. split; intros H; [apply H1 | apply H2]; lra.
Qed.

Lemma sample_int16_truncates_witness :
  let v := sample_int16 (Finite (-1 # 3)) in
  v = -10922
  /\ (((-1 # 3) <= 0)%Q ->
      (inject_Z v - 1 < 32767 * (-1 # 3) <= inject_Z v)%Q).
Proof.
  split; [reflexivity|].
  apply (@sample_int16_truncates (-1 # 3)). lra.
Defined.

(** ** The outbound block on the wire *)

Lemma to_N_toUint8 c : Byte.to_N (toUint8 c) = (c mod 256)%N.
Proof.
  unfold toUint8. destruct (Byte.of_N (c mod 256)) as [b|] eqn:E.
  - now apply Byte.to_of_N.
  - apply Byte.of_N_None_iff in E.
    pose proof (N.mod_upper_bound c 256). lia.
Qed.

(** Reading back the two bytes of a slot gives the slot. *)
Lemma int16_of_int16_bytes v :
  in_int16 v ->
  match int16_bytes v with
  | [lo; hi] => int16_of_bytes lo hi = v
  | _ => False
  end.
Proof.
  unfold in_int16, int16_bytes, int16_of_bytes. intros Hv.
  rewrite !to_N_toUint8.
  set (u := Z.to_N (v mod 65536)).
  assert (Hu : Z.of_N u = v mod 65536).
  { unfold u. rewrite Z2N.id; [reflexivity|].
    apply Z.mod_pos_bound. lia. }
  assert (Hlt : (u < 65536)%N).
  { pose proof (Z.mod_pos_bound v 65536). lia. }
  assert (E : (u mod 256 mod 256 + 256 * (u / 256 mod 256) = u)%N) by euclid.
  rewrite E, Hu. now apply int16_wrap_id.
Qed.

Lemma Int16Array_of_int16_bytes l :
  Forall in_int16 l -> Int16Array_of (flat_map int16_bytes l) = Ret l.
Proof.
  induction 1 as [|v r Hv _ IH]; [reflexivity|].
  pose proof (int16_of_int16_bytes Hv) as Hb.
  cbn [flat_map].
  destruct (int16_bytes v) as [|lo [|hi [|]]]; try contradiction.
  cbn [app Int16Array_of]. rewrite IH. cbn [rbind]. now rewrite Hb.
Qed.

Lemma int16_bytes_length l :
  List.length (flat_map int16_bytes l) = (2 * List.length l)%nat.
Proof. induction l as [|v r IH]; cbn; [reflexivity | rewrite IH; lia]. Qed.

(** [decode] undoes [encode], whatever string [encode] returned. *)
Lemma decode_after_encode bytes s : encode bytes = Ret s -> decode s = Ret bytes.
Proof.
  unfold encode. rewrite append_loop. cbn [app].
  destruct (Base64Facts.atob_btoa (fromCharCode_octet bytes)) as (s' & Hs & Hd).
  rewrite Hs. intros [= <-].
  unfold decode. rewrite Hd. cbn [rbind]. f_equal.
  pose proof (@fill_loop _ _ toUint8 0%N (map fromCharCode bytes)
                (map fromCharCode bytes) []
                (repeat x00 (List.length (map fromCharCode bytes)))
                eq_refl (repeat_length _ _)) as Hfill.
  cbn [app map List.length] in Hfill. rewrite Hfill, map_map.
  rewrite <- (map_id bytes) at 2.
  apply map_ext. intros; apply toUint8_fromCharCode.
Qed.

Lemma in_scale_in_int16 v : in_scale v -> in_int16 v.
Proof. unfold in_scale, in_int16. lia. Qed.

(** X3. The payload of [createBlob] is lossless for the block: [createBlob]
    always returns, tagged [audio/pcm;rate=16000], and [decode] of its data
    gives two bytes per sample which, read as 16-bit integers low byte
    first, are exactly the slots the samples were stored to. *)
Theorem createBlob_wire (inputData : list number) :
  exists blob bytes,
    createBlob inputData = Ret blob
    /\ mimeType blob = "audio/pcm;rate=16000"%string
    /\ decode (data blob) = Ret bytes
    /\ List.length bytes = (2 * List.length inputData)%nat
    /\ Int16Array_of bytes = Ret (createBlob_int16 inputData).
Proof.
  assert (Hlen : List.length (createBlob_int16 inputData)
                 = List.length inputData)
    by (rewrite createBlob_int16_map; apply length_map).
  assert (Hrange : Forall in_int16 (createBlob_int16 inputData)).
  { rewrite createBlob_int16_map. apply Forall_map, Forall_forall.
    intros x _. apply in_scale_in_int16, sample_int16_in_scale. }
  unfold createBlob.
  destruct (encode_returns (flat_map int16_bytes (createBlob_int16 inputData)))
    as [s Hs].
  rewrite Hs. cbn [rbind].
  exists {| data := s; mimeType := "audio/pcm;rate=16000" |},
    (flat_map int16_bytes (createBlob_int16 inputData)).
  cbn [data mimeType]. repeat split.
  - now apply decode_after_encode.
  - now rewrite int16_bytes_length, Hlen.
  - now apply Int16Array_of_int16_bytes.
Qed.

(** ** Decoding inbound audio *)

Section ListBy2.
Variable A : Type.
Variable P : list A -> Prop.
Hypothesis P0 : P [].
Hypothesis P1 : forall a, P [a].
Hypothesis P2 : forall a b r, P r -> P (a :: b :: r).

Lemma list_ind_by2 : forall l, P l.
Proof.
  fix IH 1. intros [|a [|b r]].
  - exact P0.
  - apply P1.
  - apply P2, IH.
Qed.
End ListBy2.

Lemma int16_of_bytes_in_int16 lo hi : in_int16 (int16_of_bytes lo hi).
Proof.
  unfold in_int16, int16_of_bytes.
  pose proof (Byte.to_N_bounded lo). pose proof (Byte.to_N_bounded hi).
  destruct (Z.leb_spec 32768 (Z.of_N (Byte.to_N lo + 256 * Byte.to_N hi)));
    lia.
Qed.

(** The 16-bit view of a byte array: one slot per pair of bytes, and a
    [RangeError] when a byte is left over. *)
Lemma Int16Array_of_cases bytes :
  (Nat.even (List.length bytes) = true ->
   exists l, Int16Array_of bytes = Ret l
             /\ List.length bytes = (2 * List.length l)%nat
             /\ Forall in_int16 l)
  /\ (Nat.even (List.length bytes) = false ->
      Int16Array_of bytes = Throw RangeError).
Proof.
  induction bytes as [| a | a b r IH] using list_ind_by2.
  - split; [|discriminate]. intros _. exists []. repeat split. constructor.
  - split; [discriminate | reflexivity].
  - destruct IH as [IH1 IH2].
    change (Nat.even (List.length (a :: b :: r)))
      with (Nat.even (List.length r)).
    change (Int16Array_of (a :: b :: r))
      with (rbind (Int16Array_of r) (fun l => Ret (int16_of_bytes a b :: l))).
    split; intros H.
    + destruct (IH1 H) as (l & -> & Hlen & Hl).
      exists (int16_of_bytes a b :: l). cbn [rbind List.length].
      repeat split; [lia|].
      constructor; [apply int16_of_bytes_in_int16 | exact Hl].
    + now rewrite (IH2 H).
Qed.

(** A loop that fills every slot of an array from its index. *)
Lemma index_loop {B} (g : nat -> B) :
  forall m pre tail,
    List.length tail = m ->
    fold_left (fun arr i => store arr i (g i)) (seq (List.length pre) m)
      (pre ++ tail)
    = pre ++ map g (seq (List.length pre) m).
Proof.
  induction m as [|m IH]; intros pre tail Hlen.
  - destruct tail; [reflexivity | discriminate].
  - destruct tail as [|t tl]; [discriminate|]. cbn [seq fold_left map].
    rewrite store_middle by reflexivity.
    specialize (IH (pre ++ [g (List.length pre)]) tl).
    rewrite length_app, Nat.add_1_r, <- !app_assoc in IH. cbn [app] in IH.
    apply IH. now injection Hlen.
Qed.

Lemma nth_repeat_below {B} (x d : B) n c : (c < n)%nat -> nth c (repeat x n) d = x.
Proof.
  revert c; induction n as [|n IH]; intros c Hc; [lia|].
  destruct c; cbn; [reflexivity | apply IH; lia].
Qed.

(** What [decodeAudioData] returns when it returns: channel [c] holds, at
    frame [i], slot [i * numChannels + c] divided by [32768]. *)
Lemma decodeAudioData_returns bytes rate numChannels dataInt16 :
  Int16Array_of bytes = Ret dataInt16 ->
  numChannels <> O ->
  (List.length dataInt16 / numChannels)%nat <> O ->
  decodeAudioData bytes rate numChannels
  = Ret {| numberOfChannels := numChannels;
           length := (List.length dataInt16 / numChannels)%nat;
           sampleRate := rate;
           channelData :=
             map (fun channel =>
                    map (fun i =>
                           (inject_Z
                              (nth (i * numChannels + channel)%nat dataInt16 0%Z)
                            / 32768)%Q)
                        (seq 0 (List.length dataInt16 / numChannels)))
                 (seq 0 numChannels) |}.
Proof.
  intros H16 Hnc Hfc. unfold decodeAudioData. rewrite H16. cbn [rbind].
  unfold createBuffer.
  destruct (Nat.eqb_spec numChannels 0) as [|_]; [contradiction|].
  destruct (Nat.eqb_spec (List.length dataInt16 / numChannels) 0) as [|_];
    [contradiction|].
  cbn [orb rbind numberOfChannels length sampleRate channelData].
  f_equal. f_equal. apply map_ext_in. intros channel Hc.
  apply in_seq in Hc. rewrite nth_repeat_below by lia.
  exact (@index_loop Q _ _ [] (repeat 0%Q _) (repeat_length _ _)).
Qed.

Lemma nth_map_seq {B} (g : nat -> B) n i d : (i < n)%nat -> nth i (map g (seq 0 n)) d = g i.
Proof.
  intros Hi. rewrite (nth_indep _ d (g O)) by (now rewrite length_map, length_seq).
  rewrite (map_nth g (seq 0 n) O i), seq_nth by exact Hi. reflexivity.
Qed.

Lemma nth_in_int16 l k : Forall in_int16 l -> in_int16 (nth k l 0).
Proof.
  intros H. destruct (Nat.lt_ge_cases k (List.length l)) as [Hk|Hk].
  - rewrite Forall_forall in H. apply H, nth_In, Hk.
  - rewrite nth_overflow by exact Hk. unfold in_int16. lia.
Qed.

Lemma int16_sample_range v : in_int16 v -> (-1 <= inject_Z v / 32768 < 1)%Q.
Proof.
  unfold in_int16, Qdiv, Qmult, Qinv, Qle, Qlt, inject_Z.
  cbn [Qnum Qden]. lia.
Qed.



(** X5. When [decodeAudioData] returns a buffer, the buffer de-interleaves
    the 16-bit view of the input: frame [i] of channel [c] is slot
    [i * numChannels + c] divided by [32768], and it lies in [-1, 1). *)
Theorem decodeAudioData_samples (bytes : list byte) (rate : positive)
    (numChannels : nat) (b : AudioBuffer) :
  decodeAudioData bytes rate numChannels = Ret b ->
  exists dataInt16,
    Int16Array_of bytes = Ret dataInt16
    /\ forall c i,
        (c < numChannels)%nat -> (i < length b)%nat ->
        let sample := nth i (nth c (channelData b) []) 0%Q in
        sample
        = (inject_Z (nth (i * numChannels + c)%nat dataInt16 0%Z) / 32768)%Q
        /\ (-1 <= sample < 1)%Q.
Proof.
  intros Hb. destruct (Int16Array_of_cases bytes) as [Heven Hodd].
  destruct (Nat.even (List.length bytes)) eqn:E.
  2:{ unfold decodeAudioData in Hb. rewrite (Hodd eq_refl) in Hb.
      discriminate Hb. }
  destruct (Heven eq_refl) as (l & Hl & _ & Hrange).
  exists l. split; [exact Hl|].
  assert (Hnc : numChannels <> O /\ (List.length l / numChannels)%nat <> O).
  { unfold decodeAudioData, createBuffer in Hb. rewrite Hl in Hb.
    cbn [rbind] in Hb.
    destruct (Nat.eqb_spec numChannels 0); [discriminate Hb|].
    destruct (Nat.eqb_spec (List.length l / numChannels) 0);
      [discriminate Hb | split; assumption]. }
  destruct Hnc as [Hn Hf].
  rewrite (@decodeAudioData_returns bytes rate numChannels l Hl Hn Hf) in Hb.
  injection Hb as <-. cbn [length channelData]. intros c i Hc Hi.
  cbv zeta. rewrite (nth_map_seq _ [] Hc), (nth_map_seq _ 0%Q Hi).
  split; [reflexivity|].
  apply int16_sample_range, nth_in_int16, Hrange.
Qed.

Lemma decodeAudioData_samples_witness :
  exists dataInt16,
    Int16Array_of [x00; x40; x00; xc0] = Ret dataInt16
    /\ forall c i,
        (c < 1)%nat -> (i < length two_frames_buffer)%nat ->
        let sample := nth i (nth c (channelData two_frames_buffer) []) 0%Q in
        sample = (inject_Z (nth (i * 1 + c)%nat dataInt16 0%Z) / 32768)%Q
        /\ (-1 <= sample < 1)%Q.
Proof.
  apply (@decodeAudioData_samples [x00; x40; x00; xc0] 24000 1).
  reflexivity.
Defined.




(** ** The life of a session *)



(** X9. After teardown the producers and the consumer are inert: an audio
    block, a frame tick, a finished frame encoding and a message carrying
    audio all return at once, without changing the state and without any
    call on the platform, whatever the platform would have answered. *)
Theorem inert_after_stopEverything (w : World) (sessionPromise : nat)
    (inputData : list number) (delivery : result unit)
    (canvasEl hidden : bool) (videoEl : option (N * N)) (context2d : bool)
    (blob : option jsstring) (message : LiveServerMessage) (currentTime : Q) :
  let w0 := state_of stopEverything w in
  onaudioprocess sessionPromise inputData delivery w0 = (w0, Ret tt)
  /\ onframe canvasEl hidden videoEl context2d w0 = (w0, Ret tt)
  /\ onblob sessionPromise blob delivery w0 = (w0, Ret tt)
  /\ (chunk_of message <> None ->
      onmessage message currentTime w0 = (w0, Ret tt)).
Proof.
  unfold state_of. rewrite stopEverything_torn_down. cbn [fst].
  split; [reflexivity|]. split; [|split].
  - unfold onframe, bind, gets. cbn [fst snd torn_down sessionRef].
    now rewrite orb_true_r.
  - unfold onblob. destruct blob; reflexivity.
  - intros H. destruct (chunk_of message) as [r|] eqn:E; [|congruence].
    now apply (onmessage_no_context _ currentTime _ E).
Qed.

Lemma inert_after_stopEverything_witness :
  onmessage (audio_message two_frames false) 1
    (state_of stopEverything live_playing)
  = (state_of stopEverything live_playing, Ret tt).
Proof.
  apply (@inert_after_stopEverything live_playing O [] (Ret tt) true false
           None true None (audio_message two_frames false) 1).
  vm_compute. discriminate.
Defined.

(** X10. The two failure callbacks of the transport, [onerror] and the
    rejection of the session promise, write one line on the console, set
    their own message as the error and then do the whole teardown: what was
    to be released is released, in order, and nothing is left to release. *)
Theorem transport_failure_tears_down (w : World) :
  let w1 := state_of onerror w in
  let w2 := state_of sessionRejected w in
  (error w1 = Some connection_error
   /\ log w1 = log w ++ ConsoleError "Live API Error" :: releases w
   /\ releases w1 = [] /\ connected w1 = false
   /\ status w1 = "Disconnected"%string
   /\ outcome_of onerror w = Ret tt)
  /\ (error w2 = Some connect_failed
      /\ log w2 = log w ++ ConsoleError "Connection failed" :: releases w
      /\ releases w2 = [] /\ connected w2 = false
      /\ status w2 = "Disconnected"%string
      /\ outcome_of sessionRejected w = Ret tt).
Proof.
  unfold state_of, outcome_of, onerror, sessionRejected, bind.
  cbn -[stopEverything]. rewrite !stopEverything_torn_down.
  cbn [fst snd]. unfold torn_down, releases.
  cbn [error log connected status streamRef frameIntervalRef
         inputAudioContextRef audioContextRef sourcesRef].
  rewrite <- !app_assoc. repeat split.
Qed.

(** ** The camera *)

Lemma toggle_tracks (newStatus : bool) l :
  map track_id (map (with_video_enabled newStatus) l) = map track_id l
  /\ filter (fun t => negb (is_video t)) (map (with_video_enabled newStatus) l)
     = filter (fun t => negb (is_video t)) l
  /\ filter is_video (map (with_video_enabled newStatus) l)
     = map (with_video_enabled newStatus) (filter is_video l)
  /\ Forall (fun t => enabled t = newStatus)
       (filter is_video (map (with_video_enabled newStatus) l)).
Proof.
  induction l as [|t r (IH1 & IH2 & IH3 & IH4)];
    [repeat split; constructor|].
  rewrite IH3 in IH4.
  destruct t as [id [|] en]; cbn; rewrite ?IH1, ?IH2, ?IH3;
    repeat split; auto.
Qed.

(** X11. [toggleCamera] flips the camera in place. With a stream that has a
    video track, every video track gets the negation of the first one's
    [enabled] state, which also becomes the camera-enabled flag and
    [isCameraActive]; the order and identity of the tracks and the audio
    tracks are unchanged. Without a stream or without a video track nothing
    changes. In all cases no call is made on the platform and the session,
    the contexts, the cursor and the playback set are untouched. *)
Theorem toggleCamera_flips (w : World) :
  let w' := state_of toggleCamera w in
  outcome_of toggleCamera w = Ret tt
  /\ log w' = log w /\ sessionRef w' = sessionRef w
  /\ audioContextRef w' = audioContextRef w
  /\ inputAudioContextRef w' = inputAudioContextRef w
  /\ sourcesRef w' = sourcesRef w
  /\ nextStartTimeRef w' = nextStartTimeRef w
  /\ frameIntervalRef w' = frameIntervalRef w
  /\ match streamRef w with
     | Some st =>
         match hd_error (getVideoTracks st) with
         | Some first =>
             exists st',
               streamRef w' = Some st'
               /\ map track_id (tracks st') = map track_id (tracks st)
               /\ audio_tracks st' = audio_tracks st
               /\ Forall (fun t => enabled t = negb (enabled first))
                    (getVideoTracks st')
               /\ camera_enabled w' = negb (enabled first)
               /\ isCameraActive w' = negb (enabled first)
         | None => w' = w
         end
     | None => w' = w
     end.
Proof.
  unfold state_of, outcome_of, toggleCamera, bind, gets. cbn [fst snd].
  destruct (streamRef w) as [st|] eqn:Est; [|repeat split].
  unfold getVideoTracks.
  destruct (filter is_video (tracks st)) as [|first r] eqn:Ev;
    [repeat split|].
  cbn. repeat (split; [reflexivity|]).
  destruct (toggle_tracks (negb (enabled first)) (tracks st))
    as (H1 & H2 & H3 & H4).
  exists {| tracks := map (with_video_enabled (negb (enabled first)))
                        (tracks st) |}.
  split; [reflexivity|]. unfold audio_tracks, getVideoTracks. cbn [tracks].
  split; [exact H1|]. split; [exact H2|]. split; [exact H4|].
  split; [|reflexivity].
  unfold camera_enabled, getVideoTracks. cbn [streamRef tracks].
  change (map _ (tracks st))
    with (map (with_video_enabled (negb (enabled first))) (tracks st)).
  rewrite H3, Ev. cbn [map hd_error].
  assert (Hf : is_video first = true).
  { assert (Hin : In first (filter is_video (tracks st)))
      by (rewrite Ev; now left).
    now apply filter_In in Hin. }
  unfold with_video_enabled. now rewrite Hf.
Qed.

(** X12. A frame tick never throws and only ever calls the canvas. It does
    so exactly when the page is visible, the session reference is set, the
    camera is enabled, the canvas and its 2d context exist and the video
    element is mounted with a non-zero width; it then draws the frame at a
    quarter of the video size, rounded down, and asks for a JPEG of quality
    0.6. It never sends by itself. *)
Theorem onframe_acts_when_ready (w : World) (canvasEl hidden : bool)
    (videoEl : option (N * N)) (context2d : bool) :
  let ready :=
    hidden = false /\ sessionRef w <> None /\ camera_enabled w = true
    /\ canvasEl = true /\ context2d = true
    /\ exists videoWidth videoHeight,
        videoEl = Some (videoWidth, videoHeight) /\ videoWidth <> 0%N in
  (exists es,
      onframe canvasEl hidden videoEl context2d w = (add_log w es, Ret tt)
      /\ Forall is_canvas_call es
      /\ (es <> [] -> ready))
  /\ (forall videoWidth videoHeight,
         videoEl = Some (videoWidth, videoHeight) ->
         ready ->
         onframe canvasEl hidden videoEl context2d w
         = (add_log w [DrawImage (videoWidth / 4) (videoHeight / 4);
                       CanvasToBlob "image/jpeg" (6 # 10)], Ret tt)
           /\ (4 * (videoWidth / 4) <= videoWidth)%N).
Proof.
  cbv zeta. unfold camera_enabled, onframe, bind, gets. cbn [fst snd].
  split.
  - destruct hidden; cbn [orb].
    { exists []. rewrite add_log_nil.
      split; [reflexivity | split; [constructor | congruence]]. }
    destruct (sessionRef w) as [session|].
    2:{ exists []. rewrite add_log_nil.
      split; [reflexivity | split; [constructor | congruence]]. }
    destruct (streamRef w) as [st|].
    2:{ exists []. rewrite add_log_nil.
      split; [reflexivity | split; [constructor | congruence]]. }
    destruct (hd_error (getVideoTracks st)) as [track|].
    2:{ exists []. rewrite add_log_nil.
      split; [reflexivity | split; [constructor | congruence]]. }
    destruct (enabled track); cbn [negb].
    2:{ exists []. rewrite add_log_nil.
      split; [reflexivity | split; [constructor | congruence]]. }
    destruct videoEl as [[videoWidth videoHeight]|].
    2:{ exists []. rewrite add_log_nil.
      split; [reflexivity | split; [constructor | congruence]]. }
    destruct canvasEl; cbn [negb orb].
    2:{ exists []. rewrite add_log_nil.
      split; [reflexivity | split; [constructor | congruence]]. }
    destruct (N.eqb_spec videoWidth 0).
    { exists []. rewrite add_log_nil.
      split; [reflexivity | split; [constructor | congruence]]. }
    destruct context2d; cbn [negb].
    2:{ exists []. rewrite add_log_nil.
      split; [reflexivity | split; [constructor | congruence]]. }
    exists [DrawImage (videoWidth / 4) (videoHeight / 4);
            CanvasToBlob "image/jpeg" (6 # 10)].
    split; [rewrite emit_add_log; cbv beta iota;
            rewrite emit_add_log, add_log_app; reflexivity|].
    split; [repeat constructor|].
    intros _. repeat split; try congruence. eauto.
  - intros videoWidth videoHeight -> (-> & Hs & Hc & -> & -> & vw & vh & [= <- <-] & Hw).
    destruct (sessionRef w); [|congruence]. cbn [orb].
    destruct (streamRef w) as [st|]; [|discriminate].
    destruct (hd_error (getVideoTracks st)) as [track|]; [|discriminate].
    rewrite Hc. cbn [negb orb].
    destruct (N.eqb_spec videoWidth 0); [contradiction|].
    split; [|euclid].
    rewrite emit_add_log; cbv beta iota.
    rewrite emit_add_log, add_log_app. reflexivity.
Qed.

Lemma onframe_acts_when_ready_witness :
  onframe true false (Some (641, 480)%N) true live_playing
  = (add_log live_playing
       [DrawImage (641 / 4) (480 / 4); CanvasToBlob "image/jpeg" (6 # 10)],
     Ret tt)
  /\ (4 * (641 / 4) <= 641)%N.
Proof.
  apply (proj2 (@onframe_acts_when_ready live_playing true false
                  (Some (641, 480)%N) true) 641%N 480%N eq_refl).
  repeat split; try discriminate. exists 641%N, 480%N. split; [reflexivity|].
  discriminate.
Defined.

(** ** Switching the camera *)

Ltac switch_cases st videoEl playAnswer Enew Ha :=
  let Eold := fresh "Eold" in
  unfold swapped in Ha;
  destruct (hd_error (getVideoTracks st)) as [?|] eqn:Eold;
  destruct videoEl; destruct playAnswer as [[]|?];
  unfold run, uninterrupted_switch, switch_calls, granted, fold_left, app,
    step, handler, state_of, switchCamera, switchCamera_exact,
    switchCamera_relaxed, switchCamera_swap, switchCamera_failed,
    switchCamera_played, track_stop, swapped, bind, try_catch, gets, lift;
  cbn; rewrite ?Enew, ?Eold; cbn; rewrite ?Eold; cbn;
  rewrite <- ?app_assoc; cbn [app]; repeat split.

(** X21. A camera switch that no other handler interrupts, on a stream
    with distinct tracks. The calls it makes on the platform are exactly:
    the exact request for the opposite facing mode; when that is rejected, a
    console line and the relaxed request; when a track is granted, one
    [stop] on the old video track, if there is one, and no other track, and
    [play()] on the mounted video element, with a console line should it
    fail; when both requests are rejected, one console error. The
    session, the contexts, the cursor, the playback set and the frame
    interval are untouched. When a track is granted it replaces the old
    video track on the stream, whose audio tracks stay, the facing mode
    becomes the opposite one, the camera is active and the error state is
    left as it was; when both requests are rejected the error is set and the
    stream and the facing mode are unchanged. *)
Theorem switchCamera_uninterrupted (w : World) (st : MediaStream)
    (exactAnswer relaxedAnswer : result MediaStream) (videoEl : bool)
    (playAnswer : result unit) :
  streamRef w = Some st ->
  NoDup (map track_id (tracks st)) ->
  grants_video exactAnswer ->
  grants_video relaxedAnswer ->
  let target := opposite (facingMode w) in
  let w' :=
    run (uninterrupted_switch w exactAnswer relaxedAnswer videoEl playAnswer)
      w in
  log w'
  = log w
      ++ switch_calls st target exactAnswer relaxedAnswer videoEl playAnswer
  /\ sessionRef w' = sessionRef w
  /\ audioContextRef w' = audioContextRef w
  /\ inputAudioContextRef w' = inputAudioContextRef w
  /\ nextStartTimeRef w' = nextStartTimeRef w
  /\ sourcesRef w' = sourcesRef w
  /\ frameIntervalRef w' = frameIntervalRef w
  /\ connected w' = connected w
  /\ status w' = status w
  /\ match granted exactAnswer relaxedAnswer with
     | Some new =>
         streamRef w' = Some (swapped st new)
         /\ audio_tracks (swapped st new) = audio_tracks st
         /\ facingMode w' = target
         /\ isCameraActive w' = true
         /\ error w' = error w
     | None =>
         (exists e1 e2, exactAnswer = Throw e1 /\ relaxedAnswer = Throw e2)
         /\ streamRef w' = Some st
         /\ facingMode w' = facingMode w
         /\ isCameraActive w' = isCameraActive w
         /\ error w' = Some switch_error
     end.
Proof.
  intros Hst Hnd Hexact Hrelaxed.
  destruct w as [c ca fm sta er se ac ic nx so sr fi fr lg].
  simpl in Hst. subst sr.
  destruct exactAnswer as [ns|e1]; [|destruct relaxedAnswer as [ns|e2]].
  - destruct (granted_first Hexact) as [new Enew].
    pose proof (@swapped_audio_tracks st new Hnd
                  (proj2 (@first_video_track ns new Enew))) as Ha.
    switch_cases st videoEl playAnswer Enew Ha; exact Ha.
  - destruct (granted_first Hrelaxed) as [new Enew].
    pose proof (@swapped_audio_tracks st new Hnd
                  (proj2 (@first_video_track ns new Enew))) as Ha.
    switch_cases st videoEl playAnswer Enew Ha; exact Ha.
  - unfold run, uninterrupted_switch, switch_calls, granted, fold_left, app,
      step, handler, state_of, switchCamera, switchCamera_exact,
      switchCamera_relaxed, switchCamera_failed, bind, try_catch, gets, lift.
    cbn. rewrite <- ?app_assoc. cbn [app]. repeat split. eauto.
Qed.

Lemma switchCamera_uninterrupted_witness :
  let w' :=
    run (uninterrupted_switch live_playing overconstrained rear_capture true
           (Ret tt)) live_playing in
  log w'
  = log live_playing
      ++ [GetUserMedia false true environment;
          ConsoleLog "Exact facing mode failed, falling back to ideal";
          GetUserMedia false false environment; TrackStop 101; VideoPlay]
  /\ streamRef w' = Some {| tracks := [microphone; back_camera] |}
  /\ facingMode w' = environment
  /\ error w' = None.
Proof.
  destruct (@switchCamera_uninterrupted live_playing capture overconstrained
              rear_capture true (Ret tt))
    as (Hlog & _ & _ & _ & _ & _ & _ & _ & _ & Hs & _ & Hf & _ & He).
  - reflexivity.
  - repeat constructor; simpl; intuition discriminate.
  - exact I.
  - simpl. discriminate.
  - split; [exact Hlog | split; [exact Hs | split; [exact Hf | exact He]]].
Defined.

(** ** Scheduling one chunk *)

(** X13. A chunk is never scheduled in the past. When the cursor is a
    finite time and [onmessage] decodes the audio of a message, it asks the
    new source to start at the larger of the cursor and the clock reading,
    which is at least the clock reading; a cursor that lags behind the clock
    (as after the reset to zero of an interruption or of [connect]) gives
    the clock reading itself. Without the interruption flag the cursor then
    stands at the double nearest to that start plus the chunk's duration,
    and the source is the last one of the playback set. *)
Theorem chunk_not_in_the_past (w : World) (message : LiveServerMessage)
    (currentTime c : Q) (b : AudioBuffer) :
  audioContextRef w <> None ->
  chunk_of message = Some (Ret b) ->
  nextStartTimeRef w = Finite c ->
  (0 <= currentTime)%Q ->
  let when := later c currentTime in
  let w' := state_of (onmessage message currentTime) w in
  (exists es, log w' = log w ++ SourceStart (fresh w) when (duration b) :: es)
  /\ (currentTime <= when)%Q
  /\ (c <= when)%Q
  /\ ((c <= currentTime)%Q -> when = currentTime)
  /\ (interrupted_of message = false ->
      nextStartTimeRef w' = number_add (Finite when) (duration b)
      /\ sourcesRef w'
         = sourcesRef w
             ++ [{| node_id := fresh w; buffer := b; start_time := Some when |}]).
Proof.
  intros Hctx Hb Hc H0 when w'. subst w'.
  assert (Hs : starts_at w currentTime when).
  { split.
    - unfold start_of, when, later. rewrite Hc. cbn.
      destruct (Qle_bool c currentTime); reflexivity.
    - apply Qle_trans with currentTime; [exact H0 | apply later_ge_r]. }
  rewrite (@step_scheduled w message currentTime b when Hctx Hb Hs).
  split; [|split; [|split; [|split]]].
  - destruct (interruption_log message (scheduled w when b)) as [es Hes].
    exists es. rewrite Hes, scheduled_log, <- app_assoc. reflexivity.
  - apply later_ge_r.
  - apply later_ge_l.
  - intros H. now apply later_right.
  - intros Hflag. unfold state_of.
    rewrite (@interruption_absent message _ Hflag). split; reflexivity.
Qed.

Lemma chunk_not_in_the_past_witness :
  let w := state_of (onmessage interruption_message 5) live_playing in
  let when := later 0 7 in
  let w' := state_of (onmessage (audio_message two_frames false) 7) w in
  (exists es,
      log w' = log w ++ SourceStart (fresh w) when (duration two_frames_buffer)
                 :: es)
  /\ (7 <= when)%Q
  /\ (0 <= when)%Q
  /\ ((0 <= 7)%Q -> when = 7%Q)
  /\ (interrupted_of (audio_message two_frames false) = false ->
      nextStartTimeRef w'
      = number_add (Finite when) (duration two_frames_buffer)
      /\ sourcesRef w'
         = sourcesRef w
             ++ [{| node_id := fresh w; buffer := two_frames_buffer;
                    start_time := Some when |}]).
Proof.
  apply (@chunk_not_in_the_past
           (state_of (onmessage interruption_message 5) live_playing)
           (audio_message two_frames false) 7 0 two_frames_buffer).
  - vm_compute. discriminate.
  - vm_compute. reflexivity.
  - vm_compute. reflexivity.
  - vm_compute. discriminate.
Defined.

(** ** The schedule of a session *)

(** X22. In a session that [connect] starts on an empty playback set (the
    first one, or one that follows a teardown), whatever events follow short
    of another [connect], with clock readings that are doubles: the cursor is
    a double or an infinity, every source of the playback set starts no
    earlier than the end the code computed for each source registered before
    it, and none of these ends is after the cursor. *)
Theorem session_schedule_in_order (w : World) (answer : result MediaStream)
    (evs : list Event) :
  sourcesRef w = [] ->
  Forall clock_ok evs ->
  Forall (fun ev => is_connect ev = false) evs ->
  let w' := run (Connect answer :: evs) w in
  cursor_ok (nextStartTimeRef w')
  /\ in_sequence (sourcesRef w')
  /\ Forall (ends_by (nextStartTimeRef w')) (sourcesRef w')
  /\ in_turn (sourcesRef w').
Proof.
  intros Hw Ht Hc w'.
  assert (Hok : schedule_ok w').
  { unfold w'. rewrite run_cons.
    apply schedule_ok_run; [exact Ht | exact Hc |].
    apply schedule_ok_connect. exact Hw. }
  destruct Hok as (H0 & H1 & H2).
  split; [exact H0 | split; [exact H1 | split; [exact H2|]]].
  apply in_sequence_in_turn. exact H1.
Qed.

Lemma session_schedule_in_order_witness :
  let w' :=
    run (Connect (Ret capture)
           :: [OnOpen {| context_id := 0; context_rate := 16000 |} 1%positive;
               Message (audio_message frames_375 false) clock_reading;
               Message (audio_message two_frames false) clock_reading])
      initial in
  cursor_ok (nextStartTimeRef w')
  /\ in_sequence (sourcesRef w')
  /\ Forall (ends_by (nextStartTimeRef w')) (sourcesRef w')
  /\ in_turn (sourcesRef w').
Proof.
  apply (@session_schedule_in_order initial (Ret capture)
           [OnOpen {| context_id := 0; context_rate := 16000 |} 1%positive;
            Message (audio_message frames_375 false) clock_reading;
            Message (audio_message two_frames false) clock_reading]).
  - reflexivity.
  - constructor; [exact I|].
    constructor; [vm_compute; reflexivity|].
    constructor; [vm_compute; reflexivity | constructor].
  - repeat constructor.
Defined.

(** ** What handlers call *)

Section Calls.
Variable P : Effect -> Prop.

Lemma appends_refl w : appends P w w.
Proof.
  split; [lia|]. exists []. split; [now rewrite app_nil_r | constructor].
Qed.

Lemma appends_trans w1 w2 w3 :
  appends P w1 w2 -> appends P w2 w3 -> appends P w1 w3.
Proof.
  intros [H1 (es1 & E1 & F1)] [H2 (es2 & E2 & F2)]. split; [lia|].
  exists (es1 ++ es2). split.
  - now rewrite E2, E1, app_assoc.
  - apply Forall_app. now split.
Qed.

Lemma only_calls_ret {A} (a : A) : only_calls P (ret a).
Proof. intros w; apply appends_refl. Qed.

Lemma only_calls_throw {A} e : only_calls P (@throw A e).
Proof. intros w; apply appends_refl. Qed.

Lemma only_calls_lift {A} (r : result A) : only_calls P (lift r).
Proof. intros w; apply appends_refl. Qed.

Lemma only_calls_gets {A} (f : World -> A) : only_calls P (gets f).
Proof. intros w; apply appends_refl. Qed.

Lemma only_calls_bind {A B} (c : M A) (k : A -> M B) :
  only_calls P c -> (forall a, only_calls P (k a)) -> only_calls P (bind c k).
Proof.
  intros Hc Hk w. unfold bind. specialize (Hc w).
  destruct (c w) as [w' [a|e]]; cbn [fst] in *; [|exact Hc].
  eapply appends_trans; [exact Hc | apply Hk].
Qed.

Lemma only_calls_try_catch {A} (c : M A) (h : exn -> M A) :
  only_calls P c -> (forall e, only_calls P (h e)) ->
  only_calls P (try_catch c h).
Proof.
  intros Hc Hh w. unfold try_catch. specialize (Hc w).
  destruct (c w) as [w' [a|e]]; cbn [fst] in *; [exact Hc|].
  eapply appends_trans; [exact Hc | apply Hh].
Qed.

Lemma only_calls_forEach {A} (l : list A) (f : A -> M unit) :
  (forall x, only_calls P (f x)) -> only_calls P (forEach l f).
Proof.
  intros Hf. induction l as [|x r IH]; cbn [forEach].
  - apply only_calls_ret.
  - apply only_calls_bind; auto.
Qed.

Lemma only_calls_modify (f : World -> World) :
  (forall w, log (f w) = log w) ->
  (forall w, fresh (f w) = fresh w) ->
  only_calls P (modify f).
Proof.
  intros H1 H2 w. unfold modify. cbn [fst]. split; [rewrite H2; lia|].
  exists []. rewrite H1, app_nil_r. split; [reflexivity | constructor].
Qed.

Lemma only_calls_emit e : P e -> only_calls P (emit e).
Proof.
  intros He w. split; [cbn; lia|]. exists [e]. split; [reflexivity|].
  repeat constructor. exact He.
Qed.

Lemma only_calls_new_id : only_calls P new_id.
Proof.
  intros w. split; [cbn; lia|]. exists []. cbn.
  split; [now rewrite app_nil_r | constructor].
Qed.

Lemma only_calls_setConnected v : only_calls P (setConnected v).
Proof. now apply only_calls_modify. Qed.
Lemma only_calls_setIsCameraActive v : only_calls P (setIsCameraActive v).
Proof. now apply only_calls_modify. Qed.
Lemma only_calls_setFacingMode v : only_calls P (setFacingMode v).
Proof. now apply only_calls_modify. Qed.
Lemma only_calls_setStatus v : only_calls P (setStatus v).
Proof. now apply only_calls_modify. Qed.
Lemma only_calls_setError v : only_calls P (setError v).
Proof. now apply only_calls_modify. Qed.
Lemma only_calls_set_sessionRef v : only_calls P (set_sessionRef v).
Proof. now apply only_calls_modify. Qed.
Lemma only_calls_set_audioContextRef v : only_calls P (set_audioContextRef v).
Proof. now apply only_calls_modify. Qed.
Lemma only_calls_set_inputAudioContextRef v :
  only_calls P (set_inputAudioContextRef v).
Proof. now apply only_calls_modify. Qed.
Lemma only_calls_set_nextStartTimeRef v : only_calls P (set_nextStartTimeRef v).
Proof. now apply only_calls_modify. Qed.
Lemma only_calls_set_sourcesRef v : only_calls P (set_sourcesRef v).
Proof. now apply only_calls_modify. Qed.
Lemma only_calls_set_streamRef v : only_calls P (set_streamRef v).
Proof. now apply only_calls_modify. Qed.
Lemma only_calls_set_frameIntervalRef v : only_calls P (set_frameIntervalRef v).
Proof. now apply only_calls_modify. Qed.

End Calls.

Create HintDb calls.
#[local] Hint Resolve only_calls_ret only_calls_throw only_calls_lift
  only_calls_gets only_calls_new_id only_calls_setConnected
  only_calls_setIsCameraActive only_calls_setFacingMode only_calls_setStatus
  only_calls_setError only_calls_set_sessionRef only_calls_set_audioContextRef
  only_calls_set_inputAudioContextRef only_calls_set_nextStartTimeRef
  only_calls_set_sourcesRef only_calls_set_streamRef
  only_calls_set_frameIntervalRef : calls.

(** Steps through a handler, leaving the calls that have to satisfy the
    predicate. *)
Ltac calls_steps :=
  repeat match goal with
    | |- only_calls _ (bind _ _) => apply only_calls_bind; [|intros ?]
    | |- only_calls _ (try_catch _ _) => apply only_calls_try_catch; [|intros ?]
    | |- only_calls _ (forEach _ _) => apply only_calls_forEach; intros ?
    | |- only_calls _ (emit _) => apply only_calls_emit; exact I
    | |- only_calls _ (lift _) => apply only_calls_lift
    | |- only_calls _ (gets _) => apply only_calls_gets
    | |- only_calls _ (match ?x with _ => _ end) => destruct x
    | |- only_calls _ _ => solve [auto with calls]
    end.

(** No handler but the two producers ever calls [sendRealtimeInput]. *)
Lemma only_calls_not_send ev :
  match ev with
  | AudioProcess _ _ _ | FrameBlob _ _ _ => True
  | _ => only_calls not_send (handler ev)
  end.
Proof.
  destruct ev; cbn [handler]; try exact I.
  - unfold connect, getUserMedia, stopEverything, track_stop, source_stop.
    calls_steps.
  - unfold sessionRejected, stopEverything, track_stop, source_stop.
    calls_steps.
  - unfold onopen. calls_steps.
  - unfold onframe. calls_steps.
  - unfold onmessage, interruption, source_stop, source_start. calls_steps.
  - unfold onended. calls_steps.
  - unfold onclose. calls_steps.
  - unfold onerror, stopEverything, track_stop, source_stop. calls_steps.
  - unfold stopEverything, track_stop, source_stop. calls_steps.
  - unfold toggleCamera. calls_steps.
  - unfold switchCamera. calls_steps.
  - unfold switchCamera_exact, switchCamera_swap, switchCamera_failed,
      track_stop.
    calls_steps.
  - unfold switchCamera_relaxed, switchCamera_swap, switchCamera_failed,
      track_stop.
    calls_steps.
  - unfold switchCamera_played. calls_steps.
Qed.

(** X14. Media is sent only while a session reference is held. For every
    event, the calls its handler adds to the log contain no
    [sendRealtimeInput] when the session reference is null, and none either
    unless the event is an audio block or a finished frame encoding whose send
    the platform accepts. With a session reference, such an audio block is
    sent exactly once, as the blob [createBlob] makes of it, to the session
    the callback closes over. *)
Theorem sends_need_a_session (w : World) (ev : Event) :
  (sessionRef w = None \/ may_send ev = false ->
   exists es, log (step w ev) = log w ++ es /\ Forall not_send es)
  /\ (forall sessionPromise inputData,
         sessionRef w <> None ->
         ev = AudioProcess sessionPromise inputData (Ret tt) ->
         exists pcmBlob,
           createBlob inputData = Ret pcmBlob
           /\ step w ev
              = add_log w [SendRealtimeInput sessionPromise pcmBlob]).
Proof.
  split.
  - intros H. pose proof (only_calls_not_send ev) as Hev.
    destruct ev; try exact (proj2 (Hev w)).
    + unfold step, handler, state_of, onaudioprocess, bind, gets.
      cbn [fst snd].
      destruct (sessionRef w) as [session|].
      * destruct H as [H|H]; [discriminate|].
        destruct delivery as [[]|e]; [discriminate|].
        destruct (createBlob_returns inputData) as [blob Hb].
        unfold lift at 1. rewrite Hb.
        exists [ConsoleDebug "Send audio error:"].
        split; [reflexivity | repeat constructor].
      * exists []. cbn. rewrite app_nil_r. split; [reflexivity | constructor].
    + unfold step, handler, state_of, onblob, bind, gets.
      destruct blob as [base64Data|].
      2:{ exists []. cbn. rewrite app_nil_r. split; [reflexivity|constructor]. }
      cbn [fst snd].
      destruct (sessionRef w) as [session|].
      * destruct H as [H|H]; [discriminate|].
        destruct delivery as [[]|e]; [discriminate|].
        exists [ConsoleDebug "Send video error:"].
        split; [reflexivity | repeat constructor].
      * exists []. cbn. rewrite app_nil_r. split; [reflexivity | constructor].
  - intros sessionPromise inputData Hs ->.
    destruct (createBlob_returns inputData) as [blob Hb].
    exists blob. split; [exact Hb|].
    unfold step, handler, state_of, onaudioprocess, bind, gets.
    cbn [fst snd]. destruct (sessionRef w); [|congruence].
    unfold lift at 1. rewrite Hb. reflexivity.
Qed.

Lemma sends_need_a_session_witness :
  exists es,
    log (step ended_session (AudioProcess 2 [Finite 1] (Ret tt)))
    = log ended_session ++ es
    /\ Forall not_send es.
Proof.
  apply (proj1 (@sends_need_a_session ended_session
                  (AudioProcess 2 [Finite 1] (Ret tt)))).
  left. reflexivity.
Defined.

(** ** Registering and deregistering sources *)

Lemma appends_weaken (P Q : Effect -> Prop) w w' :
  (forall e, P e -> Q e) -> appends P w w' -> appends Q w w'.
Proof.
  intros HPQ [Hf (es & E & F)]. split; [exact Hf|]. exists es.
  split; [exact E | eapply Forall_impl; eauto].
Qed.

Lemma only_calls_weaken {A} (P Q : Effect -> Prop) (c : M A) :
  (forall e, P e -> Q e) -> only_calls P c -> only_calls Q c.
Proof. intros HPQ Hc w. exact (@appends_weaken P Q _ _ HPQ (Hc w)). Qed.

Lemma only_calls_any ev : only_calls any_call (handler ev).
Proof.
  pose proof (only_calls_not_send ev) as Hev.
  assert (Hw : forall e, not_send e -> any_call e) by (intros; exact I).
  destruct ev;
    try exact (@only_calls_weaken _ not_send any_call _ Hw Hev).
  - unfold handler, onaudioprocess. calls_steps.
  - unfold handler, onblob. calls_steps.
Qed.

Lemma fresh_step w ev : (fresh w <= fresh (step w ev))%nat.
Proof. exact (proj1 (only_calls_any ev w)). Qed.

Lemma ids_below_weaken n m l :
  (n <= m)%nat ->
  Forall (fun s : AudioBufferSourceNode => (node_id s < n)%nat) l ->
  Forall (fun s => (node_id s < m)%nat) l.
Proof. intros Hnm. apply Forall_impl. intros; lia. Qed.

Lemma ids_below_step w ev : ids_below w -> ids_below (step w ev).
Proof.
  unfold ids_below. intros H. pose proof (fresh_step w ev) as Hf.
  pose proof (quiet_handler ev) as Hq.
  destruct ev;
    try (destruct (Hq w) as [_ [f Ef]]; unfold step, state_of in *;
         rewrite Ef; apply Forall_filter_keep;
         exact (ids_below_weaken Hf H)).
  - destruct (connect_sources answer w) as [E|E]; rewrite E;
      [exact (ids_below_weaken Hf H) | constructor].
  - unfold step, handler in *.
    destruct (onmessage_cases message currentTime w)
      as [[es E] | [[_ E] | [E | [E | [(b & when & es & _ & E)
                                       | (b & when & _ & _ & E)]]]]];
      rewrite E in *; try (exact (ids_below_weaken Hf H)).
    + constructor.
    + cbn [add_log scheduled sourcesRef fresh] in *.
      apply Forall_app. split; [exact (ids_below_weaken Hf H)|].
      constructor; [cbn [node_id]; lia | constructor].
    + constructor.
Qed.

(** In every reachable state the identities of the sources of the playback
    set have all been handed out. *)
Lemma reachable_ids_below w : reachable w -> ids_below w.
Proof.
  induction 1 as [|w ev _ IH]; [constructor | now apply ids_below_step].
Qed.

Lemma filter_other_id n l :
  Forall (fun s : AudioBufferSourceNode => (node_id s < n)%nat) l ->
  filter (fun s => negb (node_id s =? n)%nat) l = l.
Proof.
  induction 1 as [|s r Hs _ IH]; cbn [filter]; [reflexivity|].
  destruct (Nat.eqb_spec (node_id s) n); [lia|]. cbn [negb]. now rewrite IH.
Qed.

(** X15. The ['ended'] listener deregisters exactly the source that ended:
    the playback set keeps the sources with another identity and nothing
    else changes. So, in a state where the identities of the set were
    all handed out (every reachable state), scheduling a chunk and then
    hearing that it ended gives back the playback set there was. *)
Theorem ended_deregisters (w : World) (node : nat) :
  let w' := step w (SourceEnded node) in
  (forall s, In s (sourcesRef w')
             <-> In s (sourcesRef w) /\ node_id s <> node)
  /\ log w' = log w
  /\ nextStartTimeRef w' = nextStartTimeRef w
  /\ (forall message currentTime b,
         ids_below w ->
         audioContextRef w <> None ->
         chunk_of message = Some (Ret b) ->
         interrupted_of message = false ->
         sourcesRef (run [Message message currentTime; SourceEnded (fresh w)] w)
         = sourcesRef w).
Proof.
  cbv zeta. split; [|split; [reflexivity | split; [reflexivity|]]].
  - intros s. unfold step, handler, state_of, onended, bind, gets.
    cbn [fst snd set_sourcesRef modify sourcesRef]. rewrite filter_In.
    destruct (Nat.eqb_spec (node_id s) node); cbn [negb];
      intuition congruence.
  - intros message currentTime b Hids Hctx Hb Hflag.
    change (run [Message message currentTime; SourceEnded (fresh w)] w)
      with (step (state_of (onmessage message currentTime) w)
              (SourceEnded (fresh w))).
    unfold state_of at 1.
    rewrite (@onmessage_decoded message currentTime w b Hb Hctx).
    assert (Hkeep : forall c,
               sourcesRef (step (not_started w c) (SourceEnded (fresh w)))
               = sourcesRef w).
    { intros c. unfold step, handler, state_of, onended, bind, gets.
      cbn [fst snd set_sourcesRef modify sourcesRef not_started].
      exact (filter_other_id Hids). }
    destruct (start_of w currentTime) as [| |when]; cbn [fst];
      try apply Hkeep.
    destruct (Qle_bool 0 when); [|apply Hkeep].
    rewrite (@interruption_absent message _ Hflag).
    cbn [fst]. unfold step, handler, state_of, onended, bind, gets.
    cbn [fst snd set_sourcesRef modify sourcesRef scheduled].
    rewrite filter_app, (filter_other_id Hids). cbn [filter node_id].
    rewrite Nat.eqb_refl. cbn [negb]. apply app_nil_r.
Qed.

Lemma ended_deregisters_witness :
  sourcesRef (run [Message (audio_message two_frames false) 0%Q;
                   SourceEnded (fresh live_playing)] live_playing)
  = sourcesRef live_playing.
Proof.
  apply (proj2 (proj2 (proj2
           (@ended_deregisters live_playing (fresh live_playing))))
           (audio_message two_frames false) 0%Q two_frames_buffer).
  - exact (reachable_ids_below live_playing_reached).
  - discriminate.
  - vm_compute. reflexivity.
  - reflexivity.
Defined.

(** ** Data URLs *)

Lemma String_split_none sep s : ~ In sep s -> String_split sep s = (s, []).
Proof.
  induction s as [|c r IH]; cbn [String_split]; intros H; [reflexivity|].
  rewrite IH by (intros Hr; apply H; now right).
  destruct (N.eqb_spec c sep) as [->|_]; [|reflexivity].
  exfalso; apply H; now left.
Qed.

Lemma String_split_app sep h p :
  ~ In sep h ->
  String_split sep (h ++ sep :: p)
  = (h, fst (String_split sep p) :: snd (String_split sep p)).
Proof.
  induction h as [|c r IH]; cbn [app String_split]; intros H.
  - destruct (String_split sep p). now rewrite N.eqb_refl.
  - rewrite IH by (intros Hr; apply H; now right).
    destruct (N.eqb_spec c sep) as [->|_]; [|reflexivity].
    exfalso; apply H; now left.
Qed.

Lemma comma_free_spec s : comma_free s = true -> ~ In comma s.
Proof.
  unfold comma_free. rewrite forallb_forall. intros H Hin.
  specialize (H _ Hin). now rewrite N.eqb_refl in H.
Qed.

Lemma after_comma_none s : comma_free s = true -> after_comma s = None.
Proof.
  intros H. unfold after_comma.
  now rewrite (@String_split_none comma s (@comma_free_spec s H)).
Qed.

Lemma after_comma_app h p :
  comma_free h = true ->
  after_comma (h ++ comma :: p) = Some (fst (String_split comma p)).
Proof.
  intros H. unfold after_comma.
  now rewrite (@String_split_app comma h p (@comma_free_spec h H)).
Qed.

Lemma btoa_no_comma s p : Base64.btoa s = Ret p -> ~ In comma p.
Proof.
  unfold Base64.btoa.
  destruct (forallb _ s); [intros [= <-] | discriminate].
  intros H. apply in_app_or in H as [H|H].
  - apply in_map_iff in H as (i & Hi & _). revert Hi.
    unfold Base64.letter, comma. case_tests; lia.
  - unfold Base64.padding in H.
    destruct (N.of_nat (List.length s) mod 3)%N as [|[[]|[]|]];
      cbn [In] in H; unfold Base64.pad, comma in H;
      intuition discriminate.
Qed.

(** X16. [blobToBase64] gives back the payload of a data URL. When the
    header of the URL (what stands before its first comma) has no comma, the
    promise resolves with the Base64 text of the blob's bytes, unchanged,
    from which [decode] gives the bytes back; of a string without a comma it
    resolves with [undefined]. *)
Theorem blobToBase64_payload (header : jsstring) (bytes : list byte) :
  comma_free header = true ->
  blobToBase64 header = None
  /\ exists payload,
      encode bytes = Ret payload
      /\ blobToBase64 (header ++ comma :: payload) = Some payload
      /\ decode payload = Ret bytes.
Proof.
  intros H. split; [now apply after_comma_none|].
  destruct (encode_returns bytes) as [payload Hp]. exists payload.
  split; [exact Hp|]. split; [|exact (@decode_after_encode bytes payload Hp)].
  unfold blobToBase64. rewrite (@after_comma_app header payload H).
  unfold encode in Hp.
  now rewrite (@String_split_none comma payload (@btoa_no_comma _ payload Hp)).
Qed.

Lemma blobToBase64_payload_witness :
  blobToBase64 (js "data:image/jpeg;base64") = None
  /\ exists payload,
      encode [x01; x02; x03] = Ret payload
      /\ blobToBase64 (js "data:image/jpeg;base64" ++ comma :: payload)
         = Some payload
      /\ decode payload = Ret [x01; x02; x03].
Proof.
  apply (@blobToBase64_payload (js "data:image/jpeg;base64") [x01; x02; x03]).
  reflexivity.
Defined.

(** ** [redesignImage] *)

Lemma first_image_some l url :
  Gemini.first_image l = Some url ->
  exists before part blob after,
    l = before ++ part :: after
    /\ Forall no_inline_data before
    /\ Gemini.inlineData part = Some blob
    /\ url = Gemini.data_url blob.
Proof.
  induction l as [|p r IH]; cbn [Gemini.first_image]; [discriminate|].
  destruct (Gemini.inlineData p) as [blob|] eqn:Ep.
  - intros [= <-]. exists [], p, blob, r. now repeat split.
  - intros H. destruct (IH H) as (before & part & blob & after & -> & F & E & U).
    exists (p :: before), part, blob, after.
    split; [reflexivity|]. split; [now constructor|]. now split.
Qed.

Lemma first_image_none l :
  Gemini.first_image l = None -> Forall no_inline_data l.
Proof.
  induction l as [|p r IH]; cbn [Gemini.first_image]; [constructor|].
  destruct (Gemini.inlineData p) eqn:Ep; [discriminate|].
  intros H. constructor; [exact Ep | now apply IH].
Qed.

Lemma comma_free_app a b :
  comma_free (a ++ b) = comma_free a && comma_free b.
Proof. apply forallb_app. Qed.

Lemma first_image_app before part blob after :
  Forall no_inline_data before ->
  Gemini.inlineData part = Some blob ->
  Gemini.first_image (before ++ part :: after) = Some (Gemini.data_url blob).
Proof.
  intros F E. induction F as [|p r Hp _ IH]; cbn [app Gemini.first_image].
  - now rewrite E.
  - now rewrite Hp.
Qed.

Lemma first_image_without l :
  Forall no_inline_data l -> Gemini.first_image l = None.
Proof.
  induction 1 as [|p r Hp _ IH]; cbn [Gemini.first_image]; [reflexivity|].
  now rewrite Hp.
Qed.

(** X17. [redesignImage] answers with the first part of the first candidate
    that carries inline data, whatever parts stand before or after it, as a
    data URL; when the type written in the URL has no comma, what stands
    after the first comma of the URL, up to the next one, is the data of
    that part. It fails with its own message when the first candidate has no
    parts or none of them carries inline data. *)
Theorem redesignImage_first_image (r : Gemini.GenerateContentResponse)
    (before after : list Gemini.Part) (part : Gemini.Part)
    (blob : Gemini.Blob) :
  (Gemini.parts_of r = Some (before ++ part :: after) ->
   Forall no_inline_data before ->
   Gemini.inlineData part = Some blob ->
   Gemini.redesignImage (Fulfilled r) = Fulfilled (Gemini.data_url blob)
   /\ (comma_free
         (Gemini.or_else (Gemini.mimeType blob) (js "image/jpeg")) = true ->
       after_comma (Gemini.data_url blob)
       = Some (fst (String_split comma
                      (Gemini.interpolated (Gemini.data blob))))))
  /\ (match Gemini.parts_of r with
      | Some l => Forall no_inline_data l
      | None => True
      end ->
      Gemini.redesignImage (Fulfilled r) = RejectedError Gemini.no_image).
Proof.
  split.
  - intros El F E. cbn [Gemini.redesignImage]. rewrite El.
    rewrite (@first_image_app before part blob after F E).
    split; [reflexivity|]. intros Hm. unfold Gemini.data_url.
    replace (js "data:" ++
             Gemini.or_else (Gemini.mimeType blob) (js "image/jpeg") ++
             js ";base64," ++ Gemini.interpolated (Gemini.data blob))
      with ((js "data:" ++
             Gemini.or_else (Gemini.mimeType blob) (js "image/jpeg") ++
             js ";base64") ++
            comma :: Gemini.interpolated (Gemini.data blob)).
    + apply after_comma_app. rewrite !comma_free_app, Hm. reflexivity.
    + rewrite <- !app_assoc. reflexivity.
  - cbn [Gemini.redesignImage]. destruct (Gemini.parts_of r) as [l|].
    + intros F. now rewrite (@first_image_without l F).
    + reflexivity.
Qed.

Lemma redesignImage_first_image_witness :
  let blob := {| Gemini.data := Some (js "AQID");
                 Gemini.mimeType := Some (js "image/png") |} in
  let note := {| Gemini.inlineData := None; Gemini.text := Some (js "ok") |} in
  let image := {| Gemini.inlineData := Some blob; Gemini.text := None |} in
  let r := {| Gemini.candidates :=
                Some [{| Gemini.content :=
                           Some {| Gemini.parts := Some [note; image] |} |}] |} in
  Gemini.redesignImage (Fulfilled r) = Fulfilled (Gemini.data_url blob)
  /\ after_comma (Gemini.data_url blob)
     = Some (fst (String_split comma
                    (Gemini.interpolated (Gemini.data blob)))).
Proof.
  intros blob note image r.
  destruct (proj1 (@redesignImage_first_image r [note] [] image blob))
    as [H1 H2].
  - reflexivity.
  - repeat constructor.
  - reflexivity.
  - split; [exact H1 | apply H2; reflexivity].
Defined.

(** ** The inspiration analyzer *)

Lemma trimStart_nil s : trimStart s = [] <-> blank s = true.
Proof.
  unfold blank. induction s as [|c r IH]; cbn [trimStart forallb].
  - easy.
  - destruct (is_white_space c); cbn [andb]; [exact IH | easy].
Qed.

Lemma blank_rev s : blank (rev s) = blank s.
Proof.
  unfold blank. apply eq_true_iff_eq. rewrite !forallb_forall.
  split; intros H x Hx; apply H; [rewrite <- in_rev | rewrite in_rev];
    exact Hx.
Qed.

Lemma trimStart_blank s : blank (trimStart s) = blank s.
Proof.
  unfold blank. induction s as [|c r IH]; cbn [trimStart forallb].
  - reflexivity.
  - destruct (is_white_space c) eqn:E; cbn [andb forallb]; [exact IH|].
    now rewrite E.
Qed.

(** A string trims to nothing when it is made of white space only. *)
Lemma trim_nil s : trim s = [] <-> blank s = true.
Proof.
  unfold trim. rewrite <- (trimStart_blank s), <- (blank_rev (trimStart s)).
  rewrite <- trimStart_nil. split; intros H.
  - apply (f_equal (@rev N)) in H. now rewrite rev_involutive in H.
  - now rewrite H.
Qed.

Lemma photo_loaded_reached : Inspiration.reachable photo_loaded.
Proof.
  change photo_loaded
    with (Inspiration.step
            (Inspiration.step Inspiration.initial
               (Inspiration.FileChange (Some [photo])))
            (Inspiration.LoadEnd photo (Some photo_url) "blob:1")).
  apply Inspiration.reachable_step;
    [apply Inspiration.reachable_step; [constructor | exact I] |].
  cbn. now left.
Qed.

(** Reduces the setters under the projections of the state. *)
Ltac cells :=
  cbn [Inspiration.imageFile Inspiration.imageBase64 Inspiration.previewUrl
       Inspiration.analysis Inspiration.loading Inspiration.error
       Inspiration.showRedesign Inspiration.redesignPrompt
       Inspiration.isRedesigning Inspiration.redesignedImageUrl
       Inspiration.redesignError Inspiration.calls
       Inspiration.setImageFile Inspiration.setImageBase64
       Inspiration.setPreviewUrl Inspiration.setAnalysis
       Inspiration.setLoading Inspiration.setError
       Inspiration.setShowRedesign Inspiration.setRedesignPrompt
       Inspiration.setIsRedesigning Inspiration.setRedesignedImageUrl
       Inspiration.setRedesignError Inspiration.call Inspiration.andThen].

(** A handler never forgets the file. *)
Lemma step_keeps_file s ev :
  Inspiration.imageFile s <> None ->
  Inspiration.imageFile (Inspiration.step s ev) <> None.
Proof.
  intros Hf.
  destruct ev as [files|file result url|answer|answer|shown|value];
    cbn [Inspiration.step]; try exact Hf.
  - unfold Inspiration.handleFileChange.
    destruct files as [[|file rest]|]; try exact Hf.
    destruct (Inspiration.size_limit <? Inspiration.size file)%N;
      [exact Hf | cells; discriminate].
  - unfold Inspiration.onloadend. destruct result; exact Hf.
  - unfold Inspiration.handleAnalyze.
    destruct (truthy (Inspiration.imageBase64 s)); [|exact Hf].
    destruct (Inspiration.imageFile s) eqn:Ef; [|congruence].
    destruct answer; cells; congruence.
  - unfold Inspiration.handleRedesign.
    destruct (truthy (Inspiration.imageBase64 s)); [|exact Hf].
    destruct (trim (Inspiration.redesignPrompt s)); [exact Hf|].
    destruct answer; cells; exact Hf.
Qed.

(** The two requests leave the image data alone and start no read. *)
Lemma handleAnalyze_frame answer s :
  Inspiration.imageBase64 (Inspiration.handleAnalyze answer s)
  = Inspiration.imageBase64 s
  /\ forall f,
      In (Inspiration.ReadAsDataURL f)
        (Inspiration.calls (Inspiration.handleAnalyze answer s)) ->
      In (Inspiration.ReadAsDataURL f) (Inspiration.calls s).
Proof.
  unfold Inspiration.handleAnalyze.
  destruct (truthy (Inspiration.imageBase64 s)); [|now split].
  destruct (Inspiration.imageFile s); [|now split].
  destruct answer; cells; (split; [reflexivity|]); intros f0 Hf;
    apply in_app_or in Hf as [Hf|[Hf|[]]]; (exact Hf || discriminate).
Qed.

Lemma handleRedesign_frame answer s :
  Inspiration.imageBase64 (Inspiration.handleRedesign answer s)
  = Inspiration.imageBase64 s
  /\ forall f,
      In (Inspiration.ReadAsDataURL f)
        (Inspiration.calls (Inspiration.handleRedesign answer s)) ->
      In (Inspiration.ReadAsDataURL f) (Inspiration.calls s).
Proof.
  unfold Inspiration.handleRedesign.
  destruct (truthy (Inspiration.imageBase64 s)); [|now split].
  destruct (trim (Inspiration.redesignPrompt s)); [now split|].
  destruct answer; cells; (split; [reflexivity|]); intros f Hf;
    apply in_app_or in Hf as [Hf|[Hf|[]]]; (exact Hf || discriminate).
Qed.

(** Image data and reads in flight come from a possible load end or were
    there before, unless a file has just been chosen. *)
Lemma step_keeps_source s ev :
  Inspiration.possible s ev ->
  truthy (Inspiration.imageBase64 (Inspiration.step s ev)) <> None
  \/ (exists f, In (Inspiration.ReadAsDataURL f)
                  (Inspiration.calls (Inspiration.step s ev))) ->
  (truthy (Inspiration.imageBase64 s) <> None
   \/ (exists f, In (Inspiration.ReadAsDataURL f) (Inspiration.calls s)))
  \/ Inspiration.imageFile (Inspiration.step s ev) <> None.
Proof.
  intros Hev.
  destruct ev as [files|file result url|answer|answer|shown|value];
    cbn [Inspiration.step]; try (now left).
  - unfold Inspiration.handleFileChange.
    destruct files as [[|file rest]|]; try (now left).
    destruct (Inspiration.size_limit <? Inspiration.size file)%N;
      [now left | intros _; right; cells; discriminate].
  - intros _. left. right. exists file. exact Hev.
  - destruct (handleAnalyze_frame answer s) as [E1 E2]. rewrite E1.
    intros [H|[f H]]; left; [now left | right; exists f; now apply E2].
  - destruct (handleRedesign_frame answer s) as [E1 E2]. rewrite E1.
    intros [H|[f H]]; left; [now left | right; exists f; now apply E2].
Qed.

(** The image data and the reads in flight come with a file. *)
Lemma reachable_has_file s :
  Inspiration.reachable s ->
  truthy (Inspiration.imageBase64 s) <> None
  \/ (exists f, In (Inspiration.ReadAsDataURL f) (Inspiration.calls s)) ->
  Inspiration.imageFile s <> None.
Proof.
  induction 1 as [|s ev _ IH Hev]; [cbn; intros [H|[f []]]; congruence|].
  intros H. destruct (step_keeps_source s ev Hev H) as [H0|H0];
    [apply step_keeps_file, IH, H0 | exact H0].
Qed.

(** X18. Once image data is held, [handleAnalyze] asks for exactly one
    analysis, of that data with the type of the chosen file (in every state
    the component can reach there is such a file), and it never leaves the
    component loading: the analysis is the answer, or the error is the
    failure's message. Without image data it asks for nothing and only sets
    the error. *)
Theorem handleAnalyze_outcome (s : Inspiration.State)
    (answer : Settled Inspiration.ImageAnalysis) :
  let s' := Inspiration.handleAnalyze answer s in
  (truthy (Inspiration.imageBase64 s) = None ->
   s' = Inspiration.setError
          (Some "Please select an image to analyze."%string) s)
  /\ (forall base64,
         Inspiration.reachable s ->
         truthy (Inspiration.imageBase64 s) = Some base64 ->
         exists file,
           Inspiration.imageFile s = Some file
           /\ Inspiration.calls s'
              = Inspiration.calls s
                  ++ [Inspiration.AnalyzeImage base64 (Inspiration.type file)]
           /\ Inspiration.loading s' = false
           /\ Inspiration.redesignedImageUrl s' = None
           /\ Inspiration.showRedesign s' = false
           /\ match answer with
              | Fulfilled result =>
                  Inspiration.analysis s' = Some result
                  /\ Inspiration.error s' = None
              | RejectedError message =>
                  Inspiration.analysis s' = None
                  /\ Inspiration.error s' = Some message
              | Rejected =>
                  Inspiration.analysis s' = None
                  /\ Inspiration.error s'
                     = Some "An unknown error occurred."%string
              end).
Proof.
  cbv zeta. unfold Inspiration.handleAnalyze. split.
  - now intros ->.
  - intros base64 Hr Et. rewrite Et.
    destruct (Inspiration.imageFile s) as [file|] eqn:Ef.
    + exists file. split; [reflexivity|].
      destruct answer; cbn; rewrite ?Ef; now repeat split.
    + exfalso. apply (@reachable_has_file s Hr); [left; congruence | exact Ef].
Qed.

Lemma handleAnalyze_outcome_witness :
  exists file,
    Inspiration.imageFile photo_loaded = Some file
    /\ Inspiration.calls
         (Inspiration.handleAnalyze (@Rejected _) photo_loaded)
       = Inspiration.calls photo_loaded
           ++ [Inspiration.AnalyzeImage (js "AQID") (Inspiration.type file)]
    /\ Inspiration.loading
         (Inspiration.handleAnalyze (@Rejected _) photo_loaded) = false
    /\ Inspiration.redesignedImageUrl
         (Inspiration.handleAnalyze (@Rejected _) photo_loaded) = None
    /\ Inspiration.showRedesign
         (Inspiration.handleAnalyze (@Rejected _) photo_loaded) = false
    /\ Inspiration.analysis
         (Inspiration.handleAnalyze (@Rejected _) photo_loaded) = None
    /\ Inspiration.error
         (Inspiration.handleAnalyze (@Rejected _) photo_loaded)
       = Some "An unknown error occurred."%string.
Proof.
  destruct (proj2 (@handleAnalyze_outcome photo_loaded (@Rejected _))
              (js "AQID") photo_loaded_reached eq_refl)
    as (file & H1 & H2 & H3 & H4 & H5 & H6 & H7).
  exists file. repeat (split; [assumption|]). assumption.
Defined.

(** X19. Until the read of a newly chosen file has ended, the image data
    held is still that of the file chosen before: an analysis asked for in
    between sends the data of the previous image with the type of the new
    file. *)
Theorem analyze_before_load_end (s : Inspiration.State)
    (file : Inspiration.File) (others : list Inspiration.File)
    (answer : Settled Inspiration.ImageAnalysis) (base64 : jsstring) :
  truthy (Inspiration.imageBase64 s) = Some base64 ->
  (Inspiration.size file <= Inspiration.size_limit)%N ->
  let s' :=
    Inspiration.run
      [Inspiration.FileChange (Some (file :: others));
       Inspiration.Analyze answer] s in
  Inspiration.calls s'
  = Inspiration.calls s
      ++ [Inspiration.ReadAsDataURL file;
          Inspiration.AnalyzeImage base64 (Inspiration.type file)]
  /\ Inspiration.imageFile s' = Some file
  /\ Inspiration.imageBase64 s' = Inspiration.imageBase64 s
  /\ Inspiration.previewUrl s' = Inspiration.previewUrl s.
Proof.
  intros Et Hs. cbv zeta.
  cbn [Inspiration.run fold_left Inspiration.step].
  unfold Inspiration.handleFileChange.
  destruct (N.ltb_spec Inspiration.size_limit (Inspiration.size file));
    [lia|].
  unfold Inspiration.handleAnalyze. cells. rewrite Et.
  destruct answer; cells; rewrite <- app_assoc; now repeat split.
Qed.

Lemma analyze_before_load_end_witness :
  let other := {| Inspiration.size := 5; Inspiration.type := js "image/jpeg" |} in
  let s' :=
    Inspiration.run
      [Inspiration.FileChange (Some [other]);
       Inspiration.Analyze (@Rejected _)] photo_loaded in
  Inspiration.calls s'
  = Inspiration.calls photo_loaded
      ++ [Inspiration.ReadAsDataURL other;
          Inspiration.AnalyzeImage (js "AQID") (js "image/jpeg")]
  /\ Inspiration.imageFile s' = Some other
  /\ Inspiration.imageBase64 s' = Inspiration.imageBase64 photo_loaded
  /\ Inspiration.previewUrl s' = Inspiration.previewUrl photo_loaded.
Proof.
  intros other.
  apply (@analyze_before_load_end photo_loaded other [] (@Rejected _)
           (js "AQID")).
  - reflexivity.
  - vm_compute. discriminate.
Defined.

(** X20. [handleRedesign] asks for a redesign only with image data and a
    prompt that is not blank. With a prompt made of white space only, or
    without image data, it asks for nothing and only sets its error.
    Otherwise it asks once, with the prompt as typed and the type of the
    file, or [image/jpeg] when there is no file or its type is empty, and it
    never leaves the component redesigning: the result is the answer, or the
    error is the failure's message. *)
Theorem handleRedesign_outcome (s : Inspiration.State)
    (answer : Settled jsstring) :
  let s' := Inspiration.handleRedesign answer s in
  (truthy (Inspiration.imageBase64 s) = None
   \/ blank (Inspiration.redesignPrompt s) = true ->
   s' = Inspiration.setRedesignError
          (Some "Please provide instructions for the redesign."%string) s)
  /\ (forall base64,
         truthy (Inspiration.imageBase64 s) = Some base64 ->
         blank (Inspiration.redesignPrompt s) = false ->
         exists mimeType,
           Inspiration.calls s'
           = Inspiration.calls s
               ++ [Inspiration.RedesignImage base64 mimeType
                     (Inspiration.redesignPrompt s)]
           /\ mimeType <> []
           /\ match Inspiration.imageFile s with
              | Some file =>
                  Inspiration.type file <> [] ->
                  mimeType = Inspiration.type file
              | None => mimeType = js "image/jpeg"
              end
           /\ Inspiration.isRedesigning s' = false
           /\ match answer with
              | Fulfilled resultUrl =>
                  Inspiration.redesignedImageUrl s' = Some resultUrl
                  /\ Inspiration.redesignError s' = None
              | RejectedError message =>
                  Inspiration.redesignedImageUrl s' = None
                  /\ Inspiration.redesignError s' = Some message
              | Rejected =>
                  Inspiration.redesignedImageUrl s' = None
                  /\ Inspiration.redesignError s'
                     = Some "An unknown error occurred during redesign."%string
              end).
Proof.
  cbv zeta. unfold Inspiration.handleRedesign. split.
  - intros [-> | Hb]; [reflexivity|].
    apply trim_nil in Hb. rewrite Hb.
    now destruct (truthy (Inspiration.imageBase64 s)).
  - intros base64 -> Hb.
    destruct (trim (Inspiration.redesignPrompt s)) as [|c r] eqn:Et.
    + apply trim_nil in Et. congruence.
    + eexists. split; [destruct answer; reflexivity|].
      split.
      * destruct (Inspiration.imageFile s) as [file|];
          [destruct (Inspiration.type file) |]; discriminate.
      * split.
        -- destruct (Inspiration.imageFile s) as [file|]; [|reflexivity].
           destruct (Inspiration.type file); [congruence | reflexivity].
        -- destruct answer; now repeat split.
Qed.

Lemma handleRedesign_outcome_witness :
  Inspiration.handleRedesign (Fulfilled (js "data:,"))
    (Inspiration.setRedesignPrompt [32; 9; 10]%N photo_loaded)
  = Inspiration.setRedesignError
      (Some "Please provide instructions for the redesign."%string)
      (Inspiration.setRedesignPrompt [32; 9; 10]%N photo_loaded).
Proof.
  apply (proj1 (@handleRedesign_outcome
                  (Inspiration.setRedesignPrompt [32; 9; 10]%N photo_loaded)
                  (Fulfilled (js "data:,")))).
  right. reflexivity.
Defined.
